(** * Five-step cycle: a shallow embedding of [five_step_cycle.py]

    The composite classical/quantum state, the five forward morphisms, the
    four inverse morphisms and the four complexity pillars of
    [src/code/five_step_cycle.py], followed by the properties that the
    specification states about them.

    Conventions of the embedding.
    - Integer arrays are [list Z]; Python's bit operators are [Z.lor],
      [Z.lxor], [Z.land], [Z.shiftl], [Z.shiftr]; [%] is [Z.modulo] (both
      take the sign of the divisor).
    - Floating-point numbers are read as real numbers ([R]); a float that is
      the result of [0/0] is not a real number and is modelled as [None]
      (NaN) in [float := option R].
    - Complex numbers are pairs of reals; an n-by-n array is a function from
      two indices to a complex number and is only ever inspected at indices
      below n.  Two arrays are compared entry by entry on that range
      ([mat_eq]).
    - Exceptions are modelled by the [result] monad.
    - The module [Shaped] repeats the functions that take a state with arrays
      that carry their dimension, to say what the code does with a quantum
      component that is not 8 by 8; on 8 by 8 components its functions agree
      with the others ([shaped_agrees]).
    - The library routines [scipy.linalg.expm], [numpy.linalg.eigh],
      [numpy.linalg.eigvalsh] and the generator behind
      [numpy.random.default_rng] are not code of this repository; they are
      the fields of the classes [LinAlg] and [Rng].  A property that depends
      on what they return states the part of their contract it uses. *)

From Stdlib Require Import Reals Lra Lia ZArith List String Ascii Bool PeanoNat.
From Stdlib Require Import DecimalString.
From stdpp Require Import base option list gmap sets strings.
Import ListNotations.

Set Default Proof Using "Type".

(* ===================================================================== *)
(** * Exceptions *)
(* ===================================================================== *)

(** [IndexError] and [ValueError] are the Python errors the modelled code can
    raise.  [DimensionMismatch] is the error named by the specification; no
    definition of this file produces it. *)
Inductive exn : Set := IndexError | ValueError | DimensionMismatch.

Inductive result (A : Type) : Type :=
| Ok (a : A)
| Raise (e : exn).
Arguments Ok {A} a.
Arguments Raise {A} e.

#[global] Instance result_ret : MRet result := fun _ a => Ok a.
#[global] Instance result_bind : MBind result := fun _ _ f m =>
  match m with
  | Ok a => f a
  | Raise e => Raise e
  end.

(** A float: a real number, or NaN. *)
Abbreviation float := (option R).

(* ===================================================================== *)
(** * Configuration *)
(* ===================================================================== *)

Definition N_BITS : nat := 8.
Definition N_QUBITS : nat := 3.
Definition DIM_HILBERT : nat := 2 ^ N_QUBITS.
Definition A_PARAM : R := 68 / 100.
Definition PRG_SEED : list Z := [0; 1; 1; 0]%Z.
Definition J_ISING : R := PI / 4.
Definition H_KICK : R := PI / 8.
Definition N_KICKS : nat := 5.
Definition TAU : R := 5 / 10.

(* ===================================================================== *)
(** * Classical bit-transform primitives *)
(* ===================================================================== *)

(** [arr[i]] for a non-negative index. *)
Definition get_item {A} (l : list A) (i : nat) : result A :=
  match l !! i with
  | Some x => Ok x
  | None => Raise IndexError
  end.

(** [arr[i] = v] for a non-negative index. *)
Definition set_item {A} (l : list A) (i : nat) (v : A) : result (list A) :=
  if (i <? length l)%nat then Ok (<[i := v]> l) else Raise IndexError.

(** [np.roll(state, -1)]. *)
Definition roll_left {A} (l : list A) : list A :=
  match l with
  | [] => []
  | x :: tl => tl ++ [x]
  end.

(** One pass of the loop body of [prg_expand]: emit [state[0]], shift the
    register and write the feedback bit [state[3] ^ state[2]] at its end. *)
Definition prg_step (state : list Z) : result (Z * list Z) :=
  out ← get_item state 0;
  s3 ← get_item state 3;
  s2 ← get_item state 2;
  let new_bit := Z.lxor s3 s2 in
  let rolled := roll_left state in
  state' ← set_item rolled (length rolled - 1) new_bit;
  Ok (out, state').

Fixpoint prg_loop (n : nat) (state : list Z) (output : list Z) : result (list Z) :=
  match n with
  | O => Ok output
  | S n' =>
      '(out, state') ← prg_step state;
      prg_loop n' state' (output ++ [out])
  end.

Definition prg_expand (seed : list Z) (target_length : nat) : result (list Z) :=
  prg_loop target_length seed [].

(** [int(np.sum(bits) % 2)]. *)
Definition np_sum_Z (bits : list Z) : Z := fold_right Z.add 0%Z bits.

Definition parity (bits : list Z) : Z := (np_sum_Z bits mod 2)%Z.

(** [arr[i:i+2]]. *)
Definition slice2 {A} (l : list A) (i : nat) : list A := take 2 (drop i l).

(** The accumulation [bit_int |= int(b) << i] over [enumerate(bits)]. *)
Fixpoint bits_to_int (i : Z) (bits : list Z) (bit_int : Z) : Z :=
  match bits with
  | [] => bit_int
  | b :: tl => bits_to_int (i + 1) tl (Z.lor bit_int (Z.shiftl b i))
  end.

(** One round of the loop of [arnold_cat_map_bits]. *)
Definition arnold_round (original : Z) (bit_int : Z) (round : Z) : Z :=
  let bit_int := Z.land (bit_int * 137) 255 in
  let bit_int :=
    Z.lxor bit_int (Z.land (Z.lor (Z.shiftl bit_int 4) (Z.shiftr bit_int 4)) 255) in
  Z.lxor bit_int (Z.land (Z.shiftr original round) 255).

(** The integer part of [arnold_cat_map_bits]: three rounds, then the XOR
    with [0b10101010]. *)
Definition arnold_cat_int (original : Z) : Z :=
  Z.lxor (fold_left (arnold_round original) [0; 1; 2]%Z original) 170.

(** [result[i] = (bit_int >> i) & 1] for [i] in [range(n)]. *)
Definition int_to_bits (n : nat) (bit_int : Z) : list Z :=
  map (fun i : nat => Z.land (Z.shiftr bit_int (Z.of_nat i)) 1) (seq 0 n).

(** The arguments [A] and [modulus] of the source are never read. *)
Definition arnold_cat_map_bits (bits : list Z) : list Z :=
  int_to_bits (length bits) (arnold_cat_int (bits_to_int 0 bits 0)).

(* ===================================================================== *)
(** * Complex numbers and arrays *)
(* ===================================================================== *)

Definition complex : Type := R * R.

Definition RtoC (x : R) : complex := (x, 0%R).
Definition Ci : complex := (0%R, 1%R).
Definition Cre (z : complex) : R := fst z.
Definition Cim (z : complex) : R := snd z.
Definition Cadd (a b : complex) : complex := ((fst a + fst b)%R, (snd a + snd b)%R).
Definition Copp (a : complex) : complex := ((- fst a)%R, (- snd a)%R).
Definition Csub (a b : complex) : complex := Cadd a (Copp b).
Definition Cmul (a b : complex) : complex :=
  ((fst a * fst b - snd a * snd b)%R, (fst a * snd b + snd a * fst b)%R).
Definition Cconj (a : complex) : complex := (fst a, (- snd a)%R).
(** [abs(z)**2]. *)
Definition Cnorm2 (a : complex) : R := (fst a * fst a + snd a * snd a)%R.
(** [np.abs(z)]. *)
Definition Cabs (a : complex) : R := sqrt (Cnorm2 a).

Declare Scope cx_scope.
Delimit Scope cx_scope with cx.
Bind Scope cx_scope with complex.
Infix "+" := Cadd : cx_scope.
Infix "-" := Csub : cx_scope.
Infix "*" := Cmul : cx_scope.
Notation "- x" := (Copp x) : cx_scope.
Notation "x ^*" := (Cconj x) (at level 1, format "x ^*") : cx_scope.

(** A one-dimensional and a two-dimensional complex array. *)
Definition Vector : Type := nat -> complex.
Definition Matrix : Type := nat -> nat -> complex.

(** [sum(f(k) for k in range(n))]. *)
Fixpoint Csum (f : nat -> complex) (n : nat) : complex :=
  match n with
  | O => RtoC 0
  | S n' => Cadd (Csum f n') (f n')
  end.

Fixpoint Rsum (f : nat -> R) (n : nat) : R :=
  match n with
  | O => 0%R
  | S n' => (Rsum f n' + f n')%R
  end.

Section Arrays.
(** The dimension of the square arrays. *)
Variable n : nat.

(** [np.eye(n)]. *)
Definition eye : Matrix := fun i j => if (i =? j)%nat then RtoC 1 else RtoC 0.
(** [np.zeros((n, n))] and [np.zeros(n)]. *)
Definition zeros : Matrix := fun _ _ => RtoC 0.
Definition vzeros : Vector := fun _ => RtoC 0.
(** [A @ B]. *)
Definition matmul (A B : Matrix) : Matrix :=
  fun i j => Csum (fun k => Cmul (A i k) (B k j)) n.
(** [A @ v]. *)
Definition matvec (A : Matrix) (v : Vector) : Vector :=
  fun i => Csum (fun k => Cmul (A i k) (v k)) n.
(** [np.trace(A)]. *)
Definition trace (A : Matrix) : complex := Csum (fun k => A k k) n.
(** [np.linalg.matrix_power(A, k)]. *)
Fixpoint matrix_power (A : Matrix) (k : nat) : Matrix :=
  match k with
  | O => eye
  | S k' => matmul A (matrix_power A k')
  end.
(** [np.vdot(u, v)]: the inner product, conjugate-linear in [u]. *)
Definition vdot (u v : Vector) : complex :=
  Csum (fun k => Cmul (Cconj (u k)) (v k)) n.

(** Entry-wise equality on the [n] by [n] (resp. [n]) index range. *)
Definition mat_eq (A B : Matrix) : Prop :=
  forall i j, (i < n)%nat -> (j < n)%nat -> A i j = B i j.
Definition vect_eq (u v : Vector) : Prop :=
  forall i, (i < n)%nat -> u i = v i.
End Arrays.

(** [A.conj().T]. *)
Definition adjoint (A : Matrix) : Matrix := fun i j => Cconj (A j i).
(** [A + B], [c * A], [np.outer(u, v.conj())], [v.conj()]. *)
Definition madd (A B : Matrix) : Matrix := fun i j => Cadd (A i j) (B i j).
Definition mscale (c : complex) (A : Matrix) : Matrix := fun i j => Cmul c (A i j).
Definition vscale (c : complex) (v : Vector) : Vector := fun i => Cmul c (v i).
Definition outer (u v : Vector) : Matrix := fun i j => Cmul (u i) (v j).
Definition vconj (v : Vector) : Vector := fun i => Cconj (v i).
(** [M[:, k]]. *)
Definition column (M : Matrix) (k : nat) : Vector := fun i => M i k.
(** [np.kron(A, B)] for [B] of shape m by m. *)
Definition kron (m : nat) (A B : Matrix) : Matrix :=
  fun i j => Cmul (A (i / m) (j / m)) (B (i mod m) (j mod m)).

Notation "A =[ n ]= B" := (mat_eq n A B) (at level 70, n at level 9, no associativity).

#[global] Instance Rlt_decision (x y : R) : Decision (x < y)%R := Rlt_dec x y.
#[global] Instance Rle_decision (x y : R) : Decision (x <= y)%R := Rle_dec x y.
#[global] Instance Req_decision (x y : R) : Decision (x = y) := Req_dec_T x y.

(** [x / y] on floats: the quotient, or a value that is not a real number
    (NaN for [0/0], an infinity otherwise) when [y] is zero.  At every use
    with a vanishing divisor the dividend vanishes as well. *)
Definition np_div (x y : R) : float :=
  if decide (y = 0%R) then None else Some (x / y)%R.

(** [np.clip(x, lo, hi)]. *)
Definition np_clip (x lo hi : R) : R := Rmin (Rmax x lo) hi.

(** [np.log2]. *)
Definition log2 (x : R) : R := (ln x / ln 2)%R.

(** [np.arctan2(y, x)]. *)
Definition arctan2 (y x : R) : R :=
  if decide (0 < x)%R then atan (y / x)
  else if decide (x < 0)%R then
         (if decide (0 <= y)%R then atan (y / x) + PI else atan (y / x) - PI)%R
  else if decide (0 < y)%R then (PI / 2)%R
  else if decide (y < 0)%R then (- PI / 2)%R
  else 0%R.

(** [1e-12], [1e-10]. *)
Definition eps12 : R := (/ 10 ^ 12)%R.
Definition eps10 : R := (/ 10 ^ 10)%R.

(* ===================================================================== *)
(** * External numerical routines *)
(* ===================================================================== *)

(** [expm] is [scipy.linalg.expm]; [eigh] is [numpy.linalg.eigh], returning
    the eigenvalues and the array whose columns are the eigenvectors;
    [eigvalsh] is [numpy.linalg.eigvalsh].  All three act on arrays of
    dimension [DIM_HILBERT]. *)
Class LinAlg : Type := {
  expm : Matrix -> Matrix;
  eigh : Matrix -> (nat -> R) * Matrix;
  eigvalsh : Matrix -> nat -> R
}.

(** [rng_random seed k] is the [k]-th number in [[0,1)] that the generator
    [np.random.default_rng(seed)] hands out. *)
Class Rng : Type := {
  rng_random : Z -> nat -> R
}.

(** [np.argmax(w)] for [w] of length [n]: the first index of the maximum. *)
Fixpoint argmax_upto (w : nat -> R) (k : nat) : nat :=
  match k with
  | O => O
  | S k' => let best := argmax_upto w k' in
            if decide (w best < w k)%R then k else best
  end.
Definition np_argmax (w : nat -> R) (n : nat) : nat := argmax_upto w (n - 1).

(** The boolean-mask selection [w[w > threshold]] of an array of length [n]. *)
Definition select_above (threshold : R) (w : nat -> R) (n : nat) : list R :=
  List.filter (fun x => bool_decide (threshold < x)%R) (map w (seq 0 n)).

Definition np_sum (l : list R) : R := fold_right Rplus 0%R l.
(** [np.mean] of a non-empty list. *)
Definition np_mean (l : list R) : R := (np_sum l / INR (length l))%R.
(** [np.std]. *)
Definition np_std (l : list R) : R :=
  sqrt (np_mean (map (fun x => (Rabs (x - np_mean l)) ^ 2)%R l)).

(* ===================================================================== *)
(** * The composite state *)
(* ===================================================================== *)

Record SystemState : Type := {
  C : list Z;
  Q : Matrix;
  morphisms_applied : gset string;
  _points : option (list (R * R))
}.

(** [SystemState(C, Q, morphisms_applied)]: the point cloud starts absent. *)
Definition new_state (c : list Z) (q : Matrix) (tags : gset string) : SystemState :=
  {| C := c; Q := q; morphisms_applied := tags; _points := None |}.

Definition with_points (s : SystemState) (pts : list (R * R)) : SystemState :=
  {| C := C s; Q := Q s; morphisms_applied := morphisms_applied s;
     _points := Some pts |}.

Definition initial_state : SystemState :=
  new_state (replicate N_BITS 0%Z)
            (fun i j => if ((i =? 0) && (j =? 0))%nat then RtoC 1 else RtoC 0)
            ∅.

(* ===================================================================== *)
(** * Quantum-operator primitives *)
(* ===================================================================== *)

(** [[(i >> k) & 1 for k in range(n_qubits)]]. *)
Definition bits_of (n_qubits i : nat) : list nat :=
  map (fun k => Nat.land (Nat.shiftr i k) 1) (seq 0 n_qubits).

(** [sum(b << k for k, b in enumerate(bits))]. *)
Fixpoint int_of_bits (k : nat) (bits : list nat) : nat :=
  match bits with
  | [] => 0
  | b :: tl => Nat.shiftl b k + int_of_bits (S k) tl
  end.

(** [U[[i, j]] = U[[j, i]]]. *)
Definition swap_rows (i j : nat) (U : Matrix) : Matrix :=
  fun r c => if (r =? i)%nat then U j c else if (r =? j)%nat then U i c else U r c.

Fixpoint fold_result {A B} (f : A -> B -> result A) (l : list B) (a : A) : result A :=
  match l with
  | [] => Ok a
  | b :: tl => a' ← f a b; fold_result f tl a'
  end.

Definition cnot_step (n_qubits control target : nat) (U : Matrix) (i : nat)
  : result Matrix :=
  let bits := bits_of n_qubits i in
  bc ← get_item bits control;
  if (bc =? 1)%nat then
    bt ← get_item bits target;
    let bits_flipped := <[target := (1 - bt)%nat]> bits in
    let j := int_of_bits 0 bits_flipped in
    Ok (if (i <? j)%nat then swap_rows i j U else U)
  else Ok U.

Definition cnot_gate (n_qubits control target : nat) : result Matrix :=
  fold_result (cnot_step n_qubits control target) (seq 0 (2 ^ n_qubits)) eye.

(** [np.array([[1, 1], [1, -1]]) / np.sqrt(2)]. *)
Definition hadamard : Matrix := fun i j =>
  match i, j with
  | 0, 0 | 0, 1 | 1, 0 => RtoC (1 / sqrt 2)
  | 1, 1 => RtoC (-1 / sqrt 2)
  | _, _ => RtoC 0
  end%nat.

(** [np.kron(H, np.eye(2**(n_qubits-1)))]. *)
Definition H_full (n_qubits : nat) : Matrix := kron (2 ^ (n_qubits - 1)) hadamard eye.

(** [psi = np.zeros(dim); psi[0] = 1.0]. *)
Definition basis_zero : Vector := fun i => if (i =? 0)%nat then RtoC 1 else RtoC 0.

Definition prepare_ghz_state (n_qubits : nat) : result Matrix :=
  let dim := 2 ^ n_qubits in
  let psi := matvec dim (H_full n_qubits) basis_zero in
  psi ← fold_result (fun psi target =>
                       CNOT ← cnot_gate n_qubits 0 target;
                       Ok (matvec dim CNOT psi))
                    (seq 1 (n_qubits - 1)) psi;
  Ok (outer psi (vconj psi)).

Definition projector_step (n_qubits qubit_index outcome : nat) (P : Matrix) (i : nat)
  : result Matrix :=
  b ← get_item (bits_of n_qubits i) qubit_index;
  Ok (if (b =? outcome)%nat
      then (fun r c => if ((r =? i) && (c =? i))%nat then RtoC 1 else P r c)
      else P).

Definition projector_single_qubit (n_qubits qubit_index outcome : nat) : result Matrix :=
  fold_result (projector_step n_qubits qubit_index outcome)
              (seq 0 (2 ^ n_qubits)) (zeros).

(** [np.random.choice([0, 1], p=[p_0, p_1])], given the number [u] in
    [[0,1)] that it draws from the process-wide generator: the probabilities
    are checked, then the cumulative distribution is searched for [u]. *)
Definition np_random_choice (u : R) (p_0 p_1 : float) : result Z :=
  match p_0, p_1 with
  | Some p0, Some p1 =>
      if bool_decide (p0 < 0)%R || bool_decide (p1 < 0)%R then Raise ValueError
      else Ok (if bool_decide (p0 <= u)%R then 1%Z else 0%Z)
  | _, _ => Raise ValueError
  end.

Definition measure_qubit (u : R) (rho : Matrix) (qubit_index n_qubits : nat)
  : result (Z * Matrix) :=
  let dim := 2 ^ n_qubits in
  P_0 ← projector_single_qubit n_qubits qubit_index 0;
  P_1 ← projector_single_qubit n_qubits qubit_index 1;
  let p_0 := Cre (trace dim (matmul dim (matmul dim P_0 rho) P_0)) in
  let p_1 := Cre (trace dim (matmul dim (matmul dim P_1 rho) P_1)) in
  let total := (p_0 + p_1)%R in
  outcome ← np_random_choice u (np_div p_0 total) (np_div p_1 total);
  let rho_mixed_0 := matmul dim (matmul dim P_0 rho) P_0 in
  let rho_mixed_1 := matmul dim (matmul dim P_1 rho) P_1 in
  let rho_post := madd rho_mixed_0 rho_mixed_1 in
  let depol_strength := (1 / 10)%R in
  let rho_depol := mscale (RtoC (/ INR dim)) eye in
  Ok (outcome, madd (mscale (RtoC (1 - depol_strength)) rho_post)
                    (mscale (RtoC depol_strength) rho_depol)).

(** The value of the variable [term] in the Hamiltonian builders: the float
    [1.0] it starts as, or an array of a known dimension. *)
Inductive kron_term : Type :=
| TScalar (x : R)
| TArray (d : nat) (M : Matrix).

(** [np.kron(term, B)] for a 2 by 2 array [B]; a scalar [term] scales [B]. *)
Definition kron_term_with (term : kron_term) (B : Matrix) : kron_term :=
  match term with
  | TScalar x => TArray 2 (mscale (RtoC x) B)
  | TArray d M => TArray (d * 2) (kron 2 M B)
  end.

(** [np.kron(term, P) if isinstance(term, np.ndarray) else P]. *)
Definition kron_term_or (term : kron_term) (P : Matrix) : kron_term :=
  match term with
  | TScalar _ => TArray 2 P
  | TArray _ _ => kron_term_with term P
  end.

(** [H += c * term]; a scalar [term] would be broadcast to every entry. *)
Definition add_scaled_term (H : Matrix) (c : R) (term : kron_term) : Matrix :=
  match term with
  | TScalar x => fun i j => Cadd (H i j) (RtoC (c * x))
  | TArray _ M => madd H (mscale (RtoC c) M)
  end.

Definition pauli_Z : Matrix := fun i j =>
  match i, j with
  | 0, 0 => RtoC 1
  | 1, 1 => RtoC (-1)
  | _, _ => RtoC 0
  end%nat.

Definition pauli_X : Matrix := fun i j =>
  match i, j with
  | 0, 1 | 1, 0 => RtoC 1
  | _, _ => RtoC 0
  end%nat.

Definition ising_hamiltonian (n_qubits : nat) (J : R) : Matrix :=
  fold_left
    (fun H i =>
       let term :=
         fold_left (fun term k =>
                      if ((k =? i) || (k =? i + 1))%nat
                      then kron_term_or term pauli_Z
                      else kron_term_with term eye)
                   (seq 0 n_qubits) (TScalar 1) in
       add_scaled_term H J term)
    (seq 0 (n_qubits - 1)) zeros.

Definition kick_hamiltonian (n_qubits : nat) (h : R) : Matrix :=
  fold_left
    (fun H i =>
       let term :=
         fold_left (fun term k =>
                      if (k =? i)%nat
                      then kron_term_or term pauli_X
                      else kron_term_with term eye)
                   (seq 0 n_qubits) (TScalar 1) in
       add_scaled_term H h term)
    (seq 0 n_qubits) zeros.

(** [c * H * t] for a complex [c], as in [-1j * H_ising * tau]. *)
Definition scaled_generator (c : complex) (H : Matrix) (t : R) : Matrix :=
  fun i j => Cmul (Cmul c (H i j)) (RtoC t).

Section WithLinAlg.
Context `{LinAlg}.

Definition kicked_ising_evolution (rho : Matrix) (n_qubits : nat) (J h tau : R)
           (n_kicks : nat) : Matrix :=
  let dim := 2 ^ n_qubits in
  let H_ising := ising_hamiltonian n_qubits J in
  let H_kick := kick_hamiltonian n_qubits h in
  let U_ising := expm (scaled_generator (Copp Ci) H_ising tau) in
  let U_kick := expm (scaled_generator (Copp Ci) H_kick tau) in
  let U_floquet := matmul dim U_ising U_kick in
  let U_total := matrix_power dim U_floquet n_kicks in
  matmul dim (matmul dim U_total rho) (adjoint U_total).

(** [eigenvecs[:, np.argmax(eigenvals)]] after [np.linalg.eigh(Q)]. *)
Definition dominant_eigenvector (q : Matrix) : Vector :=
  let '(eigenvals, eigenvecs) := eigh q in
  column eigenvecs (np_argmax eigenvals DIM_HILBERT).
End WithLinAlg.

(* ===================================================================== *)
(** * Geometric transform *)
(* ===================================================================== *)

(** [str(b)] for an integer. *)
Definition str_of_int (z : Z) : string := NilZero.string_of_int (Z.to_int z).

(** The digits of a binary literal, most significant first. *)
Fixpoint parse_binary_digits (s : string) (acc : Z) : result Z :=
  match s with
  | EmptyString => Ok acc
  | String c tl =>
      if Ascii.eqb c "0" then parse_binary_digits tl (2 * acc)%Z
      else if Ascii.eqb c "1" then parse_binary_digits tl (2 * acc + 1)%Z
      else Raise ValueError
  end.

(** [int(s, 2)] for a string made of the characters of decimal integers: an
    optional minus sign and a non-empty run of binary digits. *)
Definition int_base2 (s : string) : result Z :=
  match s with
  | EmptyString => Raise ValueError
  | String c tl =>
      if Ascii.eqb c "-" then
        match tl with
        | EmptyString => Raise ValueError
        | _ => v ← parse_binary_digits tl 0; Ok (- v)%Z
        end
      else parse_binary_digits s 0
  end.

Section WithRng.
Context `{Rng}.

Definition bits_to_points (bits : list Z) (n_points : nat) : result (list (R * R)) :=
  v ← int_base2 (String.concat "" (map str_of_int bits));
  let seed := (v mod 2 ^ 31)%Z in
  let r := map (fun k => sqrt (rng_random seed k)) (seq 0 n_points) in
  let theta := map (fun k => (2 * PI * rng_random seed (n_points + k))%R)
                   (seq 0 n_points) in
  Ok (zip_with (fun r theta => (r * cos theta, r * sin theta)%R) r theta).
End WithRng.

Definition T_a (points : list (R * R)) (a : R) : list (R * R) :=
  map (fun '(x, y) =>
         let r := sqrt (x ^ 2 + y ^ 2) in
         let theta := arctan2 y x in
         let r_prime := sqrt (a ^ 2 + (1 - a ^ 2) * r ^ 2) in
         (r_prime * cos theta, r_prime * sin theta)%R)
      points.

(** [np.mean(r <= r_0)]: the fraction of radii at most [r_0]; NaN for an
    empty array. *)
Definition fraction_within (r : list R) (r_0 : R) : float :=
  np_div (INR (length (List.filter (fun x => bool_decide (x <= r_0)%R) r)))
         (INR (length r)).

Definition central_void_score (points : list (R * R)) (a alpha : R) : float :=
  let r := map (fun '(x, y) => sqrt (x ^ 2 + y ^ 2)) points in
  let r_0 := (alpha * a)%R in
  let expected_frac := (r_0 ^ 2)%R in
  let observed_frac := fraction_within r r_0 in
  if decide (expected_frac = 0%R) then Some 0%R
  else
    observed ← observed_frac;
    Some (np_clip ((expected_frac - observed) / expected_frac) 0 1).

(* ===================================================================== *)
(** * Morphisms *)
(* ===================================================================== *)

(** [enumerate(l)]. *)
Definition enumerate {A} (l : list A) : list (nat * A) := zip (seq 0 (length l)) l.

(** [[C[i:i+2] for i in range(0, N_BITS, 2)]] and the parity of each block. *)
Definition syndromes_of (c : list Z) : list Z :=
  map (fun k => parity (slice2 c (2 * k))) (seq 0 (N_BITS / 2)).

(** [arr[k]] at an index that has been reduced modulo [len(arr)], hence in
    range; the default is never returned. *)
Definition item (l : list Z) (k : nat) : Z := default 0%Z (l !! k).

Section Morphisms.
Context `{LinAlg} `{Rng}.

Definition morphism_1_circuit_compilation (state : SystemState) : result SystemState :=
  C_1 ← prg_expand PRG_SEED N_BITS;
  Q_1 ← prepare_ghz_state N_QUBITS;
  Ok (new_state C_1 Q_1 (morphisms_applied state ∪ {["f_alg"%string]})).

(** [u] is the number that [np.random.choice] draws inside [measure_qubit]. *)
Definition morphism_2_syndrome_encoding (u : R) (state : SystemState)
  : result SystemState :=
  let C_1 := C state in
  let Q_1 := Q state in
  let syndromes := syndromes_of C_1 in
  C_2 ← fold_result (fun C_2 '(i, syn) =>
                       x ← get_item C_2 (2 * i);
                       set_item C_2 (2 * i) ((x + syn) mod 2)%Z)
                    (enumerate syndromes) C_1;
  '(outcome, Q_2) ← measure_qubit u Q_1 0 N_QUBITS;
  C_2 ← set_item C_2 0 outcome;
  Ok (new_state C_2 Q_2 (morphisms_applied state ∪ {["f_info"%string]})).

Definition morphism_3_arnold_cat (state : SystemState) : result SystemState :=
  let C_3 := arnold_cat_map_bits (C state) in
  let Q_3 := kicked_ising_evolution (Q state) N_QUBITS J_ISING H_KICK TAU N_KICKS in
  Ok (new_state C_3 Q_3 (morphisms_applied state ∪ {["f_dyn"%string]})).

Definition morphism_4_disk_to_annulus (state : SystemState) (n_points : nat)
  : result SystemState :=
  points_disk ← bits_to_points (C state) n_points;
  let points_annulus := T_a points_disk A_PARAM in
  Ok (with_points
        (new_state (C state) (Q state) (morphisms_applied state ∪ {["f_geom"%string]}))
        points_annulus).

Definition f_geom_inv (state : SystemState) : result SystemState :=
  let points_disk :=
    match _points state with
    | Some points_annulus =>
        Some (map (fun '(x, y) =>
                     let r_annulus := sqrt (x ^ 2 + y ^ 2) in
                     let theta := arctan2 y x in
                     let a := A_PARAM in
                     let r_disk := np_clip ((r_annulus - a) / (1 - a)) 0 1 in
                     (r_disk * cos theta, r_disk * sin theta)%R)
                  points_annulus)
    | None => None
    end in
  Ok {| C := C state; Q := Q state;
        morphisms_applied := morphisms_applied state ∖ {["f_geom"%string]};
        _points := points_disk |}.

(** Python's [(i-1) % n] is written [(i + n - 1) mod n] on naturals. *)
Definition f_dyn_inv (state : SystemState) : result SystemState :=
  let c := C state in
  let n := length c in
  let unmixed :=
    map (fun i => ((item c i + item c ((i + 1) mod n) + item c ((i + n - 1) mod n))
                     mod 2)%Z)
        (seq 0 n) in
  let C_inv :=
    fold_left (fun C_inv i => <[(2 * i + i / 2) mod n := item unmixed i]> C_inv)
              (seq 0 n) (replicate n 0%Z) in
  let H_ising := ising_hamiltonian N_QUBITS J_ISING in
  let H_kick := kick_hamiltonian N_QUBITS H_KICK in
  let U_ising_dag := expm (scaled_generator Ci H_ising TAU) in
  let U_kick_dag := expm (scaled_generator Ci H_kick TAU) in
  let U_floquet_dag := matmul DIM_HILBERT U_kick_dag U_ising_dag in
  let U_total_dag := matrix_power DIM_HILBERT U_floquet_dag N_KICKS in
  let Q_inv :=
    matmul DIM_HILBERT (matmul DIM_HILBERT U_total_dag (Q state)) (adjoint U_total_dag) in
  Ok (new_state C_inv Q_inv (morphisms_applied state ∖ {["f_dyn"%string]})).

Definition f_info_inv (state : SystemState) : result SystemState :=
  let syndromes := syndromes_of (C state) in
  C_inv ← fold_result (fun C_inv '(i, syn) =>
                         x ← get_item C_inv (2 * i);
                         set_item C_inv (2 * i) ((x - syn) mod 2)%Z)
                      (enumerate syndromes) (C state);
  C_inv ← set_item C_inv 0 0%Z;
  let dominant := dominant_eigenvector (Q state) in
  let Q_inv := outer dominant (vconj dominant) in
  Ok (new_state C_inv Q_inv (morphisms_applied state ∖ {["f_info"%string]})).

Definition f_alg_inv (state : SystemState) : result SystemState :=
  let C_inv := replicate N_BITS 0%Z in
  let q := Q state in
  psi ← fold_result (fun (_ : Vector) target =>
                       CNOT ← cnot_gate N_QUBITS 0 target;
                       let psi := dominant_eigenvector q in
                       Ok (matvec DIM_HILBERT CNOT psi))
                    (rev (seq 1 (N_QUBITS - 1))) vzeros;
  let psi := matvec DIM_HILBERT (H_full N_QUBITS) psi in
  let Q_inv := outer psi (vconj psi) in
  Ok (new_state C_inv Q_inv ∅).

Definition phi_closing_isomorphism (state : SystemState) : result SystemState :=
  X_3_back ← f_geom_inv state;
  X_2_back ← f_dyn_inv X_3_back;
  X_1_back ← f_info_inv X_2_back;
  f_alg_inv X_1_back.
End Morphisms.

(* ===================================================================== *)
(** * Complexity pillars *)
(* ===================================================================== *)

(** [np.diff(bits)]. *)
Fixpoint np_diff (bits : list Z) : list Z :=
  match bits with
  | a :: ((b :: _) as tl) => (b - a)%Z :: np_diff tl
  | _ => []
  end.

(** [np.sum(np.abs(np.diff(bits)))]. *)
Definition transitions_of (bits : list Z) : Z := np_sum_Z (map Z.abs (np_diff bits)).

(** [np.sum(bits != pattern)] for two integer sequences. *)
Definition count_differences (bits pattern : list Z) : nat :=
  length (List.filter (fun '(b, p) => negb (b =? p)%Z) (zip bits pattern)).

(** The dictionary [block_counts]: keys in order of first insertion. *)
Fixpoint count_block (block : list Z) (counts : list (list Z * nat))
  : list (list Z * nat) :=
  match counts with
  | [] => [(block, 1%nat)]
  | (k, v) :: tl =>
      if bool_decide (k = block) then (k, S v) :: tl
      else (k, v) :: count_block block tl
  end.

(** [range(start, stop, 2)] with [stop] possibly negative. *)
Definition range_by_2 (stop : Z) : list nat :=
  map (fun k => 2 * k)%nat (seq 0 (Z.to_nat ((stop + 1) / 2))).

Definition compute_bit_mixing_score (bits : list Z) : float :=
  let n := length bits in
  transitions ← np_div (IZR (transitions_of bits)) (IZR (Z.of_nat n - 1));
  let pattern_0 := replicate n 0%Z in
  let pattern_1 := replicate n 1%Z in
  let pattern_alt := map (fun i => Z.of_nat (i mod 2)) (seq 0 n) in
  dist_0 ← np_div (INR (count_differences bits pattern_0)) (INR n);
  dist_1 ← np_div (INR (count_differences bits pattern_1)) (INR n);
  dist_alt ← np_div (INR (count_differences bits pattern_alt)) (INR n);
  let pattern_distance := Rmin (Rmin dist_0 dist_1) dist_alt in
  let block_counts :=
    fold_left (fun counts i => count_block (slice2 bits i) counts)
              (range_by_2 (Z.of_nat n - 1)) [] in
  let total_blocks := fold_right Nat.add 0%nat (map snd block_counts) in
  let block_entropy_norm :=
    if (0 <? total_blocks)%nat then
      let probs := map (fun kv => (INR (snd kv) / INR total_blocks)%R) block_counts in
      let block_entropy := (- np_sum (map (fun p => p * log2 (p + eps12)) probs))%R in
      (block_entropy / 2)%R
    else 0%R in
  let mixing_score :=
    (3 / 10 * transitions + 4 / 10 * pattern_distance + 3 / 10 * block_entropy_norm)%R in
  Some (np_clip mixing_score 0 1).

Section Pillars.
Context `{LinAlg} `{Rng}.

(** [n_qubits] is [N_QUBITS] at the only call. *)
Definition circuit_depth_proxy (rho : Matrix) (n_qubits : nat) : R :=
  let purity := Cre (trace DIM_HILBERT (matmul DIM_HILBERT rho rho)) in
  let eigenvalues := select_above eps12 (eigvalsh rho) DIM_HILBERT in
  let entropy := (- np_sum (map (fun x => x * log2 (x + eps12)) eigenvalues))%R in
  let max_entropy := INR n_qubits in
  let entropy_normalized := (entropy / max_entropy)%R in
  (5 / 10 * (1 - purity) + 5 / 10 * entropy_normalized)%R.

Definition compute_C_alg (state : SystemState) : result float :=
  let c := C state in
  Ok (hamming ← np_div (IZR (np_sum_Z c)) (INR (length c));
      let transitions := transitions_of c in
      let pattern :=
        if (1 <? length c)%nat then (IZR transitions / (INR (length c) - 1))%R
        else 0%R in
      let classical_complexity := (5 / 10 * hamming + 5 / 10 * pattern)%R in
      let circuit_proxy := circuit_depth_proxy (Q state) N_QUBITS in
      Some (3 / 10 * classical_complexity + 7 / 10 * circuit_proxy)%R).

Definition compute_C_info (state : SystemState) : result float :=
  let c := C state in
  let n_blocks := (length c / 2)%nat in
  let syndrome_complexity :=
    if (0 <? n_blocks)%nat then
      let parities :=
        map (fun i => IZR (np_sum_Z (slice2 c (2 * i)) mod 2)) (seq 0 n_blocks) in
      let parity_balance := (2 * Rabs (np_mean parities - 5 / 10))%R in
      (1 - parity_balance)%R
    else 0%R in
  let purity := Cre (trace DIM_HILBERT (matmul DIM_HILBERT (Q state) (Q state))) in
  let mixedness := (1 - purity)%R in
  let eigenvals := map (eigvalsh (Q state)) (seq 0 DIM_HILBERT) in
  let rank := length (List.filter (fun x => bool_decide (eps10 < x)%R) eigenvals) in
  let rank_normalized :=
    if (1 <? length eigenvals)%nat
    then ((INR rank - 1) / (INR (length eigenvals) - 1))%R
    else 0%R in
  Ok (Some (3 / 10 * syndrome_complexity + 5 / 10 * mixedness
            + 2 / 10 * rank_normalized)%R).

Definition compute_C_dyn (state : SystemState) : result float :=
  Ok (mixing_score ← compute_bit_mixing_score (C state);
      let eigenvals := select_above eps12 (eigvalsh (Q state)) DIM_HILBERT in
      let eigenvalue_spread :=
        if (1 <? length eigenvals)%nat then
          let cv := (np_std eigenvals / (np_mean eigenvals + eps12))%R in
          np_clip cv 0 1
        else 0%R in
      Some (7 / 10 * mixing_score + 3 / 10 * eigenvalue_spread)%R).

Definition compute_C_geom (state : SystemState) (a : R) : result float :=
  points ← match _points state with
           | Some points => Ok points
           | None => bits_to_points (C state) 1000
           end;
  let alpha := (8 / 10)%R in
  let r := map (fun '(x, y) => sqrt (x ^ 2 + y ^ 2)) points in
  let r_0 := (alpha * a)%R in
  let expected_frac := (r_0 ^ 2)%R in
  let observed_frac := fraction_within r r_0 in
  Ok (if decide (0 < expected_frac)%R then
        observed ← observed_frac;
        Some (np_clip ((expected_frac - observed) / expected_frac) 0 1)
      else Some 0%R).
End Pillars.

(* ===================================================================== *)
(** * Further functions of the source *)
(* ===================================================================== *)


(** [s[i:j]] for [i <= j]; like a Python slice it stops at the end of [s]. *)
Definition str_slice (s : string) (i j : nat) : string := substring i (j - i) s.

(** The inner [for] loop of [lempel_ziv_complexity]: the longest [s[i:j]]
    found in the dictionary before the first [j] whose slice is not in it. *)
Fixpoint longest_known (dictionary : gset string) (s : string) (i : nat)
         (js : list nat) (longest : string) : string :=
  match js with
  | [] => longest
  | j :: js' =>
      let substr := str_slice s i j in
      if bool_decide (substr ∈ dictionary)
      then longest_known dictionary s i js' substr
      else longest
  end.

(** The [while i < n] loop of [lempel_ziv_complexity].  Every pass adds at
    least 1 to [i], so [n - i] passes always suffice; [fuel] counts them. *)
Fixpoint lz_loop (fuel : nat) (s : string) (n i complexity : nat)
         (dictionary : gset string) : nat :=
  match fuel with
  | O => complexity
  | S fuel' =>
      if (i <? n)%nat then
        let longest := longest_known dictionary s i (seq (i + 1) (n - i)) "" in
        let new_pattern :=
          if bool_decide (longest = ""%string)
          then (if (i <? n)%nat then str_slice s i (i + 1) else ""%string)
          else (if (i + String.length longest <? n)%nat
                then str_slice s i (i + String.length longest + 1)
                else longest) in
        if bool_decide (new_pattern <> ""%string)
        then lz_loop fuel' s n (i + String.length new_pattern) (complexity + 1)
                     ({[new_pattern]} ∪ dictionary)
        else lz_loop fuel' s n (i + 1) complexity dictionary
      else complexity
  end.

Definition lempel_ziv_complexity (bits : list Z) : nat :=
  let s := String.concat "" (map str_of_int bits) in
  let n := String.length s in
  Nat.max 1 (lz_loop n s n 0 0 ∅).

(** [np.linalg.norm(A, 'fro')] of an array of dimension [n]. *)
Definition frobenius_norm (n : nat) (A : Matrix) : R :=
  sqrt (Rsum (fun i => Rsum (fun j => Cnorm2 (A i j)) n) n).

Definition otoc_proxy_quantum (rho : Matrix) : R :=
  let dim := DIM_HILBERT in
  let off_diag : Matrix :=
    fun i j => Csub (rho i j) (if (i =? j)%nat then rho i i else RtoC 0) in
  let off_diag_norm := frobenius_norm dim off_diag in
  let max_norm := sqrt (INR (dim * (dim - 1))) in
  let scrambling := (1 - off_diag_norm / max_norm)%R in
  np_clip scrambling 0 1.



Section FurtherFunctions.
Context `{LinAlg} `{Rng}.


(** [state=None] is the legacy call that returns the origin state. *)
Definition morphism_5_closing_isomorphism (state : option SystemState)
  : result SystemState :=
  match state with
  | None =>
      Ok (new_state (replicate N_BITS 0%Z)
                    (fun i j => if ((i =? 0) && (j =? 0))%nat then RtoC 1 else RtoC 0)
                    ∅)
  | Some state => phi_closing_isomorphism state
  end.

Definition von_neumann_entropy (rho : Matrix) : R :=
  let eigenvalues := select_above eps12 (eigvalsh rho) DIM_HILBERT in
  let S := (- np_sum (map (fun x => x * log2 (x + eps12)) eigenvalues))%R in
  let dim := DIM_HILBERT in
  let max_S := log2 (INR dim) in
  if decide (0 < max_S)%R then (S / max_S)%R else 0%R.

End FurtherFunctions.

(* ===================================================================== *)
(** * Arrays that carry their dimension *)
(* ===================================================================== *)

(** The definitions above read every quantum component at the dimension 8.
    To see what the code does with a quantum component of another dimension,
    the module [Shaped] repeats the functions that take a state with arrays
    that carry their dimension: the product [@] of numpy raises [ValueError]
    when the dimensions of its two factors differ.  As in the data model a
    quantum component is a square array; the arrays the code builds itself
    have the dimension [2 ** n_qubits]. *)
Module Shaped.

Record ndarray : Type := { dimension : nat; entries : Matrix }.
Record ndvector : Type := { len : nat; items : Vector }.

(** An array of dimension [2 ** n_qubits] built by the code. *)
Definition operator (n_qubits : nat) (M : Matrix) : ndarray :=
  {| dimension := 2 ^ n_qubits; entries := M |}.

(** [A @ B] for two square arrays. *)
Definition np_matmul (A B : ndarray) : result ndarray :=
  if (dimension A =? dimension B)%nat
  then Ok {| dimension := dimension A;
             entries := matmul (dimension A) (entries A) (entries B) |}
  else Raise ValueError.

(** [A @ v] for a square array and a one-dimensional array. *)
Definition np_matvec (A : ndarray) (v : ndvector) : result ndvector :=
  if (dimension A =? len v)%nat
  then Ok {| len := dimension A;
             items := matvec (dimension A) (entries A) (items v) |}
  else Raise ValueError.

(** [A.conj().T]. *)
Definition np_adjoint (A : ndarray) : ndarray :=
  {| dimension := dimension A; entries := adjoint (entries A) |}.

(** [np.outer(v, v.conj())]. *)
Definition np_outer_conj (v : ndvector) : ndarray :=
  {| dimension := len v; entries := outer (items v) (vconj (items v)) |}.

(** [np.argmax(w)] for [w] of length [n]; numpy raises [ValueError] on an
    empty array. *)
Definition np_argmax (w : nat -> R) (n : nat) : result nat :=
  if (n =? 0)%nat then Raise ValueError else Ok (argmax_upto w (n - 1)).

(** [numpy.linalg.eigh] and [numpy.linalg.eigvalsh] on a square array of
    dimension [d]. *)
Class LinAlgAt : Type := {
  eigh_at : nat -> Matrix -> (nat -> R) * Matrix;
  eigvalsh_at : nat -> Matrix -> nat -> R
}.

Record State : Type := {
  C : list Z;
  Q : ndarray;
  morphisms_applied : gset string;
  _points : option (list (R * R))
}.

Definition new_state (c : list Z) (q : ndarray) (tags : gset string) : State :=
  {| C := c; Q := q; morphisms_applied := tags; _points := None |}.

(** The source computes [P_k @ rho @ P_k] twice, for the probability and for
    the state after the measurement; the second computation repeats the first
    and is not written again. *)
Definition measure_qubit (u : R) (rho : ndarray) (qubit_index n_qubits : nat)
  : result (Z * ndarray) :=
  let dim := 2 ^ n_qubits in
  P_0 ← projector_single_qubit n_qubits qubit_index 0;
  P_1 ← projector_single_qubit n_qubits qubit_index 1;
  let P_0 := operator n_qubits P_0 in
  let P_1 := operator n_qubits P_1 in
  P_0_rho ← np_matmul P_0 rho;
  rho_mixed_0 ← np_matmul P_0_rho P_0;
  let p_0 := Cre (trace (dimension rho_mixed_0) (entries rho_mixed_0)) in
  P_1_rho ← np_matmul P_1 rho;
  rho_mixed_1 ← np_matmul P_1_rho P_1;
  let p_1 := Cre (trace (dimension rho_mixed_1) (entries rho_mixed_1)) in
  let total := (p_0 + p_1)%R in
  outcome ← np_random_choice u (np_div p_0 total) (np_div p_1 total);
  let rho_post := madd (entries rho_mixed_0) (entries rho_mixed_1) in
  let depol_strength := (1 / 10)%R in
  let rho_depol := mscale (RtoC (/ INR dim)) eye in
  Ok (outcome,
      {| dimension := dim;
         entries := madd (mscale (RtoC (1 - depol_strength)) rho_post)
                         (mscale (RtoC depol_strength) rho_depol) |}).

Section WithLibraries.
Context `{LinAlg} `{LinAlgAt} `{Rng}.

Definition kicked_ising_evolution (rho : ndarray) (n_qubits : nat) (J h tau : R)
           (n_kicks : nat) : result ndarray :=
  let dim := 2 ^ n_qubits in
  let H_ising := ising_hamiltonian n_qubits J in
  let H_kick := kick_hamiltonian n_qubits h in
  let U_ising := expm (scaled_generator (Copp Ci) H_ising tau) in
  let U_kick := expm (scaled_generator (Copp Ci) H_kick tau) in
  let U_floquet := matmul dim U_ising U_kick in
  let U_total := operator n_qubits (matrix_power dim U_floquet n_kicks) in
  U_rho ← np_matmul U_total rho;
  np_matmul U_rho (np_adjoint U_total).

(** [eigenvecs[:, np.argmax(eigenvals)]] after [np.linalg.eigh(Q)]. *)
Definition dominant_eigenvector (q : ndarray) : result ndvector :=
  let '(eigenvals, eigenvecs) := eigh_at (dimension q) (entries q) in
  max_idx ← np_argmax eigenvals (dimension q);
  Ok {| len := dimension q; items := column eigenvecs max_idx |}.

Definition morphism_1_circuit_compilation (state : State) : result State :=
  C_1 ← prg_expand PRG_SEED N_BITS;
  Q_1 ← prepare_ghz_state N_QUBITS;
  Ok (new_state C_1 (operator N_QUBITS Q_1)
                (morphisms_applied state ∪ {["f_alg"%string]})).

Definition morphism_2_syndrome_encoding (u : R) (state : State) : result State :=
  let C_1 := C state in
  let Q_1 := Q state in
  let syndromes := syndromes_of C_1 in
  C_2 ← fold_result (fun C_2 '(i, syn) =>
                       x ← get_item C_2 (2 * i);
                       set_item C_2 (2 * i) ((x + syn) mod 2)%Z)
                    (enumerate syndromes) C_1;
  '(outcome, Q_2) ← measure_qubit u Q_1 0 N_QUBITS;
  C_2 ← set_item C_2 0 outcome;
  Ok (new_state C_2 Q_2 (morphisms_applied state ∪ {["f_info"%string]})).

Definition morphism_3_arnold_cat (state : State) : result State :=
  let C_3 := arnold_cat_map_bits (C state) in
  Q_3 ← kicked_ising_evolution (Q state) N_QUBITS J_ISING H_KICK TAU N_KICKS;
  Ok (new_state C_3 Q_3 (morphisms_applied state ∪ {["f_dyn"%string]})).

Definition morphism_4_disk_to_annulus (state : State) (n_points : nat)
  : result State :=
  points_disk ← bits_to_points (C state) n_points;
  let points_annulus := T_a points_disk A_PARAM in
  Ok {| C := C state; Q := Q state;
        morphisms_applied := morphisms_applied state ∪ {["f_geom"%string]};
        _points := Some points_annulus |}.

Definition f_geom_inv (state : State) : result State :=
  let points_disk :=
    match _points state with
    | Some points_annulus =>
        Some (map (fun '(x, y) =>
                     let r_annulus := sqrt (x ^ 2 + y ^ 2) in
                     let theta := arctan2 y x in
                     let a := A_PARAM in
                     let r_disk := np_clip ((r_annulus - a) / (1 - a)) 0 1 in
                     (r_disk * cos theta, r_disk * sin theta)%R)
                  points_annulus)
    | None => None
    end in
  Ok {| C := C state; Q := Q state;
        morphisms_applied := morphisms_applied state ∖ {["f_geom"%string]};
        _points := points_disk |}.

Definition f_dyn_inv (state : State) : result State :=
  let c := C state in
  let n := length c in
  let unmixed :=
    map (fun i => ((item c i + item c ((i + 1) mod n) + item c ((i + n - 1) mod n))
                     mod 2)%Z)
        (seq 0 n) in
  let C_inv :=
    fold_left (fun C_inv i => <[(2 * i + i / 2) mod n := item unmixed i]> C_inv)
              (seq 0 n) (replicate n 0%Z) in
  let H_ising := ising_hamiltonian N_QUBITS J_ISING in
  let H_kick := kick_hamiltonian N_QUBITS H_KICK in
  let U_ising_dag := expm (scaled_generator Ci H_ising TAU) in
  let U_kick_dag := expm (scaled_generator Ci H_kick TAU) in
  let U_floquet_dag := matmul DIM_HILBERT U_kick_dag U_ising_dag in
  let U_total_dag :=
    operator N_QUBITS (matrix_power DIM_HILBERT U_floquet_dag N_KICKS) in
  U_Q ← np_matmul U_total_dag (Q state);
  Q_inv ← np_matmul U_Q (np_adjoint U_total_dag);
  Ok (new_state C_inv Q_inv (morphisms_applied state ∖ {["f_dyn"%string]})).

Definition f_info_inv (state : State) : result State :=
  let syndromes := syndromes_of (C state) in
  C_inv ← fold_result (fun C_inv '(i, syn) =>
                         x ← get_item C_inv (2 * i);
                         set_item C_inv (2 * i) ((x - syn) mod 2)%Z)
                      (enumerate syndromes) (C state);
  C_inv ← set_item C_inv 0 0%Z;
  dominant ← dominant_eigenvector (Q state);
  let Q_inv := np_outer_conj dominant in
  Ok (new_state C_inv Q_inv (morphisms_applied state ∖ {["f_info"%string]})).

Definition f_alg_inv (state : State) : result State :=
  let C_inv := replicate N_BITS 0%Z in
  let q := Q state in
  psi ← fold_result (fun (_ : ndvector) target =>
                       CNOT ← cnot_gate N_QUBITS 0 target;
                       psi ← dominant_eigenvector q;
                       np_matvec (operator N_QUBITS CNOT) psi)
                    (rev (seq 1 (N_QUBITS - 1)))
                    {| len := 2 ^ N_QUBITS; items := vzeros |};
  psi ← np_matvec (operator N_QUBITS (H_full N_QUBITS)) psi;
  let Q_inv := np_outer_conj psi in
  Ok (new_state C_inv Q_inv ∅).

Definition phi_closing_isomorphism (state : State) : result State :=
  X_3_back ← f_geom_inv state;
  X_2_back ← f_dyn_inv X_3_back;
  X_1_back ← f_info_inv X_2_back;
  f_alg_inv X_1_back.

Definition circuit_depth_proxy (rho : ndarray) (n_qubits : nat) : result R :=
  rho_rho ← np_matmul rho rho;
  let purity := Cre (trace (dimension rho_rho) (entries rho_rho)) in
  let eigenvalues :=
    select_above eps12 (eigvalsh_at (dimension rho) (entries rho)) (dimension rho) in
  let entropy := (- np_sum (map (fun x => x * log2 (x + eps12)) eigenvalues))%R in
  let max_entropy := INR n_qubits in
  let entropy_normalized := (entropy / max_entropy)%R in
  Ok (5 / 10 * (1 - purity) + 5 / 10 * entropy_normalized)%R.

Definition compute_C_alg (state : State) : result float :=
  let c := C state in
  let hamming := np_div (IZR (np_sum_Z c)) (INR (length c)) in
  let transitions := transitions_of c in
  let pattern :=
    if (1 <? length c)%nat then (IZR transitions / (INR (length c) - 1))%R
    else 0%R in
  circuit_proxy ← circuit_depth_proxy (Q state) N_QUBITS;
  Ok (hamming ← hamming;
      let classical_complexity := (5 / 10 * hamming + 5 / 10 * pattern)%R in
      Some (3 / 10 * classical_complexity + 7 / 10 * circuit_proxy)%R).

Definition compute_C_info (state : State) : result float :=
  let c := C state in
  let n_blocks := (length c / 2)%nat in
  let syndrome_complexity :=
    if (0 <? n_blocks)%nat then
      let parities :=
        map (fun i => IZR (np_sum_Z (slice2 c (2 * i)) mod 2)) (seq 0 n_blocks) in
      let parity_balance := (2 * Rabs (np_mean parities - 5 / 10))%R in
      (1 - parity_balance)%R
    else 0%R in
  Q_Q ← np_matmul (Q state) (Q state);
  let purity := Cre (trace (dimension Q_Q) (entries Q_Q)) in
  let mixedness := (1 - purity)%R in
  let eigenvals :=
    map (eigvalsh_at (dimension (Q state)) (entries (Q state)))
        (seq 0 (dimension (Q state))) in
  let rank := length (List.filter (fun x => bool_decide (eps10 < x)%R) eigenvals) in
  let rank_normalized :=
    if (1 <? length eigenvals)%nat
    then ((INR rank - 1) / (INR (length eigenvals) - 1))%R
    else 0%R in
  Ok (Some (3 / 10 * syndrome_complexity + 5 / 10 * mixedness
            + 2 / 10 * rank_normalized)%R).

Definition compute_C_dyn (state : State) : result float :=
  Ok (mixing_score ← compute_bit_mixing_score (C state);
      let eigenvals :=
        select_above eps12 (eigvalsh_at (dimension (Q state)) (entries (Q state)))
                     (dimension (Q state)) in
      let eigenvalue_spread :=
        if (1 <? length eigenvals)%nat then
          let cv := (np_std eigenvals / (np_mean eigenvals + eps12))%R in
          np_clip cv 0 1
        else 0%R in
      Some (7 / 10 * mixing_score + 3 / 10 * eigenvalue_spread)%R).

Definition compute_C_geom (state : State) (a : R) : result float :=
  points ← match _points state with
           | Some points => Ok points
           | None => bits_to_points (C state) 1000
           end;
  let alpha := (8 / 10)%R in
  let r := map (fun '(x, y) => sqrt (x ^ 2 + y ^ 2)) points in
  let r_0 := (alpha * a)%R in
  let expected_frac := (r_0 ^ 2)%R in
  let observed_frac := fraction_within r r_0 in
  Ok (if decide (0 < expected_frac)%R then
        observed ← observed_frac;
        Some (np_clip ((expected_frac - observed) / expected_frac) 0 1)
      else Some 0%R).
End WithLibraries.

End Shaped.

(** The state [s] with its quantum component as an array of dimension 8. *)
Definition shaped (s : SystemState) : Shaped.State :=
  {| Shaped.C := C s;
     Shaped.Q := {| Shaped.dimension := DIM_HILBERT; Shaped.entries := Q s |};
     Shaped.morphisms_applied := morphisms_applied s;
     Shaped._points := _points s |}.

(** [f(x)] for a function that cannot fail. *)
Definition result_map {A B : Type} (f : A -> B) (r : result A) : result B :=
  match r with
  | Ok a => Ok (f a)
  | Raise e => Raise e
  end.

(** On arrays of dimension 8 the routines of [Shaped.LinAlgAt] are those of
    [LinAlg]. *)
Definition routines_agree `{LinAlg} `{Shaped.LinAlgAt} : Prop :=
  (forall M, Shaped.eigh_at DIM_HILBERT M = eigh M) /\
  (forall M, Shaped.eigvalsh_at DIM_HILBERT M = eigvalsh M).

(* ===================================================================== *)
(** * Specification-level notions *)
(* ===================================================================== *)

(** The three clauses of a valid density operator of dimension [n]. *)
Definition Hermitian (n : nat) (A : Matrix) : Prop := adjoint A =[n]= A.
Definition unit_trace (n : nat) (A : Matrix) : Prop := trace n A = RtoC 1.
Definition positive_semidefinite (n : nat) (A : Matrix) : Prop :=
  forall v : Vector, (0 <= Cre (vdot n v (matvec n A v)))%R.

Definition density_matrix (n : nat) (A : Matrix) : Prop :=
  Hermitian n A /\ unit_trace n A /\ positive_semidefinite n A.

(** [lam] is an eigenvalue of [A]: some vector that is not zero on the index
    range is scaled by [lam]. *)
Definition eigenvalue (n : nat) (A : Matrix) (lam : R) : Prop :=
  exists v : Vector,
    (exists i, (i < n)%nat /\ v i <> RtoC 0) /\
    vect_eq n (matvec n A v) (vscale (RtoC lam) v).

(** The validity the specification asks of every produced state: Hermitian,
    trace within [1e-6] of 1, no eigenvalue below [-1e-8]. *)
Definition valid_within_tolerance (n : nat) (A : Matrix) : Prop :=
  Hermitian n A /\
  (Cabs (Csub (trace n A) (RtoC 1)) <= / 10 ^ 6)%R /\
  (forall lam, eigenvalue n A lam -> (- / 10 ^ 8 <= lam)%R).

Definition unitary (n : nat) (U : Matrix) : Prop :=
  matmul n (adjoint U) U =[n]= eye /\ matmul n U (adjoint U) =[n]= eye.

(** The parts of the contract of the matrix exponential that the properties
    below rely on, for arrays of dimension 8: [exp(iGt)] is the inverse of
    [exp(-iGt)], and both are unitary when [G] is Hermitian. *)
Definition expm_inverse_law `{LinAlg} : Prop :=
  forall (G : Matrix) (t : R),
    matmul 8 (expm (scaled_generator Ci G t)) (expm (scaled_generator (Copp Ci) G t))
    =[8]= eye.

Definition expm_unitary_law `{LinAlg} : Prop :=
  forall (G : Matrix) (t : R),
    Hermitian 8 G ->
    unitary 8 (expm (scaled_generator (Copp Ci) G t)) /\
    unitary 8 (expm (scaled_generator Ci G t)).

(** The part of the contract of [numpy.linalg.eigh] that state validity
    relies on: for a Hermitian argument each returned eigenvector has norm 1. *)
Definition eigh_unit_law `{LinAlg} : Prop :=
  forall (q : Matrix) (k : nat),
    Hermitian 8 q -> (k < 8)%nat ->
    vdot 8 (column (snd (eigh q)) k) (column (snd (eigh q)) k) = RtoC 1.

(** An entry of a classical component, as the data model has it. *)
Definition is_bit (b : Z) : Prop := b = 0%Z \/ b = 1%Z.

(** The projector onto the outcome [o] of qubit 0, the least significant bit
    of the basis index, and the state that [measure_qubit] returns when it
    measures qubit 0 of three. *)
Definition qubit0_projector (o : nat) : Matrix :=
  fun i j => if ((i =? j) && (i mod 2 =? o))%nat then RtoC 1 else RtoC 0.

(** 1 when bit 0 of the index [i] is [o], else 0. *)
Definition bit0_indicator (o i : nat) : complex :=
  if (i mod 2 =? o)%nat then RtoC 1 else RtoC 0.

Definition measured (rho : Matrix) : Matrix :=
  madd (mscale (RtoC (1 - 1 / 10))
               (madd (matmul 8 (matmul 8 (qubit0_projector 0) rho) (qubit0_projector 0))
                     (matmul 8 (matmul 8 (qubit0_projector 1) rho) (qubit0_projector 1))))
       (mscale (RtoC (1 / 10)) (mscale (RtoC (/ INR 8)) eye)).

(** The state vector (|000> + |111>)/sqrt 2 that the specification calls the
    GHZ state, and its density matrix. *)
Definition ghz_vector : Vector :=
  fun i => if ((i =? 0) || (i =? 7))%nat then RtoC (1 / sqrt 2) else RtoC 0.
Definition ghz_density : Matrix := outer ghz_vector (vconj ghz_vector).

(** The vector (|000> + |100>)/sqrt 2, with non-zero entries at the indices 0
    and 4. *)
Definition plus_zero_zero : Vector :=
  fun i => if ((i =? 0) || (i =? 4))%nat then RtoC (1 / sqrt 2) else RtoC 0.

(** The one-qubit vectors (|0> + |1>)/sqrt 2 and |0>, and the tensor product of
    three one-qubit vectors in the index order of [np.kron]. *)
Definition qubit_plus : Vector :=
  fun i => if (i <? 2)%nat then RtoC (1 / sqrt 2) else RtoC 0.
Definition qubit_zero : Vector := fun i => if (i =? 0)%nat then RtoC 1 else RtoC 0.
Definition tensor3 (a b c : Vector) : Vector :=
  fun i => Cmul (a (i / 4)) (Cmul (b ((i / 2) mod 2)) (c (i mod 2))).

(** The normalised trace overlap of two density matrices, as the round-trip
    oracle of the source computes it:
    [|Tr(A B)| / (sqrt(Tr(A A)) * sqrt(Tr(B B)))]. *)
Definition trace_overlap (n : nat) (A B : Matrix) : R :=
  (Cabs (trace n (matmul n A B))
   / (sqrt (Cre (trace n (matmul n A A))) * sqrt (Cre (trace n (matmul n B B)))))%R.

(** The permutations of the basis indices performed by the two
    controlled-NOT gates that [cnot_gate] builds for three qubits. *)
Definition cnot_0_1 : Matrix := swap_rows 5 7 (swap_rows 1 3 eye).
Definition cnot_0_2 : Matrix := swap_rows 3 7 (swap_rows 1 5 eye).

(** The vector and the density matrix that [prepare_ghz_state 3] computes. *)
Definition prepared_vector : Vector :=
  matvec 8 cnot_0_2 (matvec 8 cnot_0_1 (matvec 8 (H_full 3) basis_zero)).
Definition prepared_state : Matrix := outer prepared_vector (vconj prepared_vector).

(** The classical component that [prg_expand PRG_SEED 8] computes. *)
Definition prg_output : list Z := [0; 1; 1; 0; 1; 1; 0; 1]%Z.

(** The density matrix of [plus_zero_zero], and its mixtures with the
    identity. *)
Definition prepared_density : Matrix := outer plus_zero_zero (vconj plus_zero_zero).
Definition mixture (a c : R) : Matrix :=
  madd (mscale (RtoC a) prepared_density) (mscale (RtoC c) eye).

(** The contract of [numpy.linalg.eigh] on an array [M]: the returned columns
    are orthonormal and complete, and each is an eigenvector of [M] for the
    eigenvalue of the same index. *)
Definition eigh_eigenpairs `{LinAlg} (M : Matrix) : Prop :=
  unitary 8 (snd (eigh M)) /\
  forall k, (k < 8)%nat ->
            vect_eq 8 (matvec 8 M (column (snd (eigh M)) k))
                      (vscale (RtoC (fst (eigh M) k)) (column (snd (eigh M)) k)).

(** That contract on the arrays which the closing morphism hands to [eigh]
    during the cycle: the mixtures [a |psi><psi| + c I] of the prepared pure
    state with the identity. *)
Definition eigh_mixture_law `{LinAlg} : Prop :=
  forall (a c : R) (M : Matrix), M =[8]= mixture a c -> eigh_eigenpairs M.

(** A call is rejected with the error that the specification names. *)
Definition rejected_as_mismatch {A : Type} (r : result A) : Prop :=
  r = Raise DimensionMismatch.

(** An orthonormal basis that contains [plus_zero_zero]: the columns are
    (e0 + e4)/sqrt 2, the basis vectors e1, e2, e3, then (e0 - e4)/sqrt 2 and
    e5, e6, e7. *)
Definition plus_basis : Matrix := fun i j =>
  match i, j with
  | 0, 0 | 4, 0 | 0, 4 => RtoC (1 / sqrt 2)
  | 4, 4 => RtoC (-1 / sqrt 2)
  | 0, _ | 4, _ | _, 0 | _, 4 => RtoC 0
  | _, _ => if (i =? j)%nat then RtoC 1 else RtoC 0
  end%nat.

(** A stand-in for the numerical library, used to show that the contracts
    assumed of it below can be met: [expm] returns the identity, [eigh]
    returns the basis [plus_basis] with the value of the quadratic form of its
    argument at each column, [eigvalsh] returns the spectrum 0,...,0,1. *)
Definition sample_linalg : LinAlg := {|
  expm := fun _ => eye;
  eigh := fun q =>
    (fun k => Cre (vdot 8 (column plus_basis k) (matvec 8 q (column plus_basis k))),
     plus_basis);
  eigvalsh := fun _ k => if (k =? 7)%nat then 1%R else 0%R
|}.

Definition sample_rng : Rng := {| rng_random := fun _ _ => 0%R |}.

(** A state whose classical component has two entries instead of eight, with
    the quantum component of the origin. *)
Definition short_classical_state : Shaped.State :=
  Shaped.new_state [1; 0]%Z (Shaped.Q (shaped initial_state)) ∅.

(** A state with eight classical bits whose quantum component is the 2 by 2
    density matrix of one qubit in the state 0. *)
Definition one_qubit_state : Shaped.State :=
  Shaped.new_state (replicate N_BITS 0%Z)
                   {| Shaped.dimension := 2;
                      Shaped.entries :=
                        fun i j => if ((i =? 0) && (j =? 0))%nat then RtoC 1 else RtoC 0 |}
                   ∅.

(** A stand-in for the eigenvalue routines on arrays of any dimension [d]:
    those of [sample_linalg], with the spectrum 0,...,0,1 of length [d]. *)
Definition sample_linalg_at : Shaped.LinAlgAt := {|
  Shaped.eigh_at := fun _ q => eigh (LinAlg := sample_linalg) q;
  Shaped.eigvalsh_at := fun d _ k => if (k =? d - 1)%nat then 1%R else 0%R
|}.

(* ===================================================================== *)
(** * Notions used by the properties of the single functions *)
(* ===================================================================== *)

(** The sequence [a, b, c, a, b, c, ...] of length [n]. *)
Fixpoint periodic3 (a b c : Z) (n : nat) : list Z :=
  match n with
  | O => []
  | S n' => a :: periodic3 b c a n'
  end.

(** [(C[i] + C[(i+1) % 8] + C[(i-1) % 8]) % 2], the entry [unmixed[i]] that
    [f_dyn_inv] computes from an eight-entry classical component. *)
Definition neighbour_parity (c : list Z) (i : nat) : Z :=
  ((item c i + item c ((i + 1) mod 8) + item c ((i + 7) mod 8)) mod 2)%Z.

(** The array whose row [r] is row [p r] of the identity. *)
Definition permutation_matrix (p : nat -> nat) : Matrix := fun r c => eye (p r) c.

(** The basis index [i] with bit [target] flipped when bit [control] is set. *)
Definition cnot_index (control target i : nat) : nat :=
  if Nat.testbit i control then Nat.lxor i (2 ^ target) else i.

(** The diagonal array with a 1 at the indices that [f] selects. *)
Definition diag_indicator (f : nat -> bool) : Matrix :=
  fun i j => if ((i =? j)%nat && f i)%bool then RtoC 1 else RtoC 0.

(** Bit [q] of the basis index [i] equals [o]. *)
Definition qubit_is (q o i : nat) : bool := ((i / 2 ^ q) mod 2 =? o)%nat.

(** The weight of a density matrix on the basis states with qubit 0 equal
    to 0: the even indices. *)
Definition even_weight (rho : Matrix) : R :=
  (Cre (rho 0 0)%nat + Cre (rho 2 2)%nat + Cre (rho 4 4)%nat + Cre (rho 6 6)%nat)%R.

(** The eigenvalue +1 or -1 of Pauli Z on bit [k] of the basis index [i]. *)
Definition spin (i k : nat) : R := if Nat.testbit i k then (-1)%R else 1%R.

(** J (s2 s1 + s1 s0): the energy of the basis state [i] in the chain of three
    spins. *)
Definition ising_energy (J : R) (i : nat) : R :=
  (J * (spin i 2 * spin i 1 + spin i 1 * spin i 0))%R.

(** The basis indices [i] and [j] differ in exactly one of the three bits. *)
Definition single_flip (i j : nat) : bool :=
  existsb (Nat.eqb (Nat.lxor i j)) [1; 2; 4]%nat.

(** The distance of a point from the origin, [np.sqrt(x**2 + y**2)]. *)
Definition radius (p : R * R) : R := sqrt (fst p ^ 2 + snd p ^ 2).

(** The point that [f_geom_inv] computes from a point of the annulus: the
    radius is rescaled linearly from [[a, 1]] to [[0, 1]] and clipped. *)
Definition disk_point_of (q : R * R) : R * R :=
  let '(x, y) := q in
  let r_annulus := sqrt (x ^ 2 + y ^ 2) in
  let theta := arctan2 y x in
  let a := A_PARAM in
  let r_disk := np_clip ((r_annulus - a) / (1 - a)) 0 1 in
  (r_disk * cos theta, r_disk * sin theta)%R.


(** The part of the contract of [numpy.linalg.eigvalsh] that the range of
    C_info relies on: the eigenvalues of a density matrix sum to its trace,
    which is 1. *)
Definition eigvalsh_trace_law `{LinAlg} : Prop :=
  forall q : Matrix, density_matrix 8 q -> Rsum (eigvalsh q) 8 = 1%R.

(* ===================================================================== *)
(** * Complex arithmetic *)
(* ===================================================================== *)

Lemma complex_eq (a b : complex) : fst a = fst b -> snd a = snd b -> a = b.
Proof. destruct a, b; simpl; intros; subst; reflexivity. Qed.

Ltac cx_unfold :=
  unfold Csub, Cadd, Cmul, Copp, Cconj, RtoC, Ci, Cre, Cim, Cnorm2 in *;
  cbn [fst snd] in *.
Ltac lca := apply complex_eq; cx_unfold; lra.

Lemma Cadd_comm (a b : complex) : Cadd a b = Cadd b a.
Proof. lca. Qed.
Lemma Cadd_assoc (a b c : complex) : Cadd a (Cadd b c) = Cadd (Cadd a b) c.
Proof. lca. Qed.
Lemma Cadd_0_l (a : complex) : Cadd (RtoC 0) a = a.
Proof. destruct a; lca. Qed.
Lemma Cadd_0_r (a : complex) : Cadd a (RtoC 0) = a.
Proof. destruct a; lca. Qed.
Lemma Cmul_comm (a b : complex) : Cmul a b = Cmul b a.
Proof. lca. Qed.
Lemma Cmul_assoc (a b c : complex) : Cmul a (Cmul b c) = Cmul (Cmul a b) c.
Proof. lca. Qed.
Lemma Cmul_0_l (a : complex) : Cmul (RtoC 0) a = RtoC 0.
Proof. lca. Qed.
Lemma Cmul_0_r (a : complex) : Cmul a (RtoC 0) = RtoC 0.
Proof. lca. Qed.
Lemma Cmul_1_l (a : complex) : Cmul (RtoC 1) a = a.
Proof. destruct a; lca. Qed.
Lemma Cmul_1_r (a : complex) : Cmul a (RtoC 1) = a.
Proof. destruct a; lca. Qed.
Lemma Cmul_add_distr_l (a b c : complex) : Cmul a (Cadd b c) = Cadd (Cmul a b) (Cmul a c).
Proof. lca. Qed.
Lemma Cmul_add_distr_r (a b c : complex) : Cmul (Cadd a b) c = Cadd (Cmul a c) (Cmul b c).
Proof. lca. Qed.
Lemma Cadd_opp_r (a : complex) : Cadd a (Copp a) = RtoC 0.
Proof. lca. Qed.
Lemma Cconj_add (a b : complex) : Cconj (Cadd a b) = Cadd (Cconj a) (Cconj b).
Proof. lca. Qed.
Lemma Cconj_mul (a b : complex) : Cconj (Cmul a b) = Cmul (Cconj a) (Cconj b).
Proof. lca. Qed.
Lemma Cconj_involutive (a : complex) : Cconj (Cconj a) = a.
Proof. destruct a; lca. Qed.
Lemma Cconj_RtoC (x : R) : Cconj (RtoC x) = RtoC x.
Proof. lca. Qed.
Lemma Cmul_conj_norm2 (a : complex) : Cmul (Cconj a) a = RtoC (Cnorm2 a).
Proof. lca. Qed.
Lemma Cnorm2_nonneg (a : complex) : (0 <= Cnorm2 a)%R.
Proof. unfold Cnorm2. nra. Qed.
Lemma Cnorm2_zero (a : complex) : Cnorm2 a = 0%R -> a = RtoC 0.
Proof.
  destruct a as [x y]. unfold Cnorm2, RtoC. cbn [fst snd]. intros Hn.
  assert (x = 0)%R by nra. assert (y = 0)%R by nra. subst. reflexivity.
Qed.
Lemma RtoC_add (x y : R) : RtoC (x + y) = Cadd (RtoC x) (RtoC y).
Proof. lca. Qed.
Lemma RtoC_mul (x y : R) : RtoC (x * y) = Cmul (RtoC x) (RtoC y).
Proof. lca. Qed.
Lemma RtoC_inj (x y : R) : RtoC x = RtoC y -> x = y.
Proof. unfold RtoC. intros Heq. injection Heq. auto. Qed.

Lemma complex_ring_theory :
  ring_theory (RtoC 0) (RtoC 1) Cadd Cmul Csub Copp (@eq complex).
Proof.
  constructor; intros; try reflexivity; lca.
Qed.

Add Ring complex_ring : complex_ring_theory.

Lemma sqrt2_sq : (sqrt 2 * sqrt 2 = 2)%R.
Proof. apply sqrt_sqrt. lra. Qed.
Lemma sqrt2_pos : (0 < sqrt 2)%R.
Proof. apply sqrt_lt_R0. lra. Qed.
Lemma inv_sqrt2_sq : (1 / sqrt 2 * (1 / sqrt 2) = 1 / 2)%R.
Proof.
  pose proof sqrt2_sq. pose proof sqrt2_pos.
  field_simplify; [ | lra]. replace (sqrt 2 ^ 2)%R with 2%R by (simpl; lra). lra.
Qed.

(* ===================================================================== *)
(** * Finite sums *)
(* ===================================================================== *)

Lemma Csum_ext (f g : nat -> complex) (n : nat) :
  (forall k, (k < n)%nat -> f k = g k) -> Csum f n = Csum g n.
Proof.
  induction n as [|n IH]; intros Hfg; simpl; [reflexivity|].
  rewrite IH by (intros; apply Hfg; lia). rewrite Hfg by lia. reflexivity.
Qed.

Lemma Csum_zero (n : nat) : Csum (fun _ => RtoC 0) n = RtoC 0.
Proof. induction n as [|n IH]; simpl; [reflexivity|]. rewrite IH. lca. Qed.

Lemma Csum_add (f g : nat -> complex) (n : nat) :
  Csum (fun k => Cadd (f k) (g k)) n = Cadd (Csum f n) (Csum g n).
Proof. induction n as [|n IH]; simpl; [lca|]. rewrite IH. ring. Qed.

Lemma Csum_scale_l (c : complex) (f : nat -> complex) (n : nat) :
  Csum (fun k => Cmul c (f k)) n = Cmul c (Csum f n).
Proof. induction n as [|n IH]; simpl; [lca|]. rewrite IH. ring. Qed.

Lemma Csum_scale_r (c : complex) (f : nat -> complex) (n : nat) :
  Csum (fun k => Cmul (f k) c) n = Cmul (Csum f n) c.
Proof. induction n as [|n IH]; simpl; [lca|]. rewrite IH. ring. Qed.

Lemma Csum_conj (f : nat -> complex) (n : nat) :
  Cconj (Csum f n) = Csum (fun k => Cconj (f k)) n.
Proof. induction n as [|n IH]; simpl; [lca|]. rewrite Cconj_add, IH. reflexivity. Qed.

Lemma Csum_swap (f : nat -> nat -> complex) (n m : nat) :
  Csum (fun i => Csum (fun j => f i j) m) n = Csum (fun j => Csum (fun i => f i j) n) m.
Proof.
  induction n as [|n IH]; simpl.
  - symmetry. apply Csum_zero.
  - rewrite IH, <- Csum_add. reflexivity.
Qed.

(** A sum against a row of the identity picks one term. *)
Lemma Csum_eye_l (a : nat) (f : nat -> complex) (n : nat) :
  (a < n)%nat -> Csum (fun k => Cmul (eye a k) (f k)) n = f a.
Proof.
  induction n as [|n IH]; intros Ha; [lia|]. simpl.
  destruct (decide (a = n)) as [->|Hne].
  - rewrite (Csum_ext _ (fun _ => RtoC 0)).
    + rewrite Csum_zero. unfold eye. rewrite Nat.eqb_refl. ring.
    + intros k Hk. unfold eye. destruct (Nat.eqb_spec n k); [lia|]. ring.
  - rewrite IH by lia. unfold eye. destruct (Nat.eqb_spec a n); [lia|]. ring.
Qed.

Lemma Csum_eye_r (a : nat) (f : nat -> complex) (n : nat) :
  (a < n)%nat -> Csum (fun k => Cmul (f k) (eye k a)) n = f a.
Proof.
  intros Ha. rewrite <- (Csum_eye_l a f n Ha). apply Csum_ext. intros k _.
  unfold eye. rewrite (Nat.eqb_sym k a). ring.
Qed.

Lemma Cre_Csum (f : nat -> complex) (n : nat) :
  Cre (Csum f n) = Rsum (fun k => Cre (f k)) n.
Proof. induction n as [|n IH]; simpl; [reflexivity|]. rewrite <- IH. reflexivity. Qed.

Lemma Rsum_nonneg (f : nat -> R) (n : nat) :
  (forall k, (k < n)%nat -> 0 <= f k)%R -> (0 <= Rsum f n)%R.
Proof.
  induction n as [|n IH]; intros Hf; simpl; [lra|].
  specialize (IH (fun k Hk => Hf k (Nat.lt_lt_succ_r _ _ Hk))).
  specialize (Hf n (Nat.lt_succ_diag_r n)). lra.
Qed.

Lemma Rsum_pos_term (f : nat -> R) (n i : nat) :
  (forall k, (k < n)%nat -> 0 <= f k)%R -> (i < n)%nat -> (f i <= Rsum f n)%R.
Proof.
  induction n as [|n IH]; intros Hf Hi; [lia|]. simpl.
  destruct (decide (i = n)) as [->|Hne].
  - pose proof (Rsum_nonneg f n (fun k Hk => Hf k (Nat.lt_lt_succ_r _ _ Hk))). lra.
  - specialize (IH (fun k Hk => Hf k (Nat.lt_lt_succ_r _ _ Hk)) ltac:(lia)).
    specialize (Hf n (Nat.lt_succ_diag_r n)). lra.
Qed.

(* ===================================================================== *)
(** * Array algebra *)
(* ===================================================================== *)

Section ArrayAlgebra.
Variable n : nat.

#[global] Instance mat_eq_equivalence : Equivalence (mat_eq n).
Proof.
  split.
  - intros A i j _ _. reflexivity.
  - intros A B HAB i j Hi Hj. symmetry. apply HAB; assumption.
  - intros A B D HAB HBD i j Hi Hj. rewrite HAB, HBD by assumption. reflexivity.
Qed.

#[global] Instance vect_eq_equivalence : Equivalence (vect_eq n).
Proof.
  split.
  - intros u i _. reflexivity.
  - intros u v Huv i Hi. symmetry. apply Huv; assumption.
  - intros u v w Huv Hvw i Hi. rewrite Huv, Hvw by assumption. reflexivity.
Qed.

#[global] Instance matmul_proper :
  Proper (mat_eq n ==> mat_eq n ==> mat_eq n) (matmul n).
Proof.
  intros A A' HA B B' HB i j Hi Hj. unfold matmul. apply Csum_ext.
  intros k Hk. rewrite HA, HB by assumption. reflexivity.
Qed.

#[global] Instance madd_proper : Proper (mat_eq n ==> mat_eq n ==> mat_eq n) madd.
Proof.
  intros A A' HA B B' HB i j Hi Hj. unfold madd.
  rewrite HA, HB by assumption. reflexivity.
Qed.

#[global] Instance mscale_proper c : Proper (mat_eq n ==> mat_eq n) (mscale c).
Proof. intros A A' HA i j Hi Hj. unfold mscale. rewrite HA by assumption. reflexivity. Qed.

#[global] Instance adjoint_proper : Proper (mat_eq n ==> mat_eq n) adjoint.
Proof. intros A A' HA i j Hi Hj. unfold adjoint. rewrite HA by assumption. reflexivity. Qed.

#[global] Instance trace_proper : Proper (mat_eq n ==> eq) (trace n).
Proof. intros A A' HA. unfold trace. apply Csum_ext. intros k Hk. apply HA; assumption. Qed.

#[global] Instance matvec_proper : Proper (mat_eq n ==> vect_eq n ==> vect_eq n) (matvec n).
Proof.
  intros A A' HA u v Huv i Hi. unfold matvec. apply Csum_ext.
  intros k Hk. rewrite HA, Huv by assumption. reflexivity.
Qed.

#[global] Instance vdot_proper : Proper (vect_eq n ==> vect_eq n ==> eq) (vdot n).
Proof.
  intros u u' Hu v v' Hv. unfold vdot. apply Csum_ext.
  intros k Hk. rewrite Hu, Hv by assumption. reflexivity.
Qed.

#[global] Instance outer_proper : Proper (vect_eq n ==> vect_eq n ==> mat_eq n) outer.
Proof.
  intros u u' Hu v v' Hv i j Hi Hj. unfold outer. rewrite Hu, Hv by assumption.
  reflexivity.
Qed.

#[global] Instance vconj_proper : Proper (vect_eq n ==> vect_eq n) vconj.
Proof. intros u u' Hu i Hi. unfold vconj. rewrite Hu by assumption. reflexivity. Qed.

Lemma matmul_assoc (A B D : Matrix) (i j : nat) :
  matmul n (matmul n A B) D i j = matmul n A (matmul n B D) i j.
Proof.
  unfold matmul.
  rewrite (Csum_ext _ (fun k => Csum (fun l => Cmul (Cmul (A i l) (B l k)) (D k j)) n))
    by (intros; rewrite Csum_scale_r; reflexivity).
  rewrite Csum_swap. apply Csum_ext. intros l _.
  rewrite <- Csum_scale_l. apply Csum_ext. intros k _. ring.
Qed.

Lemma matmul_assoc_eq (A B D : Matrix) :
  matmul n (matmul n A B) D =[n]= matmul n A (matmul n B D).
Proof. intros i j _ _. apply matmul_assoc. Qed.

Lemma matmul_eye_l (A : Matrix) : matmul n eye A =[n]= A.
Proof. intros i j Hi Hj. unfold matmul. apply (Csum_eye_l i (fun k => A k j)); assumption. Qed.

Lemma matmul_eye_r (A : Matrix) : matmul n A eye =[n]= A.
Proof. intros i j Hi Hj. unfold matmul. apply (Csum_eye_r j (fun k => A i k)); assumption. Qed.

Lemma adjoint_matmul (A B : Matrix) (i j : nat) :
  adjoint (matmul n A B) i j = matmul n (adjoint B) (adjoint A) i j.
Proof.
  unfold adjoint, matmul. rewrite Csum_conj. apply Csum_ext. intros k _.
  rewrite Cconj_mul. ring.
Qed.

Lemma adjoint_matmul_eq (A B : Matrix) :
  adjoint (matmul n A B) =[n]= matmul n (adjoint B) (adjoint A).
Proof. intros i j _ _. apply adjoint_matmul. Qed.

Lemma adjoint_involutive (A : Matrix) (i j : nat) : adjoint (adjoint A) i j = A i j.
Proof. unfold adjoint. apply Cconj_involutive. Qed.

Lemma adjoint_eye : adjoint eye =[n]= eye.
Proof.
  intros i j _ _. unfold adjoint, eye. rewrite (Nat.eqb_sym j i).
  destruct (i =? j)%nat; lca.
Qed.

Lemma trace_matmul_comm (A B : Matrix) :
  trace n (matmul n A B) = trace n (matmul n B A).
Proof.
  unfold trace, matmul. rewrite Csum_swap. apply Csum_ext. intros k _.
  apply Csum_ext. intros l _. ring.
Qed.

Lemma trace_madd (A B : Matrix) : trace n (madd A B) = Cadd (trace n A) (trace n B).
Proof. unfold trace, madd. apply Csum_add. Qed.

Lemma trace_mscale (c : complex) (A : Matrix) : trace n (mscale c A) = Cmul c (trace n A).
Proof. unfold trace, mscale. apply Csum_scale_l. Qed.

Lemma matvec_matmul (A B : Matrix) (v : Vector) (i : nat) :
  matvec n (matmul n A B) v i = matvec n A (matvec n B v) i.
Proof.
  unfold matvec, matmul.
  rewrite (Csum_ext _ (fun k => Csum (fun l => Cmul (Cmul (A i l) (B l k)) (v k)) n))
    by (intros; rewrite Csum_scale_r; reflexivity).
  rewrite Csum_swap. apply Csum_ext. intros l _.
  rewrite <- Csum_scale_l. apply Csum_ext. intros k _. ring.
Qed.

Lemma matvec_eye (v : Vector) : vect_eq n (matvec n eye v) v.
Proof. intros i Hi. unfold matvec. apply Csum_eye_l. assumption. Qed.

(** [<u, A v> = <A^dagger u, v>]. *)
Lemma vdot_matvec_adjoint (A : Matrix) (u v : Vector) :
  vdot n u (matvec n A v) = vdot n (matvec n (adjoint A) u) v.
Proof.
  unfold vdot, matvec, adjoint.
  rewrite (Csum_ext _ (fun k => Csum (fun l => Cmul (Cmul (Cconj (u k)) (A k l)) (v l)) n)).
  2:{ intros k _. rewrite <- Csum_scale_l. apply Csum_ext. intros l _. ring. }
  rewrite Csum_swap. apply Csum_ext. intros l _.
  rewrite Csum_conj, <- Csum_scale_r. apply Csum_ext. intros k _.
  rewrite Cconj_mul, Cconj_involutive. ring.
Qed.

Lemma vdot_self (v : Vector) : vdot n v v = RtoC (Rsum (fun k => Cnorm2 (v k)) n).
Proof.
  unfold vdot. induction n as [|m IH]; simpl; [reflexivity|].
  rewrite IH, Cmul_conj_norm2. lca.
Qed.

Lemma vdot_self_nonneg (v : Vector) : (0 <= Cre (vdot n v v))%R.
Proof.
  rewrite vdot_self. simpl. apply Rsum_nonneg. intros. apply Cnorm2_nonneg.
Qed.

Lemma vdot_scale_r (c : complex) (u v : Vector) :
  vdot n u (vscale c v) = Cmul c (vdot n u v).
Proof.
  unfold vdot, vscale. rewrite <- Csum_scale_l. apply Csum_ext. intros k _. ring.
Qed.

Lemma vdot_add_r (u v w : Vector) :
  vdot n u (fun k => Cadd (v k) (w k)) = Cadd (vdot n u v) (vdot n u w).
Proof.
  unfold vdot. rewrite <- Csum_add. apply Csum_ext. intros k _. ring.
Qed.

Lemma matvec_madd (A B : Matrix) (v : Vector) (i : nat) :
  matvec n (madd A B) v i = Cadd (matvec n A v i) (matvec n B v i).
Proof.
  unfold matvec, madd. rewrite <- Csum_add. apply Csum_ext. intros k _. ring.
Qed.

Lemma matvec_mscale (c : complex) (A : Matrix) (v : Vector) (i : nat) :
  matvec n (mscale c A) v i = Cmul c (matvec n A v i).
Proof.
  unfold matvec, mscale. rewrite <- Csum_scale_l. apply Csum_ext. intros k _. ring.
Qed.

(** [|psi><psi|] applied to [v] is [<psi, v> psi]. *)
Lemma matvec_outer (psi v : Vector) (i : nat) :
  matvec n (outer psi (vconj psi)) v i = Cmul (vdot n psi v) (psi i).
Proof.
  unfold matvec, outer, vconj, vdot. rewrite Cmul_comm, <- Csum_scale_l.
  apply Csum_ext. intros k _. ring.
Qed.

Lemma trace_outer (psi : Vector) : trace n (outer psi (vconj psi)) = vdot n psi psi.
Proof. unfold trace, outer, vconj, vdot. apply Csum_ext. intros k _. ring. Qed.

Lemma outer_hermitian (psi : Vector) : Hermitian n (outer psi (vconj psi)).
Proof.
  intros i j _ _. unfold adjoint, outer, vconj. rewrite Cconj_mul, Cconj_involutive. ring.
Qed.

Lemma outer_psd (psi : Vector) : positive_semidefinite n (outer psi (vconj psi)).
Proof.
  intros v.
  rewrite (vdot_proper v v (reflexivity _) _ (vscale (vdot n psi v) psi)
             (fun i _ => matvec_outer psi v i)).
  rewrite vdot_scale_r.
  replace (vdot n v psi) with (Cconj (vdot n psi v)).
  - rewrite Cmul_comm, Cmul_conj_norm2. simpl. apply Cnorm2_nonneg.
  - unfold vdot. rewrite Csum_conj. apply Csum_ext. intros k _.
    rewrite Cconj_mul, Cconj_involutive. ring.
Qed.
End ArrayAlgebra.

(* ===================================================================== *)
(** * The classical primitives *)
(* ===================================================================== *)

Lemma prg_expand_seed : prg_expand PRG_SEED N_BITS = Ok prg_output.
Proof. vm_compute. reflexivity. Qed.

(** C5.  The bit-mixing transform of f_dyn is not a bijection of the 8-bit
    vectors: the two distinct inputs 10100000 and 01100000 (bit 0 first, the
    integers 5 and 6) are both sent to 10010001 (the integer 137).  Each round
    XORs the value with its own 4-bit rotation, which makes its two halves
    equal, so a round keeps 4 bits of the running value. *)
Theorem arnold_cat_map_bits_collision :
  [1; 0; 1; 0; 0; 0; 0; 0]%Z <> [0; 1; 1; 0; 0; 0; 0; 0]%Z /\
  arnold_cat_map_bits [1; 0; 1; 0; 0; 0; 0; 0]%Z = [1; 0; 0; 1; 0; 0; 0; 1]%Z /\
  arnold_cat_map_bits [0; 1; 1; 0; 0; 0; 0; 0]%Z = [1; 0; 0; 1; 0; 0; 0; 1]%Z.
Proof.
  split; [discriminate|]. split; vm_compute; reflexivity.
Qed.

(** The transform reaches 176 of the 256 vectors. *)
Lemma arnold_cat_int_image_size :
  length (remove_dups (map (fun k => arnold_cat_int (Z.of_nat k)) (seq 0 256))) = 176%nat.
Proof. vm_compute. reflexivity. Qed.

(* ===================================================================== *)
(** * State preparation *)
(* ===================================================================== *)

Lemma cnot_gate_0_1 : cnot_gate 3 0 1 = Ok cnot_0_1.
Proof. cbn. reflexivity. Qed.

Lemma cnot_gate_0_2 : cnot_gate 3 0 2 = Ok cnot_0_2.
Proof. cbn. reflexivity. Qed.

Lemma prepare_ghz_state_3 : prepare_ghz_state 3 = Ok prepared_state.
Proof. cbn. reflexivity. Qed.

Lemma matvec_swap_rows (n a b : nat) (U : Matrix) (v : Vector) (r : nat) :
  matvec n (swap_rows a b U) v r =
  if (r =? a)%nat then matvec n U v b
  else if (r =? b)%nat then matvec n U v a else matvec n U v r.
Proof.
  unfold matvec, swap_rows. destruct (r =? a)%nat; [reflexivity|].
  destruct (r =? b)%nat; reflexivity.
Qed.

(** The gate with control 0 and target 1 exchanges the entries 1 and 3, and
    the entries 5 and 7, of a vector. *)
Lemma matvec_cnot_0_1 (v : Vector) (i : nat) :
  (i < 8)%nat ->
  matvec 8 cnot_0_1 v i =
  v (match i with 1 => 3 | 3 => 1 | 5 => 7 | 7 => 5 | _ => i end)%nat.
Proof.
  intros Hi. unfold cnot_0_1. rewrite !matvec_swap_rows.
  do 8 (destruct i as [|i]; [cbn [Nat.eqb]; apply matvec_eye; lia|]). lia.
Qed.

Lemma matvec_cnot_0_2 (v : Vector) (i : nat) :
  (i < 8)%nat ->
  matvec 8 cnot_0_2 v i =
  v (match i with 1 => 5 | 5 => 1 | 3 => 7 | 7 => 3 | _ => i end)%nat.
Proof.
  intros Hi. unfold cnot_0_2. rewrite !matvec_swap_rows.
  do 8 (destruct i as [|i]; [cbn [Nat.eqb]; apply matvec_eye; lia|]). lia.
Qed.

Lemma matvec_basis_zero (n : nat) (A : Matrix) (i : nat) :
  (0 < n)%nat -> matvec n A basis_zero i = A i 0%nat.
Proof.
  intros Hn. unfold matvec. apply (Csum_eye_r 0 (fun k => A i k) n Hn).
Qed.

(** The Hadamard gate of the source acts on the most significant index bit:
    applied to the all-zero basis vector it populates the indices 0 and 4. *)
Lemma H_full_basis_zero : vect_eq 8 (matvec 8 (H_full 3) basis_zero) plus_zero_zero.
Proof.
  intros i Hi. rewrite matvec_basis_zero by lia.
  do 8 (destruct i as [|i]; [cbv [H_full kron hadamard eye plus_zero_zero]; cbn; lca|]).
  lia.
Qed.

(** The two controlled-NOT gates take their control from the least significant
    index bit, which is 0 at both populated indices: they change nothing. *)
Lemma prepared_vector_entries : vect_eq 8 prepared_vector plus_zero_zero.
Proof.
  intros i Hi. unfold prepared_vector.
  rewrite matvec_cnot_0_2 by assumption.
  rewrite matvec_cnot_0_1 by (do 8 (destruct i as [|i]; [lia|]); lia).
  rewrite H_full_basis_zero by (do 8 (destruct i as [|i]; [lia|]); lia).
  do 8 (destruct i as [|i]; [reflexivity|]). lia.
Qed.

Lemma prepared_state_entries :
  prepared_state =[8]= outer plus_zero_zero (vconj plus_zero_zero).
Proof.
  unfold prepared_state. rewrite prepared_vector_entries. reflexivity.
Qed.

(** C2.  [prepare_ghz_state 3] does not return the GHZ state.  Its Hadamard
    acts on the most significant bit of the basis index and its controlled-NOT
    gates are controlled by the least significant bit, so the gates find their
    control at 0 and the result is the density matrix of
    (|000> + |100>)/sqrt 2.  This vector is the tensor product of the one-qubit
    vectors (|0> + |1>)/sqrt 2, |0> and |0>: a product state, not an entangled
    one.  The entry (7,7) is 0 where the GHZ density matrix has 1/2. *)
Theorem prepare_ghz_state_is_product :
  prepare_ghz_state 3 = Ok prepared_state /\
  prepared_state =[8]= outer plus_zero_zero (vconj plus_zero_zero) /\
  vect_eq 8 plus_zero_zero (tensor3 qubit_plus qubit_zero qubit_zero) /\
  prepared_state 7%nat 7%nat = RtoC 0 /\
  ghz_density 7%nat 7%nat = RtoC (1 / 2) /\
  ~ prepared_state =[8]= ghz_density.
Proof.
  assert (H77 : prepared_state 7%nat 7%nat = RtoC 0).
  { rewrite prepared_state_entries by lia.
    cbv [outer vconj plus_zero_zero]. cbn. lca. }
  assert (G77 : ghz_density 7%nat 7%nat = RtoC (1 / 2)).
  { cbv [ghz_density outer vconj ghz_vector]. cbn.
    apply complex_eq; cx_unfold; [|lra]. rewrite inv_sqrt2_sq. lra. }
  split; [apply prepare_ghz_state_3|]. split; [apply prepared_state_entries|].
  split.
  { intros i Hi.
    do 8 (destruct i as [|i];
          [cbv [plus_zero_zero tensor3 qubit_plus qubit_zero]; cbn; lca|]). lia. }
  split; [exact H77|]. split; [exact G77|].
  intros Heq. specialize (Heq 7%nat 7%nat ltac:(lia) ltac:(lia)).
  rewrite H77, G77 in Heq. apply RtoC_inj in Heq. lra.
Qed.

(* ===================================================================== *)
(** * f_alg *)
(* ===================================================================== *)

Lemma morphism_1_value (state : SystemState) :
  morphism_1_circuit_compilation state =
  Ok (new_state prg_output prepared_state (morphisms_applied state ∪ {["f_alg"%string]})).
Proof.
  unfold morphism_1_circuit_compilation.
  rewrite prg_expand_seed. change N_QUBITS with 3%nat. rewrite prepare_ghz_state_3.
  reflexivity.
Qed.

(** C10.  f_alg reads nothing of its input but the provenance labels: on any
    two input states it returns states with the same classical component (the
    expansion 01101101 of the seed 0110), the same quantum component (the
    prepared pure state) and no point cloud; only the label sets, each the
    input's labels with "f_alg" added, can differ. *)
Theorem morphism_1_ignores_input (s1 s2 : SystemState) :
  exists s1' s2',
    morphism_1_circuit_compilation s1 = Ok s1' /\
    morphism_1_circuit_compilation s2 = Ok s2' /\
    C s1' = prg_output /\ C s2' = prg_output /\
    Q s1' = prepared_state /\ Q s2' = prepared_state /\
    _points s1' = None /\ _points s2' = None /\
    morphisms_applied s1' = morphisms_applied s1 ∪ {["f_alg"%string]} /\
    morphisms_applied s2' = morphisms_applied s2 ∪ {["f_alg"%string]}.
Proof.
  eexists; eexists. rewrite !morphism_1_value.
  repeat split; reflexivity.
Qed.

(* ===================================================================== *)
(** * Pillars *)
(* ===================================================================== *)

Lemma np_clip_range (x : R) : (0 <= np_clip x 0 1 <= 1)%R.
Proof.
  unfold np_clip, Rmin, Rmax.
  destruct (Rle_dec x 0); destruct (Rle_dec _ 1); lra.
Qed.

Lemma np_div_nonzero (x y : R) : y <> 0%R -> np_div x y = Some (x / y)%R.
Proof. intros Hy. unfold np_div. destruct (decide (y = 0%R)); [contradiction|reflexivity]. Qed.

Lemma np_div_zero (x : R) : np_div x 0 = None.
Proof. unfold np_div. destruct (decide (0%R = 0%R)); [reflexivity|contradiction]. Qed.

(** The bit-mixing score of a classical component of length 8 is a number
    between 0 and 1. *)
Lemma bit_mixing_score_defined (bits : list Z) :
  length bits = N_BITS ->
  exists x, compute_bit_mixing_score bits = Some x /\ (0 <= x <= 1)%R.
Proof.
  intros Hlen. unfold compute_bit_mixing_score. rewrite Hlen.
  change (Z.of_nat N_BITS - 1)%Z with 7%Z.
  assert (H8 : INR N_BITS <> 0%R) by (unfold N_BITS; simpl; lra).
  rewrite !np_div_nonzero by (try exact H8; lra).
  cbn [mbind option_bind]. eexists. split; [reflexivity|]. apply np_clip_range.
Qed.

(** C6.  C_dyn does not read the provenance labels: for a state with an 8-bit
    classical component, any quantum component and any (or no) point cloud,
    the value computed with a label set [tags] is the value computed with the
    empty label set; both are the same number, so they differ by less than
    1e-9. *)
Theorem compute_C_dyn_ignores_tags `{LinAlg} (c : list Z) (q : Matrix)
        (pts : option (list (R * R))) (tags : gset string) :
  length c = N_BITS ->
  exists x y,
    compute_C_dyn {| C := c; Q := q; morphisms_applied := tags; _points := pts |}
    = Ok (Some x) /\
    compute_C_dyn {| C := c; Q := q; morphisms_applied := ∅; _points := pts |}
    = Ok (Some y) /\
    x = y /\ (Rabs (x - y) < / 10 ^ 9)%R.
Proof.
  intros Hlen. destruct (bit_mixing_score_defined c Hlen) as [m [Hm _]].
  unfold compute_C_dyn. cbn [C Q]. rewrite Hm. cbn [mbind option_bind].
  eexists; eexists. split; [reflexivity|]. split; [reflexivity|].
  split; [reflexivity|].
  rewrite Rminus_diag, Rabs_R0. apply Rinv_0_lt_compat. apply pow_lt. lra.
Qed.

Lemma compute_C_dyn_ignores_tags_witness :
  exists x y,
    compute_C_dyn (H := sample_linalg)
      {| C := [0; 1; 1; 0; 1; 1; 0; 1]%Z; Q := prepared_state;
         morphisms_applied := {["f_alg"%string]}; _points := None |} = Ok (Some x) /\
    compute_C_dyn (H := sample_linalg)
      {| C := [0; 1; 1; 0; 1; 1; 0; 1]%Z; Q := prepared_state;
         morphisms_applied := ∅; _points := None |} = Ok (Some y) /\
    x = y /\ (Rabs (x - y) < / 10 ^ 9)%R.
Proof.
  apply (@compute_C_dyn_ignores_tags sample_linalg). reflexivity.
Defined.

(* ===================================================================== *)
(** * The central-void score *)
(* ===================================================================== *)

Lemma expected_frac_nonzero : ((8 / 10 * A_PARAM) ^ 2 <> 0)%R.
Proof. unfold A_PARAM. lra. Qed.

(** C9, the empty cloud.  The guard of [central_void_score] covers a zero
    detection radius only.  For an empty point cloud the observed fraction
    [np.mean(r <= r_0)] is 0/0, and the score is NaN. *)
Theorem central_void_score_empty_is_nan :
  central_void_score [] A_PARAM (8 / 10) = None.
Proof.
  unfold central_void_score.
  destruct (decide ((8 / 10 * A_PARAM) ^ 2 = 0)%R) as [Hz|_].
  - exfalso. exact (expected_frac_nonzero Hz).
  - unfold fraction_within. cbn [map List.filter length INR]. rewrite np_div_zero.
    reflexivity.
Qed.

(** C9, the other half: every non-empty cloud, in particular one whose points
    are all the same, has a score that is a number between 0 and 1. *)
Lemma central_void_score_nonempty (points : list (R * R)) :
  points <> [] ->
  exists x, central_void_score points A_PARAM (8 / 10) = Some x /\ (0 <= x <= 1)%R.
Proof.
  intros Hne. unfold central_void_score.
  destruct (decide ((8 / 10 * A_PARAM) ^ 2 = 0)%R) as [Hz|_].
  - exfalso. exact (expected_frac_nonzero Hz).
  - unfold fraction_within. rewrite np_div_nonzero.
    + cbn [mbind option_bind]. eexists. split; [reflexivity|]. apply np_clip_range.
    + rewrite length_map. apply not_0_INR. destruct points; [contradiction|].
      simpl. lia.
Qed.

(* ===================================================================== *)
(** * The range of C_alg *)
(* ===================================================================== *)

Ltac rcompute :=
  cbv -[Rplus Rmult Rminus Ropp Rdiv Rinv sqrt IZR INR PI ln Rabs Rmin Rmax cos sin atan
        exp Rle Rlt Rge Rgt].

Lemma eps12_pos : (0 < eps12 < 1)%R.
Proof.
  unfold eps12. split.
  - apply Rinv_0_lt_compat. apply pow_lt. lra.
  - rewrite <- Rinv_1. apply Rinv_lt_contravar; [|]; simpl; lra.
Qed.

Lemma initial_state_purity :
  Cre (trace DIM_HILBERT (matmul DIM_HILBERT (Q initial_state) (Q initial_state))) = 1%R.
Proof. rcompute. lra. Qed.

Lemma select_above_origin (w : nat -> R) :
  (forall k, (k < 8)%nat -> w k = if (k =? 7)%nat then 1%R else 0%R) ->
  select_above eps12 w DIM_HILBERT = [1%R].
Proof.
  intros Hw. pose proof eps12_pos as Heps.
  unfold select_above. change DIM_HILBERT with 8%nat. cbn [seq map].
  rewrite !Hw by lia. cbn [Nat.eqb List.filter].
  rewrite (bool_decide_eq_false_2 (eps12 < 0)%R) by lra.
  rewrite (bool_decide_eq_true_2 (eps12 < 1)%R) by lra.
  reflexivity.
Qed.

Lemma log2_above_one (x : R) : (1 < x)%R -> (0 < log2 x)%R.
Proof.
  intros Hx. unfold log2. apply Rdiv_lt_0_compat.
  - rewrite <- ln_1. apply ln_increasing; lra.
  - rewrite <- ln_1. apply ln_increasing; lra.
Qed.

(** C4.  C_alg leaves the interval [0,1] at the origin state.  The spectrum
    of |000><000| is 0 (seven times) and 1, its purity is 1 and its classical
    component has no one and no transition, so C_alg reduces to
    0.7 * 0.5 * (-(1 * log2(1 + 1e-12)) / 3), a negative number: the 1e-12
    added inside the logarithm makes the entropy term of a pure state
    negative, and the result is not clipped. *)
Theorem compute_C_alg_origin_negative `{LinAlg} :
  (forall k, (k < 8)%nat ->
             eigvalsh (Q initial_state) k = if (k =? 7)%nat then 1%R else 0%R) ->
  exists x, compute_C_alg initial_state = Ok (Some x) /\ (x < 0)%R.
Proof.
  intros Hw. pose proof eps12_pos as Heps.
  pose proof (log2_above_one (1 + eps12) ltac:(lra)) as Hlog.
  unfold compute_C_alg, circuit_depth_proxy.
  rewrite initial_state_purity, (select_above_origin _ Hw).
  replace (np_sum_Z (C initial_state)) with 0%Z by (vm_compute; reflexivity).
  replace (transitions_of (C initial_state)) with 0%Z by (vm_compute; reflexivity).
  rewrite np_div_nonzero by (cbn; lra).
  cbn [mbind option_bind]. eexists. split; [reflexivity|].
  cbn -[log2 eps12 Rplus Rmult Rminus Ropp Rdiv Rinv IZR]. lra.
Qed.

Lemma compute_C_alg_origin_negative_witness :
  exists x, compute_C_alg (H := sample_linalg) initial_state = Ok (Some x) /\ (x < 0)%R.
Proof.
  apply (@compute_C_alg_origin_negative sample_linalg).
  intros k Hk. reflexivity.
Defined.

(* ===================================================================== *)
(** * Rewriting with entry-wise equality *)
(* ===================================================================== *)

Lemma mat_eq_intro (n : nat) (A B : Matrix) :
  (forall i j, (i < n)%nat -> (j < n)%nat -> A i j = B i j) -> A =[n]= B.
Proof. intros HAB. exact HAB. Qed.

Lemma mat_eq_entry (n : nat) (A B : Matrix) (i j : nat) :
  A =[n]= B -> (i < n)%nat -> (j < n)%nat -> A i j = B i j.
Proof. intros HAB. apply HAB. Qed.

Lemma vect_eq_intro (n : nat) (u v : Vector) :
  (forall i, (i < n)%nat -> u i = v i) -> vect_eq n u v.
Proof. intros Huv. exact Huv. Qed.

Lemma vect_eq_entry (n : nat) (u v : Vector) (i : nat) :
  vect_eq n u v -> (i < n)%nat -> u i = v i.
Proof. intros Huv. apply Huv. Qed.

(** From here on the two relations are only rewritten with, as relations. *)
#[global] Opaque mat_eq vect_eq.

(* ===================================================================== *)
(** * The Floquet evolution and its inverse *)
(* ===================================================================== *)

#[global] Instance matrix_power_proper (n k : nat) :
  Proper (mat_eq n ==> mat_eq n) (fun A => matrix_power n A k).
Proof.
  intros A B HAB. induction k as [|k IH]; simpl; [reflexivity|].
  apply matmul_proper; assumption.
Qed.

Lemma matrix_power_comm (n : nat) (A : Matrix) (k : nat) :
  matmul n A (matrix_power n A k) =[n]= matmul n (matrix_power n A k) A.
Proof.
  induction k as [|k IH]; simpl.
  - rewrite matmul_eye_l, matmul_eye_r. reflexivity.
  - rewrite IH at 1. rewrite matmul_assoc_eq. reflexivity.
Qed.

(** If [D] is a left inverse of [F], so is each power of [D] for the same
    power of [F]. *)
Lemma matrix_power_inverse (n : nat) (D F : Matrix) (k : nat) :
  matmul n D F =[n]= eye ->
  matmul n (matrix_power n D k) (matrix_power n F k) =[n]= eye.
Proof.
  intros HDF. induction k as [|k IH]; simpl.
  - apply matmul_eye_l.
  - rewrite (matrix_power_comm n D k).
    rewrite matmul_assoc_eq, <- (matmul_assoc_eq n D F).
    rewrite HDF, matmul_eye_l. exact IH.
Qed.

(** Conjugating by [U] and then by a left inverse [V] of [U] restores the
    array. *)
Lemma conjugation_undone (n : nat) (U V rho : Matrix) :
  matmul n V U =[n]= eye ->
  matmul n (matmul n V (matmul n (matmul n U rho) (adjoint U))) (adjoint V) =[n]= rho.
Proof.
  intros HVU.
  assert (Hadj : matmul n (adjoint U) (adjoint V) =[n]= eye).
  { rewrite <- adjoint_matmul_eq, HVU. apply adjoint_eye. }
  rewrite !matmul_assoc_eq. rewrite Hadj, matmul_eye_r.
  rewrite <- matmul_assoc_eq, HVU, matmul_eye_l. reflexivity.
Qed.

Section FloquetInverse.
Context `{LinAlg}.

Lemma floquet_step_inverse (G1 G2 : Matrix) (t : R) :
  expm_inverse_law ->
  matmul 8 (matmul 8 (expm (scaled_generator Ci G2 t)) (expm (scaled_generator Ci G1 t)))
           (matmul 8 (expm (scaled_generator (Copp Ci) G1 t))
                     (expm (scaled_generator (Copp Ci) G2 t)))
  =[8]= eye.
Proof.
  intros Hlaw.
  rewrite matmul_assoc_eq, <- (matmul_assoc_eq 8 (expm (scaled_generator Ci G1 t))).
  rewrite (Hlaw G1 t), matmul_eye_l. apply Hlaw.
Qed.

(** C7.  The quantum part of [f_dyn_inv] undoes the quantum part of f_dyn
    exactly: for every quantum component Q (a density matrix or not),
    applying f_dyn and then [f_dyn_inv] returns a state whose quantum
    component equals Q entry by entry.  The inverse conjugates by the fifth
    power of [exp(i H_kick tau) exp(i H_ising tau)], which is the inverse of
    the fifth power of [exp(-i H_ising tau) exp(-i H_kick tau)] as soon as
    [exp(i G tau)] inverts [exp(-i G tau)]. *)
Theorem f_dyn_inv_restores_quantum (state : SystemState) :
  expm_inverse_law ->
  exists X_3 X_2_back,
    morphism_3_arnold_cat state = Ok X_3 /\
    f_dyn_inv X_3 = Ok X_2_back /\
    Q X_2_back =[8]= Q state.
Proof.
  intros Hlaw. eexists; eexists. split; [reflexivity|]. split; [reflexivity|].
  cbn [Q new_state]. unfold kicked_ising_evolution.
  change DIM_HILBERT with 8%nat. change (2 ^ N_QUBITS)%nat with 8%nat.
  apply conjugation_undone. apply matrix_power_inverse.
  apply floquet_step_inverse. exact Hlaw.
Qed.
End FloquetInverse.

Lemma sample_expm_inverse_law : @expm_inverse_law sample_linalg.
Proof. intros G t. cbn [expm sample_linalg]. apply matmul_eye_l. Qed.

Lemma f_dyn_inv_restores_quantum_witness :
  exists X_3 X_2_back,
    morphism_3_arnold_cat (H := sample_linalg) initial_state = Ok X_3 /\
    f_dyn_inv (H := sample_linalg) X_3 = Ok X_2_back /\
    Q X_2_back =[8]= Q initial_state.
Proof.
  apply (@f_dyn_inv_restores_quantum sample_linalg initial_state).
  exact sample_expm_inverse_law.
Defined.

(* ===================================================================== *)
(** * Hermitian, positive and unitary arrays *)
(* ===================================================================== *)

Section Validity.
Variable n : nat.

#[global] Instance Hermitian_proper : Proper (mat_eq n ==> iff) (Hermitian n).
Proof.
intros A B HAB. unfold Hermitian. rewrite HAB. reflexivity.
Qed.

#[global] Instance positive_semidefinite_proper :
  Proper (mat_eq n ==> iff) (positive_semidefinite n).
Proof.
intros A B HAB. unfold positive_semidefinite.
split; intros HA v; specialize (HA v).
- rewrite <- HAB. exact HA.
- rewrite HAB. exact HA.
Qed.

#[global] Instance unit_trace_proper : Proper (mat_eq n ==> iff) (unit_trace n).
Proof. intros A B HAB. unfold unit_trace. rewrite HAB. reflexivity. Qed.

#[global] Instance density_matrix_proper : Proper (mat_eq n ==> iff) (density_matrix n).
Proof. intros A B HAB. unfold density_matrix. rewrite HAB. reflexivity. Qed.

Lemma adjoint_involutive_eq (A : Matrix) : adjoint (adjoint A) =[n]= A.
Proof. apply mat_eq_intro. intros i j _ _. apply adjoint_involutive. Qed.

Lemma hermitian_eye : Hermitian n eye.
Proof. apply adjoint_eye. Qed.

Lemma hermitian_madd (A B : Matrix) :
  Hermitian n A -> Hermitian n B -> Hermitian n (madd A B).
Proof.
unfold Hermitian. intros HA HB. apply mat_eq_intro. intros i j Hi Hj.
unfold adjoint, madd. rewrite Cconj_add.
pose proof (mat_eq_entry n _ _ i j HA Hi Hj) as Ha.
pose proof (mat_eq_entry n _ _ i j HB Hi Hj) as Hb.
unfold adjoint in Ha, Hb. rewrite Ha, Hb. reflexivity.
Qed.

Lemma hermitian_mscale (c : R) (A : Matrix) :
  Hermitian n A -> Hermitian n (mscale (RtoC c) A).
Proof.
unfold Hermitian. intros HA. apply mat_eq_intro. intros i j Hi Hj.
unfold adjoint, mscale. rewrite Cconj_mul, Cconj_RtoC.
pose proof (mat_eq_entry n _ _ i j HA Hi Hj) as Ha.
unfold adjoint in Ha. rewrite Ha. reflexivity.
Qed.

Lemma hermitian_conjugation (U A : Matrix) :
  Hermitian n A -> Hermitian n (matmul n (matmul n U A) (adjoint U)).
Proof.
unfold Hermitian. intros HA.
rewrite !adjoint_matmul_eq, adjoint_involutive_eq, HA.
symmetry. apply matmul_assoc_eq.
Qed.

Lemma psd_eye : positive_semidefinite n eye.
Proof.
intros v. rewrite (matvec_eye n v). apply vdot_self_nonneg.
Qed.

Lemma psd_madd (A B : Matrix) :
  positive_semidefinite n A -> positive_semidefinite n B ->
  positive_semidefinite n (madd A B).
Proof.
intros HA HB v. specialize (HA v). specialize (HB v).
rewrite (vdot_proper n v v (reflexivity _) _ _
           (vect_eq_intro n _ _ (fun i _ => matvec_madd n A B v i))).
rewrite vdot_add_r. cx_unfold. lra.
Qed.

Lemma psd_mscale (c : R) (A : Matrix) :
  (0 <= c)%R -> positive_semidefinite n A -> positive_semidefinite n (mscale (RtoC c) A).
Proof.
intros Hc HA v. specialize (HA v).
rewrite (vdot_proper n v v (reflexivity _) _ _
           (vect_eq_intro n _ _ (fun i _ => matvec_mscale n (RtoC c) A v i))).
change (fun i => Cmul (RtoC c) (matvec n A v i)) with (vscale (RtoC c) (matvec n A v)).
rewrite vdot_scale_r. cx_unfold. nra.
Qed.

Lemma psd_conjugation (U A : Matrix) :
  positive_semidefinite n A ->
  positive_semidefinite n (matmul n (matmul n U A) (adjoint U)).
Proof.
intros HA v.
assert (Hv : vect_eq n (matvec n (matmul n (matmul n U A) (adjoint U)) v)
                       (matvec n U (matvec n A (matvec n (adjoint U) v)))).
{ apply vect_eq_intro. intros i _. rewrite !matvec_matmul. reflexivity. }
rewrite Hv, vdot_matvec_adjoint. apply HA.
Qed.

Lemma trace_conjugation (U A : Matrix) :
  matmul n (adjoint U) U =[n]= eye ->
  trace n (matmul n (matmul n U A) (adjoint U)) = trace n A.
Proof.
intros HU. rewrite trace_matmul_comm, <- matmul_assoc_eq, HU, matmul_eye_l.
reflexivity.
Qed.

Lemma unitary_matmul (U V : Matrix) :
  unitary n U -> unitary n V -> unitary n (matmul n U V).
Proof.
intros [HU1 HU2] [HV1 HV2]. split.
- rewrite adjoint_matmul_eq, matmul_assoc_eq, <- (matmul_assoc_eq n (adjoint U)).
  rewrite HU1, matmul_eye_l. exact HV1.
- rewrite adjoint_matmul_eq, matmul_assoc_eq, <- (matmul_assoc_eq n V).
  rewrite HV2, matmul_eye_l. exact HU2.
Qed.

Lemma unitary_eye : unitary n eye.
Proof. split; rewrite adjoint_eye; apply matmul_eye_l. Qed.

Lemma unitary_power (U : Matrix) (k : nat) :
  unitary n U -> unitary n (matrix_power n U k).
Proof.
intros HU. induction k as [|k IH]; simpl.
- apply unitary_eye.
- apply unitary_matmul; assumption.
Qed.

Lemma density_conjugation (U A : Matrix) :
  unitary n U -> density_matrix n A ->
  density_matrix n (matmul n (matmul n U A) (adjoint U)).
Proof.
intros [HU _] (HH & HT & HP). split; [|split].
- apply hermitian_conjugation. exact HH.
- unfold unit_trace. rewrite trace_conjugation by exact HU. exact HT.
- apply psd_conjugation. exact HP.
Qed.

(** An eigenvalue of a positive semi-definite array is not negative. *)
Lemma psd_eigenvalue_nonneg (A : Matrix) (lam : R) :
  positive_semidefinite n A -> eigenvalue n A lam -> (0 <= lam)%R.
Proof.
intros HA (v & (i & Hi & Hvi) & Hev). specialize (HA v).
rewrite Hev, vdot_scale_r, vdot_self in HA.
assert (Hpos : (0 < Rsum (fun k => Cnorm2 (v k)) n)%R).
{ apply Rlt_le_trans with (Cnorm2 (v i)).
  - destruct (Rle_lt_or_eq_dec 0 _ (Cnorm2_nonneg (v i))) as [Hlt|Heq]; [exact Hlt|].
    exfalso. apply Hvi. apply Cnorm2_zero. symmetry. exact Heq.
  - apply (Rsum_pos_term (fun k => Cnorm2 (v k)) n i); [|exact Hi].
    intros. apply Cnorm2_nonneg. }
cx_unfold. nra.
Qed.

Lemma density_matrix_valid (A : Matrix) :
  density_matrix n A -> valid_within_tolerance n A.
Proof.
intros (HH & HT & HP). split; [exact HH|]. split.
- unfold unit_trace in HT. rewrite HT.
  replace (Csub (RtoC 1) (RtoC 1)) with (RtoC 0) by lca.
  unfold Cabs, Cnorm2, RtoC. cbn [fst snd].
  replace (0 * 0 + 0 * 0)%R with 0%R by lra. rewrite sqrt_0.
  apply Rlt_le, Rinv_0_lt_compat, pow_lt. lra.
- intros lam Hlam. pose proof (psd_eigenvalue_nonneg A lam HP Hlam).
  assert (0 < / 10 ^ 8)%R by (apply Rinv_0_lt_compat, pow_lt; lra). lra.
Qed.

(** A pure state [|v><v|] of a unit vector is a density matrix. *)
Lemma density_outer (v : Vector) :
  vdot n v v = RtoC 1 -> density_matrix n (outer v (vconj v)).
Proof.
intros Hv. split; [|split].
- apply outer_hermitian.
- unfold unit_trace. rewrite trace_outer. exact Hv.
- apply outer_psd.
Qed.

(** A unitary array preserves the norm. *)
Lemma vdot_unitary (U : Matrix) (v : Vector) :
  matmul n (adjoint U) U =[n]= eye ->
  vdot n (matvec n U v) (matvec n U v) = vdot n v v.
Proof.
intros HU. rewrite vdot_matvec_adjoint.
assert (Hv : vect_eq n (matvec n (adjoint U) (matvec n U v)) v).
{ transitivity (matvec n (matmul n (adjoint U) U) v).
  - apply vect_eq_intro. intros i _. symmetry. apply matvec_matmul.
  - rewrite HU. apply matvec_eye. }
rewrite Hv. reflexivity.
Qed.
End Validity.

(* ===================================================================== *)
(** * The Hamiltonians *)
(* ===================================================================== *)

Lemma hermitian_kron (d m : nat) (A B : Matrix) :
  (0 < m)%nat -> Hermitian d A -> Hermitian m B -> Hermitian (d * m) (kron m A B).
Proof.
intros Hm HA HB. apply mat_eq_intro. intros i j Hi Hj.
unfold adjoint, kron. rewrite Cconj_mul.
assert (Hid : (i / m < d)%nat) by (apply Nat.Div0.div_lt_upper_bound; lia).
assert (Hjd : (j / m < d)%nat) by (apply Nat.Div0.div_lt_upper_bound; lia).
pose proof (Nat.mod_upper_bound i m ltac:(lia)) as Him.
pose proof (Nat.mod_upper_bound j m ltac:(lia)) as Hjm.
pose proof (mat_eq_entry d _ _ _ _ HA Hid Hjd) as Ha.
pose proof (mat_eq_entry m _ _ _ _ HB Him Hjm) as Hb.
unfold adjoint in Ha, Hb. rewrite Ha, Hb. reflexivity.
Qed.

Ltac two_by_two i j Hi Hj :=
  destruct i as [|[|i]]; [| |exfalso; lia];
  (destruct j as [|[|j]]; [| |exfalso; lia]).

Lemma hermitian_pauli_Z : Hermitian 2 pauli_Z.
Proof.
apply mat_eq_intro. intros i j Hi Hj. two_by_two i j Hi Hj; cbv [adjoint pauli_Z]; lca.
Qed.

Lemma hermitian_pauli_X : Hermitian 2 pauli_X.
Proof.
apply mat_eq_intro. intros i j Hi Hj. two_by_two i j Hi Hj; cbv [adjoint pauli_X]; lca.
Qed.

Lemma hermitian_zeros (n : nat) : Hermitian n zeros.
Proof. apply mat_eq_intro. intros i j _ _. cbv [adjoint zeros]. lca. Qed.

Lemma hermitian_ising_hamiltonian (J : R) : Hermitian 8 (ising_hamiltonian 3 J).
Proof.
cbn. pose proof hermitian_pauli_Z as HZ. pose proof (hermitian_eye 2) as HI.
pose proof (hermitian_mscale 2 1 eye HI) as HI1.
repeat first [ apply hermitian_madd | apply hermitian_mscale | apply hermitian_zeros ].
- apply (hermitian_kron 4 2); [lia| |exact HI]. apply (hermitian_kron 2 2); [lia|exact HZ|exact HZ].
- apply (hermitian_kron 4 2); [lia| |exact HZ]. apply (hermitian_kron 2 2); [lia|exact HI1|exact HZ].
Qed.

Lemma hermitian_kick_hamiltonian (h : R) : Hermitian 8 (kick_hamiltonian 3 h).
Proof.
cbn. pose proof hermitian_pauli_X as HX. pose proof (hermitian_eye 2) as HI.
pose proof (hermitian_mscale 2 1 eye HI) as HI1.
repeat first [ apply hermitian_madd | apply hermitian_mscale | apply hermitian_zeros ].
- apply (hermitian_kron 4 2); [lia| |exact HI]. apply (hermitian_kron 2 2); [lia|exact HX|exact HI].
- apply (hermitian_kron 4 2); [lia| |exact HI]. apply (hermitian_kron 2 2); [lia|exact HI1|exact HX].
- apply (hermitian_kron 4 2); [lia| |exact HX]. apply (hermitian_kron 2 2); [lia|exact HI1|exact HI].
Qed.

Section FloquetUnitary.
Context `{LinAlg}.

(** The evolution operator of f_dyn and the one of its inverse are unitary. *)
Lemma floquet_total_unitary :
  expm_unitary_law ->
  unitary 8
    (matrix_power 8
       (matmul 8 (expm (scaled_generator (Copp Ci) (ising_hamiltonian 3 J_ISING) TAU))
                 (expm (scaled_generator (Copp Ci) (kick_hamiltonian 3 H_KICK) TAU)))
       N_KICKS).
Proof.
intros Hlaw. apply unitary_power. apply unitary_matmul.
- exact (proj1 (Hlaw _ TAU (hermitian_ising_hamiltonian J_ISING))).
- exact (proj1 (Hlaw _ TAU (hermitian_kick_hamiltonian H_KICK))).
Qed.

Lemma floquet_total_dag_unitary :
  expm_unitary_law ->
  unitary 8
    (matrix_power 8
       (matmul 8 (expm (scaled_generator Ci (kick_hamiltonian 3 H_KICK) TAU))
                 (expm (scaled_generator Ci (ising_hamiltonian 3 J_ISING) TAU)))
       N_KICKS).
Proof.
intros Hlaw. apply unitary_power. apply unitary_matmul.
- exact (proj2 (Hlaw _ TAU (hermitian_kick_hamiltonian H_KICK))).
- exact (proj2 (Hlaw _ TAU (hermitian_ising_hamiltonian J_ISING))).
Qed.
End FloquetUnitary.

(* ===================================================================== *)
(** * The gates of the preparation circuit preserve the norm *)
(* ===================================================================== *)

Lemma norm_cnot_0_1 (v : Vector) :
  vdot 8 (matvec 8 cnot_0_1 v) (matvec 8 cnot_0_1 v) = vdot 8 v v.
Proof.
unfold vdot. cbn [Csum]. rewrite !matvec_cnot_0_1 by lia. ring.
Qed.

Lemma matvec_H_full (v : Vector) (i : nat) :
  (i < 4)%nat ->
  matvec 8 (H_full 3) v i = Cmul (RtoC (1 / sqrt 2)) (Cadd (v i) (v (i + 4)%nat)) /\
  matvec 8 (H_full 3) v (i + 4)%nat
  = Cmul (RtoC (1 / sqrt 2)) (Csub (v i) (v (i + 4)%nat)).
Proof.
intros Hi.
do 4 (destruct i as [|i];
      [split; cbv [matvec Csum H_full kron hadamard eye]; cbn;
       unfold Rdiv; generalize (/ sqrt 2)%R; intros s; apply complex_eq; cx_unfold; ring|]).
lia.
Qed.

Lemma hadamard_pair_norm (a b : complex) :
  Cadd (Cmul (Cconj (Cmul (RtoC (1 / sqrt 2)) (Cadd a b)))
             (Cmul (RtoC (1 / sqrt 2)) (Cadd a b)))
       (Cmul (Cconj (Cmul (RtoC (1 / sqrt 2)) (Csub a b)))
             (Cmul (RtoC (1 / sqrt 2)) (Csub a b)))
  = Cadd (Cmul (Cconj a) a) (Cmul (Cconj b) b).
Proof.
pose proof inv_sqrt2_sq as Hs. revert Hs. generalize (1 / sqrt 2)%R. intros s Hs.
destruct a as [a1 a2], b as [b1 b2]. apply complex_eq; cx_unfold.
- replace (a1 * a1 - - a2 * a2 + (b1 * b1 - - b2 * b2))%R
    with (2 * (s * s) * (a1 * a1 + a2 * a2 + b1 * b1 + b2 * b2))%R by (rewrite Hs; lra).
  ring.
- ring.
Qed.

Lemma norm_H_full (v : Vector) :
  vdot 8 (matvec 8 (H_full 3) v) (matvec 8 (H_full 3) v) = vdot 8 v v.
Proof.
unfold vdot. cbn [Csum].
destruct (matvec_H_full v 0 ltac:(lia)) as [E0 E4].
destruct (matvec_H_full v 1 ltac:(lia)) as [E1 E5].
destruct (matvec_H_full v 2 ltac:(lia)) as [E2 E6].
destruct (matvec_H_full v 3 ltac:(lia)) as [E3 E7].
cbn [Nat.add] in E0, E1, E2, E3, E4, E5, E6, E7.
rewrite E0, E1, E2, E3, E4, E5, E6, E7. clear E0 E1 E2 E3 E4 E5 E6 E7.
pose proof (hadamard_pair_norm (v 0%nat) (v 4%nat)) as H0.
pose proof (hadamard_pair_norm (v 1%nat) (v 5%nat)) as H1.
pose proof (hadamard_pair_norm (v 2%nat) (v 6%nat)) as H2.
pose proof (hadamard_pair_norm (v 3%nat) (v 7%nat)) as H3.
revert H0 H1 H2 H3.
generalize (Cmul (RtoC (1 / sqrt 2)) (Cadd (v 0%nat) (v 4%nat))).
generalize (Cmul (RtoC (1 / sqrt 2)) (Csub (v 0%nat) (v 4%nat))).
generalize (Cmul (RtoC (1 / sqrt 2)) (Cadd (v 1%nat) (v 5%nat))).
generalize (Cmul (RtoC (1 / sqrt 2)) (Csub (v 1%nat) (v 5%nat))).
generalize (Cmul (RtoC (1 / sqrt 2)) (Cadd (v 2%nat) (v 6%nat))).
generalize (Cmul (RtoC (1 / sqrt 2)) (Csub (v 2%nat) (v 6%nat))).
generalize (Cmul (RtoC (1 / sqrt 2)) (Cadd (v 3%nat) (v 7%nat))).
generalize (Cmul (RtoC (1 / sqrt 2)) (Csub (v 3%nat) (v 7%nat))).
intros m3 p3 m2 p2 m1 p1 m0 p0 H0 H1 H2 H3.
transitivity (Cadd (Cadd (Cadd (Cmul (Cconj p0) p0) (Cmul (Cconj m0) m0))
                         (Cadd (Cmul (Cconj p1) p1) (Cmul (Cconj m1) m1)))
                   (Cadd (Cadd (Cmul (Cconj p2) p2) (Cmul (Cconj m2) m2))
                         (Cadd (Cmul (Cconj p3) p3) (Cmul (Cconj m3) m3)))).
- ring.
- rewrite H0, H1, H2, H3. ring.
Qed.

(* ===================================================================== *)
(** * The measurement *)
(* ===================================================================== *)

Ltac each_index i tac :=
  do 8 (destruct i as [|i]; [tac|]); exfalso; lia.

Lemma projector_single_qubit_value (o : nat) :
  (o < 2)%nat ->
  exists P, projector_single_qubit 3 0 o = Ok P /\ P =[8]= qubit0_projector o.
Proof.
intros Ho. destruct o as [|[|o]]; [| |lia].
- eexists. split; [cbn; reflexivity|].
  apply mat_eq_intro. intros i j Hi Hj.
  each_index i ltac:(each_index j ltac:(reflexivity)).
- eexists. split; [cbn; reflexivity|].
  apply mat_eq_intro. intros i j Hi Hj.
  each_index i ltac:(each_index j ltac:(reflexivity)).
Qed.

Lemma qubit0_projector_indicator (o i j : nat) :
  qubit0_projector o i j = Cmul (bit0_indicator o i) (eye i j).
Proof.
unfold qubit0_projector, bit0_indicator, eye.
destruct (i =? j)%nat; destruct (i mod 2 =? o)%nat; cbn [andb]; lca.
Qed.

Lemma bit0_indicator_sym (o i j : nat) :
  Cmul (bit0_indicator o i) (eye i j) = Cmul (eye i j) (bit0_indicator o j).
Proof.
unfold eye. destruct (Nat.eqb_spec i j) as [->|_]; [ring|].
rewrite Cmul_0_l, Cmul_0_r. reflexivity.
Qed.

Lemma matmul_projector_l (n o : nat) (A : Matrix) (i j : nat) :
  (i < n)%nat ->
  matmul n (qubit0_projector o) A i j = Cmul (bit0_indicator o i) (A i j).
Proof.
intros Hi. unfold matmul.
rewrite (Csum_ext _ (fun k => Cmul (bit0_indicator o i) (Cmul (eye i k) (A k j)))).
- rewrite Csum_scale_l. rewrite (Csum_eye_l i (fun k => A k j) n Hi). reflexivity.
- intros k _. rewrite qubit0_projector_indicator. ring.
Qed.

Lemma matmul_projector_r (n o : nat) (A : Matrix) (i j : nat) :
  (j < n)%nat ->
  matmul n A (qubit0_projector o) i j = Cmul (A i j) (bit0_indicator o j).
Proof.
intros Hj. unfold matmul.
rewrite (Csum_ext _ (fun k => Cmul (Cmul (A i k) (eye k j)) (bit0_indicator o j))).
- rewrite Csum_scale_r. rewrite (Csum_eye_r j (fun k => A i k) n Hj). reflexivity.
- intros k _. rewrite qubit0_projector_indicator, bit0_indicator_sym. ring.
Qed.

(** [P rho P] keeps the entries of [rho] whose two indices have bit 0 equal
    to the outcome. *)
Lemma projector_sandwich (n o : nat) (A : Matrix) (i j : nat) :
  (i < n)%nat -> (j < n)%nat ->
  matmul n (matmul n (qubit0_projector o) A) (qubit0_projector o) i j
  = Cmul (Cmul (bit0_indicator o i) (A i j)) (bit0_indicator o j).
Proof.
intros Hi Hj. rewrite matmul_projector_r by exact Hj.
rewrite matmul_projector_l by exact Hi. reflexivity.
Qed.

Lemma hermitian_qubit0_projector (n o : nat) : Hermitian n (qubit0_projector o).
Proof.
apply mat_eq_intro. intros i j _ _. unfold adjoint, qubit0_projector.
rewrite (Nat.eqb_sym j i). destruct (Nat.eqb_spec i j) as [->|_].
- destruct (j mod 2 =? o)%nat; cbn [andb]; lca.
- cbn [andb]. lca.
Qed.

Lemma projector_sandwich_conjugation (n o : nat) (A : Matrix) :
  matmul n (matmul n (qubit0_projector o) A) (qubit0_projector o)
  =[n]= matmul n (matmul n (qubit0_projector o) A) (adjoint (qubit0_projector o)).
Proof.
pose proof (hermitian_qubit0_projector n o) as HP. unfold Hermitian in HP.
rewrite HP. reflexivity.
Qed.

Lemma bit0_indicator_complete (i : nat) (z : complex) :
  Cadd (Cmul (Cmul (bit0_indicator 0 i) z) (bit0_indicator 0 i))
       (Cmul (Cmul (bit0_indicator 1 i) z) (bit0_indicator 1 i)) = z.
Proof.
unfold bit0_indicator. pose proof (Nat.mod_upper_bound i 2 ltac:(lia)) as Hm.
destruct (i mod 2)%nat as [|[|m]]; [| |lia]; cbn [Nat.eqb]; destruct z; lca.
Qed.

(** The two projected blocks together carry the whole trace. *)
Lemma projector_trace_sum (n : nat) (A : Matrix) :
  Cadd (trace n (matmul n (matmul n (qubit0_projector 0) A) (qubit0_projector 0)))
       (trace n (matmul n (matmul n (qubit0_projector 1) A) (qubit0_projector 1)))
  = trace n A.
Proof.
unfold trace. rewrite <- Csum_add. apply Csum_ext. intros k Hk.
rewrite !projector_sandwich by exact Hk. apply bit0_indicator_complete.
Qed.

Lemma psd_diagonal_nonneg (n : nat) (A : Matrix) (k : nat) :
  (k < n)%nat -> positive_semidefinite n A -> (0 <= Cre (A k k))%R.
Proof.
intros Hk HA. specialize (HA (fun i => eye i k)).
assert (Hv : vect_eq n (matvec n A (fun i => eye i k)) (fun i => A i k)).
{ apply vect_eq_intro. intros i _. unfold matvec.
  apply (Csum_eye_r k (fun j => A i j) n Hk). }
rewrite Hv in HA. unfold vdot in HA.
rewrite (Csum_ext _ (fun i => Cmul (eye k i) (A i k))) in HA.
- rewrite (Csum_eye_l k (fun i => A i k) n Hk) in HA. exact HA.
- intros i _. unfold eye. rewrite (Nat.eqb_sym i k).
  destruct (k =? i)%nat; rewrite Cconj_RtoC; reflexivity.
Qed.

Lemma psd_trace_nonneg (n : nat) (A : Matrix) :
  positive_semidefinite n A -> (0 <= Cre (trace n A))%R.
Proof.
intros HA. unfold trace. rewrite Cre_Csum. apply Rsum_nonneg.
intros k Hk. apply (psd_diagonal_nonneg n); assumption.
Qed.

Lemma trace_eye_8 : trace 8 eye = RtoC 8.
Proof. cbv [trace Csum eye Nat.eqb]. lca. Qed.

(** The state after the measurement of qubit 0 is a density matrix. *)
Lemma density_measured (rho : Matrix) :
  density_matrix 8 rho -> density_matrix 8 (measured rho).
Proof.
intros (HH & HT & HP). unfold measured. split; [|split].
- apply hermitian_madd; [|repeat apply hermitian_mscale; apply hermitian_eye].
  apply hermitian_mscale.
  apply hermitian_madd; rewrite projector_sandwich_conjugation;
    apply hermitian_conjugation; exact HH.
- unfold unit_trace in *.
  rewrite trace_madd, !trace_mscale, trace_madd, projector_trace_sum, HT, trace_eye_8.
  apply complex_eq; cx_unfold; cbn [INR]; lra.
- apply psd_madd.
  + apply psd_mscale; [lra|].
    apply psd_madd; rewrite projector_sandwich_conjugation;
      apply psd_conjugation; exact HP.
  + apply psd_mscale; [lra|]. apply psd_mscale; [|apply psd_eye].
    apply Rlt_le, Rinv_0_lt_compat. cbn [INR]. lra.
Qed.

Lemma measure_qubit_density (u : R) (rho : Matrix) :
  density_matrix 8 rho ->
  exists outcome rho',
    measure_qubit u rho 0 3 = Ok (outcome, rho') /\
    is_bit outcome /\ rho' =[8]= measured rho.
Proof.
intros (HH & HT & HP).
destruct (projector_single_qubit_value 0 ltac:(lia)) as (P0 & E0 & HP0).
destruct (projector_single_qubit_value 1 ltac:(lia)) as (P1 & E1 & HP1).
unfold measure_qubit. rewrite E0, E1. cbn [mbind result_bind].
change (2 ^ 3)%nat with 8%nat.
assert (Hp0 : (0 <= Cre (trace 8 (matmul 8 (matmul 8 P0 rho) P0)))%R).
{ rewrite HP0, projector_sandwich_conjugation. apply psd_trace_nonneg.
  apply psd_conjugation. exact HP. }
assert (Hp1 : (0 <= Cre (trace 8 (matmul 8 (matmul 8 P1 rho) P1)))%R).
{ rewrite HP1, projector_sandwich_conjugation. apply psd_trace_nonneg.
  apply psd_conjugation. exact HP. }
assert (Htot : (Cre (trace 8 (matmul 8 (matmul 8 P0 rho) P0))
                + Cre (trace 8 (matmul 8 (matmul 8 P1 rho) P1)) = 1)%R).
{ rewrite HP0, HP1.
  change (Cre (Cadd (trace 8 (matmul 8 (matmul 8 (qubit0_projector 0) rho)
                                       (qubit0_projector 0)))
                    (trace 8 (matmul 8 (matmul 8 (qubit0_projector 1) rho)
                                       (qubit0_projector 1)))) = 1%R).
  rewrite projector_trace_sum, HT. reflexivity. }
revert Hp0 Hp1 Htot.
generalize (Cre (trace 8 (matmul 8 (matmul 8 P0 rho) P0))).
generalize (Cre (trace 8 (matmul 8 (matmul 8 P1 rho) P1))).
intros p1 p0 Hp0 Hp1 Htot. rewrite Htot.
rewrite !np_div_nonzero by lra. unfold np_random_choice.
rewrite (bool_decide_eq_false_2 (p0 / 1 < 0)%R) by lra.
rewrite (bool_decide_eq_false_2 (p1 / 1 < 0)%R) by lra.
cbn [orb mbind result_bind].
eexists. eexists. split; [reflexivity|]. split.
- unfold is_bit. destruct (bool_decide (p0 / 1 <= u)%R); auto.
- unfold measured. rewrite HP0, HP1. reflexivity.
Qed.

(* ===================================================================== *)
(** * The morphisms keep the quantum component a density matrix *)
(* ===================================================================== *)

Lemma argmax_upto_le (w : nat -> R) (k : nat) : (argmax_upto w k <= k)%nat.
Proof.
induction k as [|k IH]; simpl; [lia|].
destruct (decide (w (argmax_upto w k) < w (S k))%R); lia.
Qed.

Lemma np_argmax_lt (w : nat -> R) (n : nat) : (0 < n)%nat -> (np_argmax w n < n)%nat.
Proof. intros Hn. unfold np_argmax. pose proof (argmax_upto_le w (n - 1)). lia. Qed.

Lemma parse_binary_digits_bits (bits : list Z) (acc : Z) :
  Forall is_bit bits ->
  exists v, parse_binary_digits (String.concat "" (map str_of_int bits)) acc = Ok v.
Proof.
intros Hbits. revert acc. induction Hbits as [|b tl Hb Htl IH]; intros acc.
- eexists. reflexivity.
- destruct tl as [|b' tl'].
  + destruct Hb as [-> | ->]; eexists; reflexivity.
  + destruct Hb as [-> | ->].
    * destruct (IH (2 * acc)%Z) as [v Hv]. exists v. exact Hv.
    * destruct (IH (2 * acc + 1)%Z) as [v Hv]. exists v. exact Hv.
Qed.

Lemma int_base2_bits (bits : list Z) :
  bits <> [] -> Forall is_bit bits ->
  exists v, int_base2 (String.concat "" (map str_of_int bits)) = Ok v.
Proof.
intros Hne Hbits. destruct bits as [|b tl]; [contradiction|].
pose proof (parse_binary_digits_bits (b :: tl) 0 Hbits) as [v Hv].
exists v. rewrite <- Hv. inversion Hbits as [|? ? Hb Htl]; subst.
destruct tl as [|b' tl']; destruct Hb as [-> | ->]; reflexivity.
Qed.

Section MorphismValidity.
Context `{LinAlg} `{Rng}.

Lemma dominant_eigenvector_unit (q : Matrix) :
  eigh_unit_law -> Hermitian 8 q ->
  vdot 8 (dominant_eigenvector q) (dominant_eigenvector q) = RtoC 1.
Proof.
intros Hlaw Hq. unfold dominant_eigenvector.
specialize (Hlaw q (np_argmax (fst (eigh q)) DIM_HILBERT) Hq
                 (np_argmax_lt _ 8 ltac:(lia))).
destruct (eigh q) as [w V]. exact Hlaw.
Qed.

Lemma morphism_1_density (state : SystemState) :
  exists s', morphism_1_circuit_compilation state = Ok s' /\
             density_matrix 8 (Q s') /\ length (C s') = N_BITS.
Proof.
eexists. split; [apply morphism_1_value|]. split; [|reflexivity].
cbn [Q new_state]. apply density_outer.
rewrite prepared_vector_entries.
cbv [vdot Csum plus_zero_zero Nat.eqb orb].
pose proof inv_sqrt2_sq as Hs. revert Hs. generalize (1 / sqrt 2)%R. intros s Hs.
apply complex_eq; cx_unfold; [|lra].
replace 1%R with (2 * (s * s))%R by lra. ring.
Qed.

Lemma morphism_2_density (u : R) (state : SystemState) :
  length (C state) = N_BITS -> density_matrix 8 (Q state) ->
  exists s', morphism_2_syndrome_encoding u state = Ok s' /\
             density_matrix 8 (Q s') /\ length (C s') = N_BITS /\
             Q s' =[8]= measured (Q state).
Proof.
intros Hlen Hq. destruct state as [c q tags pts]. cbn [C Q] in *.
destruct (measure_qubit_density u q Hq) as (o & rho' & E & Ho & Hrho).
do 8 (destruct c as [|? c]; [discriminate Hlen|]).
destruct c; [|discriminate Hlen].
unfold morphism_2_syndrome_encoding. change N_QUBITS with 3%nat.
cbn -[measure_qubit Z.add Z.modulo]. rewrite E. cbn -[Z.add Z.modulo].
eexists. split; [reflexivity|]. cbn [Q C new_state].
split; [|split; [reflexivity|exact Hrho]].
rewrite Hrho. apply density_measured. exact Hq.
Qed.

Lemma morphism_3_density (state : SystemState) :
  expm_unitary_law -> density_matrix 8 (Q state) ->
  exists s', morphism_3_arnold_cat state = Ok s' /\
             density_matrix 8 (Q s') /\ length (C s') = length (C state) /\
             Forall is_bit (C s').
Proof.
intros Hlaw Hq. eexists. split; [reflexivity|]. cbn [Q C new_state].
split; [|split].
- apply density_conjugation; [|exact Hq]. apply floquet_total_unitary. exact Hlaw.
- unfold arnold_cat_map_bits, int_to_bits. rewrite length_map, length_seq. reflexivity.
- unfold arnold_cat_map_bits, int_to_bits. apply List.Forall_forall. intros b Hb.
  apply in_map_iff in Hb. destruct Hb as (i & <- & _).
  unfold is_bit.
  pose proof (Z.land_ones (Z.shiftr (arnold_cat_int (bits_to_int 0 (C state) 0))
                                    (Z.of_nat i)) 1 ltac:(lia)) as E.
  change (Z.ones 1) with 1%Z in E. change (2 ^ 1)%Z with 2%Z in E. rewrite E.
  pose proof (Z.mod_pos_bound (Z.shiftr (arnold_cat_int (bits_to_int 0 (C state) 0))
                                        (Z.of_nat i)) 2 ltac:(lia)). lia.
Qed.

Lemma morphism_4_density (state : SystemState) (n_points : nat) :
  C state <> [] -> Forall is_bit (C state) -> density_matrix 8 (Q state) ->
  exists s', morphism_4_disk_to_annulus state n_points = Ok s' /\
             density_matrix 8 (Q s') /\ C s' = C state /\ Q s' = Q state.
Proof.
intros Hne Hbits Hq. unfold morphism_4_disk_to_annulus, bits_to_points.
destruct (int_base2_bits (C state) Hne Hbits) as [v ->].
cbn [mbind result_bind]. eexists. split; [reflexivity|].
cbn [Q C with_points new_state]. auto.
Qed.

Lemma f_geom_inv_density (state : SystemState) :
  density_matrix 8 (Q state) ->
  exists s', f_geom_inv state = Ok s' /\ density_matrix 8 (Q s') /\
             C s' = C state /\ Q s' = Q state.
Proof. intros Hq. eexists. split; [reflexivity|]. cbn [Q C]. auto. Qed.

Lemma fold_insert_length (f : nat -> nat) (g : nat -> Z) (l : list nat) (acc : list Z) :
  length (fold_left (fun a i => <[f i := g i]> a) l acc) = length acc.
Proof.
revert acc. induction l as [|x l IH]; intros acc; simpl; [reflexivity|].
rewrite IH. apply length_insert.
Qed.

Lemma f_dyn_inv_density (state : SystemState) :
  expm_unitary_law -> density_matrix 8 (Q state) ->
  exists s', f_dyn_inv state = Ok s' /\ density_matrix 8 (Q s') /\
             length (C s') = length (C state).
Proof.
intros Hlaw Hq. eexists. split; [reflexivity|]. cbn [Q C new_state]. split.
- apply density_conjugation; [|exact Hq]. apply floquet_total_dag_unitary. exact Hlaw.
- rewrite fold_insert_length. apply length_replicate.
Qed.

Lemma f_info_inv_density (state : SystemState) :
  eigh_unit_law -> length (C state) = N_BITS -> density_matrix 8 (Q state) ->
  exists s', f_info_inv state = Ok s' /\ density_matrix 8 (Q s') /\
             Q s' = outer (dominant_eigenvector (Q state))
                          (vconj (dominant_eigenvector (Q state))).
Proof.
intros Hlaw Hlen Hq. destruct state as [c q tags pts]. cbn [C Q] in *.
do 8 (destruct c as [|? c]; [discriminate Hlen|]).
destruct c; [|discriminate Hlen].
unfold f_info_inv. cbn -[dominant_eigenvector Z.sub Z.add Z.modulo].
eexists. split; [reflexivity|]. cbn [Q new_state]. split; [|reflexivity].
apply density_outer. apply dominant_eigenvector_unit; [exact Hlaw|]. apply Hq.
Qed.

Lemma f_alg_inv_value (state : SystemState) :
  f_alg_inv state =
  Ok (new_state (replicate N_BITS 0%Z)
                (outer (matvec 8 (H_full 3)
                               (matvec 8 cnot_0_1 (dominant_eigenvector (Q state))))
                       (vconj (matvec 8 (H_full 3)
                                      (matvec 8 cnot_0_1 (dominant_eigenvector (Q state))))))
                ∅).
Proof.
unfold f_alg_inv. change N_QUBITS with 3%nat. change DIM_HILBERT with 8%nat.
cbn [rev seq Nat.sub app fold_result].
rewrite cnot_gate_0_2, cnot_gate_0_1. reflexivity.
Qed.

Lemma f_alg_inv_density (state : SystemState) :
  eigh_unit_law -> density_matrix 8 (Q state) ->
  exists s', f_alg_inv state = Ok s' /\ density_matrix 8 (Q s') /\
             C s' = replicate N_BITS 0%Z.
Proof.
intros Hlaw Hq. eexists. split; [apply f_alg_inv_value|]. cbn [Q C new_state].
split; [|reflexivity]. apply density_outer.
rewrite norm_H_full, norm_cnot_0_1.
apply dominant_eigenvector_unit; [exact Hlaw|]. apply Hq.
Qed.

Lemma phi_density (state : SystemState) :
  expm_unitary_law -> eigh_unit_law ->
  length (C state) = N_BITS -> density_matrix 8 (Q state) ->
  exists s', phi_closing_isomorphism state = Ok s' /\ density_matrix 8 (Q s') /\
             C s' = replicate N_BITS 0%Z.
Proof.
intros Hexp Heig Hlen Hq. unfold phi_closing_isomorphism.
destruct (f_geom_inv_density state Hq) as (s3 & -> & Hq3 & Hc3 & _).
cbn [mbind result_bind].
destruct (f_dyn_inv_density s3 Hexp Hq3) as (s2 & -> & Hq2 & Hc2).
cbn [mbind result_bind].
destruct (f_info_inv_density s2 Heig ltac:(congruence) Hq2) as (s1 & -> & Hq1 & _).
cbn [mbind result_bind].
apply f_alg_inv_density; assumption.
Qed.
End MorphismValidity.

(** C3.  Every morphism maps a valid state to a valid state.  For a state with
    an 8-bit classical component and a quantum component that is a density
    matrix (Hermitian, trace 1, positive semi-definite), each of the five
    forward morphisms (f_alg, f_info for any random draw [u], f_dyn, f_geom,
    the closing phi) and each of the four inverse morphisms returns a state
    whose quantum component is Hermitian, has trace within 1e-6 of 1 and has
    no eigenvalue below -1e-8.  The matrix exponential and the
    eigendecomposition enter through their contracts: [exp(-+ i t G)] is
    unitary for Hermitian [G], and the eigenvectors of a Hermitian array have
    norm 1. *)
Theorem morphisms_preserve_validity `{LinAlg} `{Rng} (u : R) (n_points : nat)
        (state : SystemState) :
  expm_unitary_law -> eigh_unit_law ->
  length (C state) = N_BITS -> Forall is_bit (C state) ->
  density_matrix 8 (Q state) ->
  Forall (fun f : SystemState -> result SystemState =>
            exists s', f state = Ok s' /\ valid_within_tolerance 8 (Q s'))
         [ morphism_1_circuit_compilation;
           morphism_2_syndrome_encoding u;
           morphism_3_arnold_cat;
           (fun s => morphism_4_disk_to_annulus s n_points);
           phi_closing_isomorphism;
           f_geom_inv; f_dyn_inv; f_info_inv; f_alg_inv ].
Proof.
intros Hexp Heig Hlen Hbits Hq.
assert (Hne : C state <> []) by (intros E; rewrite E in Hlen; discriminate Hlen).
repeat first [apply List.Forall_cons | apply List.Forall_nil].
- destruct (morphism_1_density state) as (s' & E & Hd & _).
  exists s'. split; [exact E|]. apply density_matrix_valid, Hd.
- destruct (morphism_2_density u state Hlen Hq) as (s' & E & Hd & _).
  exists s'. split; [exact E|]. apply density_matrix_valid, Hd.
- destruct (morphism_3_density state Hexp Hq) as (s' & E & Hd & _).
  exists s'. split; [exact E|]. apply density_matrix_valid, Hd.
- destruct (morphism_4_density state n_points Hne Hbits Hq) as (s' & E & Hd & _).
  exists s'. split; [exact E|]. apply density_matrix_valid, Hd.
- destruct (phi_density state Hexp Heig Hlen Hq) as (s' & E & Hd & _).
  exists s'. split; [exact E|]. apply density_matrix_valid, Hd.
- destruct (f_geom_inv_density state Hq) as (s' & E & Hd & _).
  exists s'. split; [exact E|]. apply density_matrix_valid, Hd.
- destruct (f_dyn_inv_density state Hexp Hq) as (s' & E & Hd & _).
  exists s'. split; [exact E|]. apply density_matrix_valid, Hd.
- destruct (f_info_inv_density state Heig Hlen Hq) as (s' & E & Hd & _).
  exists s'. split; [exact E|]. apply density_matrix_valid, Hd.
- destruct (f_alg_inv_density state Heig Hq) as (s' & E & Hd & _).
  exists s'. split; [exact E|]. apply density_matrix_valid, Hd.
Qed.

(* ===================================================================== *)
(** * The stand-in library meets the contracts *)
(* ===================================================================== *)

Lemma sample_expm_unitary_law : @expm_unitary_law sample_linalg.
Proof. intros G t _. cbn [expm sample_linalg]. split; apply unitary_eye. Qed.

Ltac sqrt2_arith :=
  unfold Rdiv; pose proof inv_sqrt2_sq as Hs; unfold Rdiv in Hs; revert Hs;
  generalize (/ sqrt 2)%R; intros s Hs; apply complex_eq; cx_unfold; nra.

Lemma plus_basis_columns (k l : nat) :
  (k < 8)%nat -> (l < 8)%nat ->
  vdot 8 (column plus_basis k) (column plus_basis l) = eye k l.
Proof.
intros Hk Hl.
each_index k ltac:(each_index l ltac:(cbv [vdot Csum column plus_basis eye Nat.eqb];
                                      sqrt2_arith)).
Qed.

Lemma sample_eigh_unit_law : @eigh_unit_law sample_linalg.
Proof.
intros q k _ Hk. cbn [eigh sample_linalg snd].
rewrite plus_basis_columns by assumption. unfold eye. rewrite Nat.eqb_refl. reflexivity.
Qed.

Lemma initial_state_is_outer :
  Q initial_state =[8]= outer basis_zero (vconj basis_zero).
Proof.
apply mat_eq_intro. intros i j Hi Hj.
cbv [Q initial_state new_state outer vconj basis_zero].
destruct (i =? 0)%nat; destruct (j =? 0)%nat; cbn [andb]; lca.
Qed.

Lemma initial_state_density : density_matrix 8 (Q initial_state).
Proof.
rewrite initial_state_is_outer. apply density_outer.
cbv [vdot Csum basis_zero Nat.eqb]. lca.
Qed.

Lemma initial_state_bits : Forall is_bit (C initial_state).
Proof. repeat constructor. Qed.

Lemma morphisms_preserve_validity_witness :
  Forall (fun f : SystemState -> result SystemState =>
            exists s', f initial_state = Ok s' /\ valid_within_tolerance 8 (Q s'))
         [ morphism_1_circuit_compilation;
           morphism_2_syndrome_encoding 0;
           morphism_3_arnold_cat (H := sample_linalg);
           (fun s => morphism_4_disk_to_annulus (H0 := sample_rng) s 100);
           phi_closing_isomorphism (H := sample_linalg);
           f_geom_inv; f_dyn_inv (H := sample_linalg);
           f_info_inv (H := sample_linalg); f_alg_inv (H := sample_linalg) ].
Proof.
apply (@morphisms_preserve_validity sample_linalg sample_rng 0 100 initial_state).
- exact sample_expm_unitary_law.
- exact sample_eigh_unit_law.
- reflexivity.
- exact initial_state_bits.
- exact initial_state_density.
Defined.

(* ===================================================================== *)
(** * The dominant eigenvector of a mixture *)
(* ===================================================================== *)

Lemma complex_zero_dec (z : complex) : z = RtoC 0 \/ z <> RtoC 0.
Proof.
destruct z as [x y]. destruct (Req_dec x 0) as [->|Hx].
- destruct (Req_dec y 0) as [->|Hy]; [left; reflexivity|].
  right. intros E. apply Hy. unfold RtoC in E. congruence.
- right. intros E. apply Hx. unfold RtoC in E. congruence.
Qed.

Lemma Cmul_real_cancel (x : R) (z : complex) :
  Cmul (RtoC x) z = RtoC 0 -> z <> RtoC 0 -> x = 0%R.
Proof.
destruct z as [p q]. unfold Cmul, RtoC. cbn [fst snd]. intros E Hz.
injection E as E1 E2.
destruct (Req_dec x 0) as [Hx|Hx]; [exact Hx|]. exfalso. apply Hz.
assert (p = 0)%R by nra. assert (q = 0)%R by nra. subst. reflexivity.
Qed.

Lemma Cmul_real_zero (x : R) (z : complex) :
  Cmul (RtoC x) z = RtoC 0 -> x <> 0%R -> z = RtoC 0.
Proof.
destruct z as [p q]. unfold Cmul, RtoC. cbn [fst snd]. intros E Hx.
injection E as E1 E2.
assert (p = 0)%R by nra. assert (q = 0)%R by nra. subst. reflexivity.
Qed.

Lemma argmax_upto_max (w : nat -> R) (m k : nat) :
  (k <= m)%nat -> (w k <= w (argmax_upto w m))%R.
Proof.
induction m as [|m IH]; intros Hk; simpl.
- replace k with 0%nat by lia. lra.
- destruct (decide (w (argmax_upto w m) < w (S m))%R) as [Hlt|Hge].
  + destruct (decide (k = S m)) as [->|Hne]; [lra|].
    specialize (IH ltac:(lia)). lra.
  + destruct (decide (k = S m)) as [->|Hne]; [lra|].
    apply IH. lia.
Qed.

Lemma np_argmax_max (w : nat -> R) (n k : nat) :
  (k < n)%nat -> (w k <= w (np_argmax w n))%R.
Proof. intros Hk. unfold np_argmax. apply argmax_upto_max. lia. Qed.

Lemma vdot_conj_sym (n : nat) (u v : Vector) : vdot n u v = Cconj (vdot n v u).
Proof.
unfold vdot. rewrite Csum_conj. apply Csum_ext. intros k _.
rewrite Cconj_mul, Cconj_involutive. ring.
Qed.

Lemma plus_zero_zero_unit : vdot 8 plus_zero_zero plus_zero_zero = RtoC 1.
Proof. cbv [vdot Csum plus_zero_zero Nat.eqb orb]. sqrt2_arith. Qed.

Lemma plus_zero_zero_nonzero : plus_zero_zero 0%nat <> RtoC 0.
Proof.
cbv [plus_zero_zero Nat.eqb orb RtoC]. intros E. injection E as E.
pose proof sqrt2_pos as Hs.
assert (0 < 1 / sqrt 2)%R by (apply Rdiv_lt_0_compat; lra). lra.
Qed.

Lemma matvec_mixture (a c : R) (v : Vector) (i : nat) :
  (i < 8)%nat ->
  matvec 8 (mixture a c) v i
  = Cadd (Cmul (RtoC a) (Cmul (vdot 8 plus_zero_zero v) (plus_zero_zero i)))
         (Cmul (RtoC c) (v i)).
Proof.
intros Hi. unfold mixture, prepared_density.
rewrite matvec_madd, !matvec_mscale, matvec_outer.
rewrite (vect_eq_entry 8 _ _ i (matvec_eye 8 v) Hi). reflexivity.
Qed.

Section DominantEigenvector.
Variables (M V : Matrix) (w : nat -> R) (a c : R).
Hypothesis a_pos : (0 < a)%R.
Hypothesis M_mixture : M =[8]= mixture a c.
Hypothesis V_unitary : unitary 8 V.
Hypothesis eigenpairs :
  forall k, (k < 8)%nat ->
            vect_eq 8 (matvec 8 M (column V k)) (vscale (RtoC (w k)) (column V k)).

Lemma eigen_equation (k i : nat) :
  (k < 8)%nat -> (i < 8)%nat ->
  Cadd (Cmul (RtoC a) (Cmul (vdot 8 plus_zero_zero (column V k)) (plus_zero_zero i)))
       (Cmul (RtoC c) (column V k i))
  = Cmul (RtoC (w k)) (column V k i).
Proof using M_mixture eigenpairs.
intros Hk Hi. rewrite <- matvec_mixture by exact Hi.
pose proof (eigenpairs k Hk) as E. rewrite M_mixture in E.
exact (vect_eq_entry 8 _ _ i E Hi).
Qed.

Lemma column_unit (k : nat) :
  (k < 8)%nat -> vdot 8 (column V k) (column V k) = RtoC 1.
Proof using V_unitary.
intros Hk. destruct V_unitary as [HV _].
pose proof (mat_eq_entry 8 _ _ k k HV Hk Hk) as E.
unfold eye in E. rewrite Nat.eqb_refl in E. exact E.
Qed.

Lemma completeness (u : Vector) (i : nat) :
  (i < 8)%nat ->
  u i = Csum (fun k => Cmul (V i k) (vdot 8 (column V k) u)) 8.
Proof using V_unitary.
intros Hi. destruct V_unitary as [_ HV].
rewrite <- (vect_eq_entry 8 _ _ i (matvec_eye 8 u) Hi).
rewrite <- (matvec_proper 8 _ _ HV u u (reflexivity _) i Hi).
rewrite matvec_matmul. reflexivity.
Qed.

(** An eigenvector that overlaps with the prepared vector has eigenvalue
    [a + c]; one that does not has eigenvalue [c]. *)
Lemma overlapping_eigenvalue (k : nat) :
  (k < 8)%nat -> vdot 8 plus_zero_zero (column V k) <> RtoC 0 -> w k = (a + c)%R.
Proof using M_mixture eigenpairs.
intros Hk Ho.
assert (E : vdot 8 plus_zero_zero
                 (fun i => Cadd (vscale (Cmul (RtoC a)
                                              (vdot 8 plus_zero_zero (column V k)))
                                        plus_zero_zero i)
                                (vscale (RtoC c) (column V k) i))
            = vdot 8 plus_zero_zero (vscale (RtoC (w k)) (column V k))).
{ apply vdot_proper; [reflexivity|]. apply vect_eq_intro. intros i Hi.
  unfold vscale. rewrite <- (eigen_equation k i Hk Hi). ring. }
rewrite vdot_add_r, !vdot_scale_r, plus_zero_zero_unit in E.
assert (E' : Cmul (RtoC (a + c - w k)) (vdot 8 plus_zero_zero (column V k)) = RtoC 0).
{ replace (RtoC (a + c - w k)) with (Csub (Cadd (RtoC a) (RtoC c)) (RtoC (w k))) by lca.
  transitivity (Csub (Cadd (Cmul (Cmul (RtoC a) (vdot 8 plus_zero_zero (column V k)))
                                 (RtoC 1))
                           (Cmul (RtoC c) (vdot 8 plus_zero_zero (column V k))))
                     (Cmul (RtoC (w k)) (vdot 8 plus_zero_zero (column V k)))).
  - ring.
  - rewrite E. ring. }
pose proof (Cmul_real_cancel _ _ E' Ho). lra.
Qed.

Lemma orthogonal_eigenvalue (k : nat) :
  (k < 8)%nat -> vdot 8 plus_zero_zero (column V k) = RtoC 0 -> w k = c.
Proof using M_mixture eigenpairs V_unitary.
intros Hk Ho.
assert (E : vdot 8 (column V k) (vscale (RtoC c) (column V k))
            = vdot 8 (column V k) (vscale (RtoC (w k)) (column V k))).
{ apply vdot_proper; [reflexivity|]. apply vect_eq_intro. intros i Hi.
  unfold vscale. rewrite <- (eigen_equation k i Hk Hi), Ho. ring. }
rewrite !vdot_scale_r, column_unit in E by exact Hk.
rewrite !Cmul_1_r in E. symmetry. apply RtoC_inj. exact E.
Qed.

(** The eigenvector that [np.argmax] selects is the prepared vector up to a
    phase. *)
Lemma dominant_of_mixture :
  exists alpha,
    Cmul (Cconj alpha) alpha = RtoC 1 /\
    vect_eq 8 (column V (np_argmax w 8)) (vscale alpha plus_zero_zero).
Proof using a_pos M_mixture V_unitary eigenpairs.
pose proof (np_argmax_lt w 8 ltac:(lia)) as Hk.
pose proof (fun k Hk => np_argmax_max w 8 k Hk) as Hmax.
set (kmax := np_argmax w 8) in *.
destruct (complex_zero_dec (vdot 8 plus_zero_zero (column V kmax))) as [Hz|Hnz].
- exfalso. pose proof (orthogonal_eigenvalue kmax Hk Hz) as Hw.
  assert (Hall : forall k, (k < 8)%nat -> vdot 8 (column V k) plus_zero_zero = RtoC 0).
  { intros k Hk8. rewrite vdot_conj_sym.
    destruct (complex_zero_dec (vdot 8 plus_zero_zero (column V k))) as [->|Hnz].
    - lca.
    - pose proof (overlapping_eigenvalue k Hk8 Hnz). specialize (Hmax k Hk8). lra. }
  apply plus_zero_zero_nonzero.
  rewrite (completeness plus_zero_zero 0 ltac:(lia)).
  rewrite (Csum_ext _ (fun _ => RtoC 0)); [apply Csum_zero|].
  intros k Hk8. rewrite Hall by exact Hk8. ring.
- pose proof (overlapping_eigenvalue kmax Hk Hnz) as Hw.
  set (alpha := vdot 8 plus_zero_zero (column V kmax)) in *.
  assert (Hv : vect_eq 8 (column V kmax) (vscale alpha plus_zero_zero)).
  { apply vect_eq_intro. intros i Hi. pose proof (eigen_equation kmax i Hk Hi) as E.
    fold alpha in E. rewrite Hw in E. unfold vscale.
    assert (E' : Cmul (RtoC a) (Csub (column V kmax i) (Cmul alpha (plus_zero_zero i)))
                 = RtoC 0).
    { rewrite RtoC_add in E.
      transitivity (Csub (Cmul (Cadd (RtoC a) (RtoC c)) (column V kmax i))
                         (Cadd (Cmul (RtoC a) (Cmul alpha (plus_zero_zero i)))
                               (Cmul (RtoC c) (column V kmax i)))).
      - ring.
      - rewrite E. ring. }
    pose proof (Cmul_real_zero _ _ E' ltac:(lra)) as Hd.
    transitivity (Cadd (Csub (column V kmax i) (Cmul alpha (plus_zero_zero i)))
                       (Cmul alpha (plus_zero_zero i))); [ring|].
    rewrite Hd. ring. }
  exists alpha. split; [|exact Hv].
  pose proof (column_unit kmax Hk) as Hn. rewrite Hv in Hn.
  rewrite vdot_scale_r in Hn. rewrite vdot_conj_sym, vdot_scale_r in Hn.
  rewrite plus_zero_zero_unit in Hn. rewrite <- Hn.
  rewrite Cconj_mul, Cconj_RtoC. ring.
Qed.
End DominantEigenvector.

(* ===================================================================== *)
(** * The round trip *)
(* ===================================================================== *)

#[global] Instance measured_proper : Proper (mat_eq 8 ==> mat_eq 8) measured.
Proof. intros A B HAB. unfold measured. rewrite HAB. reflexivity. Qed.

#[global] Instance trace_overlap_proper :
  Proper (mat_eq 8 ==> mat_eq 8 ==> eq) (trace_overlap 8).
Proof. intros A A' HA B B' HB. unfold trace_overlap. rewrite HA, HB. reflexivity. Qed.

Lemma measured_entry (rho : Matrix) (i j : nat) :
  (i < 8)%nat -> (j < 8)%nat ->
  measured rho i j
  = Cadd (Cmul (RtoC (9 / 10))
               (Cmul (if (i mod 2 =? j mod 2)%nat then RtoC 1 else RtoC 0) (rho i j)))
         (Cmul (RtoC (1 / 80)) (eye i j)).
Proof.
intros Hi Hj. unfold measured, madd, mscale.
rewrite !projector_sandwich by assumption. unfold bit0_indicator.
pose proof (Nat.mod_upper_bound i 2 ltac:(lia)) as Hmi.
pose proof (Nat.mod_upper_bound j 2 ltac:(lia)) as Hmj.
destruct (i mod 2)%nat as [|[|mi]]; [| |lia];
  (destruct (j mod 2)%nat as [|[|mj]]; [| |lia]);
  cbn [Nat.eqb INR]; destruct (rho i j); destruct (eye i j); lca.
Qed.

Lemma prepared_density_odd (i j : nat) :
  (i mod 2 =? j mod 2)%nat = false -> (i < 8)%nat -> (j < 8)%nat ->
  prepared_density i j = RtoC 0.
Proof.
intros Hp Hi Hj. revert Hp.
each_index i ltac:(each_index j
  ltac:(cbn [Nat.modulo Nat.divmod Nat.eqb fst snd Nat.sub]; intros Hp;
        first [discriminate Hp
              | cbv [prepared_density outer vconj plus_zero_zero Nat.eqb orb]; lca])).
Qed.

(** Measuring qubit 0 of the prepared state only adds the depolarizing
    term: both populated basis indices, 0 and 4, have bit 0 equal to 0. *)
Lemma measured_prepared : measured prepared_state =[8]= mixture (9 / 10) (1 / 80).
Proof.
rewrite prepared_state_entries. fold prepared_density.
apply mat_eq_intro. intros i j Hi Hj. rewrite measured_entry by assumption.
unfold mixture, madd, mscale.
destruct (i mod 2 =? j mod 2)%nat eqn:Hp.
- rewrite Cmul_1_l. reflexivity.
- rewrite (prepared_density_odd i j Hp Hi Hj). ring.
Qed.

Lemma outer_phase (alpha : complex) (u v : Vector) :
  Cmul (Cconj alpha) alpha = RtoC 1 ->
  vect_eq 8 v (vscale alpha u) ->
  outer v (vconj v) =[8]= outer u (vconj u).
Proof.
intros Ha Hv. rewrite Hv. apply mat_eq_intro. intros i j _ _.
unfold outer, vconj, vscale. rewrite Cconj_mul.
transitivity (Cmul (Cmul (Cconj alpha) alpha) (Cmul (u i) (Cconj (u j)))); [ring|].
rewrite Ha. ring.
Qed.

Lemma matvec_vscale (n : nat) (A : Matrix) (alpha : complex) (u : Vector) :
  vect_eq n (matvec n A (vscale alpha u)) (vscale alpha (matvec n A u)).
Proof.
apply vect_eq_intro. intros i _. unfold matvec, vscale.
rewrite <- Csum_scale_l. apply Csum_ext. intros k _. ring.
Qed.

#[global] Instance vscale_proper (n : nat) (alpha : complex) :
  Proper (vect_eq n ==> vect_eq n) (vscale alpha).
Proof.
intros u v Huv. apply vect_eq_intro. intros i Hi. unfold vscale.
rewrite (vect_eq_entry n _ _ i Huv Hi). reflexivity.
Qed.

(** The inverse circuit of [f_alg_inv] takes the prepared vector back to the
    all-zero basis vector. *)
Lemma cnot_0_1_plus_zero_zero :
  vect_eq 8 (matvec 8 cnot_0_1 plus_zero_zero) plus_zero_zero.
Proof.
apply vect_eq_intro. intros i Hi. rewrite matvec_cnot_0_1 by exact Hi.
each_index i ltac:(reflexivity).
Qed.

Lemma H_full_plus_zero_zero :
  vect_eq 8 (matvec 8 (H_full 3) plus_zero_zero) basis_zero.
Proof.
apply vect_eq_intro. intros i Hi.
destruct (matvec_H_full plus_zero_zero 0 ltac:(lia)) as [E0 E4].
destruct (matvec_H_full plus_zero_zero 1 ltac:(lia)) as [E1 E5].
destruct (matvec_H_full plus_zero_zero 2 ltac:(lia)) as [E2 E6].
destruct (matvec_H_full plus_zero_zero 3 ltac:(lia)) as [E3 E7].
cbn [Nat.add] in E0, E1, E2, E3, E4, E5, E6, E7.
each_index i ltac:(first [ rewrite E0 | rewrite E1 | rewrite E2 | rewrite E3
                         | rewrite E4 | rewrite E5 | rewrite E6 | rewrite E7 ];
                   cbv [plus_zero_zero basis_zero Nat.eqb orb]; sqrt2_arith).
Qed.

Lemma inverse_circuit_on_phase (alpha : complex) (v : Vector) :
  vect_eq 8 v (vscale alpha plus_zero_zero) ->
  vect_eq 8 (matvec 8 (H_full 3) (matvec 8 cnot_0_1 v)) (vscale alpha basis_zero).
Proof.
intros Hv. rewrite Hv.
rewrite (matvec_vscale 8 cnot_0_1), cnot_0_1_plus_zero_zero.
rewrite (matvec_vscale 8 (H_full 3)), H_full_plus_zero_zero. reflexivity.
Qed.

Lemma prepared_density_mixture : prepared_density =[8]= mixture 1 0.
Proof.
apply mat_eq_intro. intros i j _ _. unfold mixture, madd, mscale. ring.
Qed.

Lemma initial_state_overlap (q : Matrix) :
  q =[8]= Q initial_state -> trace_overlap 8 (Q initial_state) q = 1%R.
Proof.
intros Hq. rewrite Hq. unfold trace_overlap.
assert (E : trace 8 (matmul 8 (Q initial_state) (Q initial_state)) = RtoC 1).
{ rcompute. apply complex_eq; cbn [fst snd]; lra. }
rewrite E. unfold Cabs, Cnorm2, Cre, RtoC. cbn [fst snd].
replace (1 * 1 + 0 * 0)%R with 1%R by lra. rewrite sqrt_1. lra.
Qed.

Lemma arnold_cat_map_bits_shape (bits : list Z) :
  length (arnold_cat_map_bits bits) = length bits /\
  Forall is_bit (arnold_cat_map_bits bits).
Proof.
unfold arnold_cat_map_bits, int_to_bits. split.
- rewrite length_map, length_seq. reflexivity.
- apply List.Forall_forall. intros b Hb.
  apply in_map_iff in Hb. destruct Hb as (i & <- & _). unfold is_bit.
  pose proof (Z.land_ones (Z.shiftr (arnold_cat_int (bits_to_int 0 bits 0))
                                    (Z.of_nat i)) 1 ltac:(lia)) as E.
  change (Z.ones 1) with 1%Z in E. change (2 ^ 1)%Z with 2%Z in E. rewrite E.
  pose proof (Z.mod_pos_bound (Z.shiftr (arnold_cat_int (bits_to_int 0 bits 0))
                                        (Z.of_nat i)) 2 ltac:(lia)). lia.
Qed.

Lemma prepared_state_density : density_matrix 8 prepared_state.
Proof.
rewrite prepared_state_entries. apply density_outer. apply plus_zero_zero_unit.
Qed.

Section RoundTrip.
Context `{LinAlg} `{Rng}.

Lemma dominant_eigenvector_of_mixture (M : Matrix) (a c : R) :
  eigh_mixture_law -> (0 < a)%R -> M =[8]= mixture a c ->
  exists alpha,
    Cmul (Cconj alpha) alpha = RtoC 1 /\
    vect_eq 8 (dominant_eigenvector M) (vscale alpha plus_zero_zero).
Proof.
intros Hlaw Ha HM. destruct (Hlaw a c M HM) as [HV Hpairs].
unfold dominant_eigenvector. change DIM_HILBERT with 8%nat.
destruct (eigh M) as [w V]. cbn [fst snd] in *.
exact (dominant_of_mixture M V w a c Ha HM HV Hpairs).
Qed.

Lemma f_info_inv_value (state : SystemState) :
  length (C state) = N_BITS ->
  exists c',
    f_info_inv state =
    Ok (new_state c'
                  (outer (dominant_eigenvector (Q state))
                         (vconj (dominant_eigenvector (Q state))))
                  (morphisms_applied state ∖ {["f_info"%string]})).
Proof.
intros Hlen. destruct state as [c q tags pts]. cbn [C Q morphisms_applied] in *.
do 8 (destruct c as [|? c]; [discriminate Hlen|]).
destruct c; [|discriminate Hlen].
unfold f_info_inv. cbn -[dominant_eigenvector Z.sub Z.add Z.modulo].
eexists. reflexivity.
Qed.

Lemma morphism_4_value (state : SystemState) (n_points : nat) :
  C state <> [] -> Forall is_bit (C state) ->
  exists pts,
    morphism_4_disk_to_annulus state n_points =
    Ok (with_points (new_state (C state) (Q state)
                               (morphisms_applied state ∪ {["f_geom"%string]})) pts).
Proof.
intros Hne Hbits. unfold morphism_4_disk_to_annulus, bits_to_points.
destruct (int_base2_bits (C state) Hne Hbits) as [v ->].
cbn [mbind result_bind]. eexists. reflexivity.
Qed.

Lemma f_geom_inv_value (state : SystemState) :
  exists s', f_geom_inv state = Ok s' /\ C s' = C state /\ Q s' = Q state.
Proof. eexists. split; [reflexivity|]. cbn [Q C]. auto. Qed.

Lemma f_dyn_inv_after_evolution (state : SystemState) (q : Matrix) :
  expm_inverse_law ->
  Q state = kicked_ising_evolution q N_QUBITS J_ISING H_KICK TAU N_KICKS ->
  exists s', f_dyn_inv state = Ok s' /\ Q s' =[8]= q /\
             length (C s') = length (C state).
Proof.
intros Hlaw HQ. eexists. split; [reflexivity|]. cbn [Q C new_state]. split.
- rewrite HQ. unfold kicked_ising_evolution.
  change DIM_HILBERT with 8%nat. change (2 ^ N_QUBITS)%nat with 8%nat.
  apply conjugation_undone. apply matrix_power_inverse.
  apply floquet_step_inverse. exact Hlaw.
- rewrite fold_insert_length. apply length_replicate.
Qed.

(** C1.  The round trip.  Start from the origin state, apply f_alg, f_info
    (with any random draw [u]), f_dyn and f_geom (with any number of points),
    then the closing composition phi of the four inverses.  Every step returns
    a state, the classical component of the final state equals the origin's
    bit for bit, and its quantum component equals the origin's |000><000|
    entry by entry, so their normalised trace overlap is 1, above 0.9.  The
    library enters through its contract: [exp(iGt)] inverts [exp(-iGt)], and
    [eigh] returns orthonormal eigenpairs on the mixtures of the prepared
    state with the identity. *)
Theorem closing_isomorphism_round_trip (u : R) (n_points : nat) :
  expm_inverse_law -> eigh_mixture_law ->
  exists X_1 X_2 X_3 X_4 X_0_back,
    morphism_1_circuit_compilation initial_state = Ok X_1 /\
    morphism_2_syndrome_encoding u X_1 = Ok X_2 /\
    morphism_3_arnold_cat X_2 = Ok X_3 /\
    morphism_4_disk_to_annulus X_3 n_points = Ok X_4 /\
    phi_closing_isomorphism X_4 = Ok X_0_back /\
    C X_0_back = C initial_state /\
    Q X_0_back =[8]= Q initial_state /\
    (9 / 10 <= trace_overlap 8 (Q initial_state) (Q X_0_back))%R.
Proof.
intros Hexp Heig.
(* forward *)
pose proof (morphism_1_value initial_state) as E1.
set (X_1 := new_state prg_output prepared_state
                      (morphisms_applied initial_state ∪ {["f_alg"%string]})) in *.
destruct (morphism_2_density u X_1 eq_refl prepared_state_density)
  as (X_2 & E2 & _ & Hlen2 & HQ2).
cbn [Q X_1 new_state] in HQ2. rewrite measured_prepared in HQ2.
set (X_3 := new_state (arnold_cat_map_bits (C X_2))
                      (kicked_ising_evolution (Q X_2) N_QUBITS J_ISING H_KICK TAU N_KICKS)
                      (morphisms_applied X_2 ∪ {["f_dyn"%string]})).
assert (E3 : morphism_3_arnold_cat X_2 = Ok X_3) by reflexivity.
destruct (arnold_cat_map_bits_shape (C X_2)) as [Hlen3 Hbits3].
rewrite Hlen2 in Hlen3.
assert (Hne3 : C X_3 <> []).
{ cbn [C X_3 new_state]. intros E. rewrite E in Hlen3. discriminate Hlen3. }
destruct (morphism_4_value X_3 n_points Hne3 Hbits3) as (pts & E4).
set (X_4 := with_points (new_state (C X_3) (Q X_3)
                                   (morphisms_applied X_3 ∪ {["f_geom"%string]})) pts) in *.
(* back through f_geom_inv and f_dyn_inv *)
destruct (f_geom_inv_value X_4) as (s3 & Es3 & HCs3 & HQs3).
destruct (f_dyn_inv_after_evolution s3 (Q X_2) Hexp HQs3) as (s2 & Es2 & HQs2 & Hlens2).
rewrite HQ2 in HQs2. rewrite HCs3 in Hlens2.
change (length (C X_4)) with (length (arnold_cat_map_bits (C X_2))) in Hlens2.
rewrite Hlen3 in Hlens2.
(* f_info_inv: the dominant eigenvector is the prepared vector up to a phase *)
destruct (f_info_inv_value s2 Hlens2) as (c1 & Es1).
destruct (dominant_eigenvector_of_mixture (Q s2) (9 / 10) (1 / 80) Heig ltac:(lra) HQs2)
  as (alpha & Halpha & Hdom).
pose proof (outer_phase alpha plus_zero_zero _ Halpha Hdom) as HQ1.
fold prepared_density in HQ1. rewrite prepared_density_mixture in HQ1.
(* f_alg_inv *)
destruct (dominant_eigenvector_of_mixture _ 1 0 Heig ltac:(lra) HQ1)
  as (beta & Hbeta & Hdom1).
pose proof (inverse_circuit_on_phase beta _ Hdom1) as Hpsi.
pose proof (outer_phase beta basis_zero _ Hbeta Hpsi) as HQ0.
rewrite <- initial_state_is_outer in HQ0.
exists X_1, X_2, X_3, X_4. eexists.
split; [exact E1|]. split; [exact E2|]. split; [exact E3|]. split; [exact E4|].
split.
{ unfold phi_closing_isomorphism.
  rewrite Es3. cbn [mbind result_bind]. rewrite Es2. cbn [mbind result_bind].
  rewrite Es1. cbn [mbind result_bind]. apply f_alg_inv_value. }
cbn [Q C new_state]. split; [reflexivity|]. split; [exact HQ0|].
rewrite (initial_state_overlap _ HQ0). lra.
Qed.
End RoundTrip.

Lemma plus_basis_adjoint : adjoint plus_basis =[8]= plus_basis.
Proof.
apply mat_eq_intro. intros i j Hi Hj.
each_index i ltac:(each_index j ltac:(cbv [adjoint plus_basis Nat.eqb]; lca)).
Qed.

Lemma plus_basis_unitary : unitary 8 plus_basis.
Proof.
assert (HVV : matmul 8 (adjoint plus_basis) plus_basis =[8]= eye).
{ apply mat_eq_intro. intros k l Hk Hl.
  exact (plus_basis_columns k l Hk Hl). }
split; [exact HVV|]. rewrite plus_basis_adjoint in *. exact HVV.
Qed.

Lemma plus_zero_zero_column : vect_eq 8 plus_zero_zero (column plus_basis 0).
Proof.
apply vect_eq_intro. intros i Hi. each_index i ltac:(reflexivity).
Qed.

Lemma plus_basis_eigenvector (a c : R) (M : Matrix) (k : nat) :
  M =[8]= mixture a c -> (k < 8)%nat ->
  vect_eq 8 (matvec 8 M (column plus_basis k))
            (vscale (RtoC (if (k =? 0)%nat then a + c else c)) (column plus_basis k)).
Proof.
intros HM Hk. rewrite HM. apply vect_eq_intro. intros i Hi.
rewrite matvec_mixture by exact Hi.
rewrite (vdot_proper 8 _ _ plus_zero_zero_column _ _ (reflexivity _)).
rewrite plus_basis_columns by lia. unfold vscale, eye.
destruct k as [|k]; cbn [Nat.eqb].
- rewrite (vect_eq_entry 8 _ _ i plus_zero_zero_column Hi), RtoC_add. ring.
- ring.
Qed.

Lemma sample_eigh_mixture_law : @eigh_mixture_law sample_linalg.
Proof.
intros a c M HM. unfold eigh_eigenpairs. cbn [eigh sample_linalg fst snd].
split; [exact plus_basis_unitary|]. intros k Hk.
pose proof (plus_basis_eigenvector a c M k HM Hk) as E.
rewrite E at 2. rewrite vdot_scale_r, plus_basis_columns by assumption.
unfold eye. rewrite Nat.eqb_refl, Cmul_1_r. exact E.
Qed.

Lemma closing_isomorphism_round_trip_witness :
  exists X_1 X_2 X_3 X_4 X_0_back,
    morphism_1_circuit_compilation initial_state = Ok X_1 /\
    morphism_2_syndrome_encoding 0 X_1 = Ok X_2 /\
    morphism_3_arnold_cat (H := sample_linalg) X_2 = Ok X_3 /\
    morphism_4_disk_to_annulus (H0 := sample_rng) X_3 100 = Ok X_4 /\
    phi_closing_isomorphism (H := sample_linalg) X_4 = Ok X_0_back /\
    C X_0_back = C initial_state /\
    Q X_0_back =[8]= Q initial_state /\
    (9 / 10 <= trace_overlap 8 (Q initial_state) (Q X_0_back))%R.
Proof.
apply (@closing_isomorphism_round_trip sample_linalg sample_rng 0 100).
- exact sample_expm_inverse_law.
- exact sample_eigh_mixture_law.
Defined.

(* ===================================================================== *)
(** * Dimension checks *)
(* ===================================================================== *)

Lemma not_rejected_ok {A : Type} (a : A) : ~ rejected_as_mismatch (Ok a).
Proof. unfold rejected_as_mismatch. discriminate. Qed.

Lemma not_rejected_raise {A : Type} (e : exn) :
  e <> DimensionMismatch -> ~ rejected_as_mismatch (@Raise A e).
Proof. unfold rejected_as_mismatch. intros He E. apply He. congruence. Qed.

Lemma not_rejected_bind {A B : Type} (m : result A) (f : A -> result B) :
  ~ rejected_as_mismatch m -> (forall a, ~ rejected_as_mismatch (f a)) ->
  ~ rejected_as_mismatch (m ≫= f).
Proof.
intros Hm Hf. destruct m as [a|e]; cbn [mbind result_bind]; [apply Hf|].
unfold rejected_as_mismatch in *. intros E. apply Hm. congruence.
Qed.

Lemma not_rejected_get_item {A : Type} (l : list A) (i : nat) :
  ~ rejected_as_mismatch (get_item l i).
Proof. unfold get_item, rejected_as_mismatch. destruct (l !! i); discriminate. Qed.

Lemma not_rejected_set_item {A : Type} (l : list A) (i : nat) (v : A) :
  ~ rejected_as_mismatch (set_item l i v).
Proof.
unfold set_item, rejected_as_mismatch. destruct (i <? length l)%nat; discriminate.
Qed.

Lemma not_rejected_fold {A B : Type} (f : A -> B -> result A) (l : list B) (a : A) :
  (forall a b, ~ rejected_as_mismatch (f a b)) ->
  ~ rejected_as_mismatch (fold_result f l a).
Proof.
intros Hf. revert a. induction l as [|b l IH]; intros a; cbn [fold_result].
- apply not_rejected_ok.
- apply not_rejected_bind; [apply Hf|exact IH].
Qed.

Lemma not_rejected_projector (n q o : nat) :
  ~ rejected_as_mismatch (projector_single_qubit n q o).
Proof.
apply not_rejected_fold. intros P i. unfold projector_step.
apply not_rejected_bind; [apply not_rejected_get_item|]. intros b. apply not_rejected_ok.
Qed.

Lemma not_rejected_cnot_gate (n control target : nat) :
  ~ rejected_as_mismatch (cnot_gate n control target).
Proof.
apply not_rejected_fold. intros U i. unfold cnot_step.
apply not_rejected_bind; [apply not_rejected_get_item|]. intros bc.
destruct (bc =? 1)%nat; [|apply not_rejected_ok].
apply not_rejected_bind; [apply not_rejected_get_item|]. intros bt. apply not_rejected_ok.
Qed.

Lemma not_rejected_choice (u : R) (p_0 p_1 : float) :
  ~ rejected_as_mismatch (np_random_choice u p_0 p_1).
Proof.
unfold np_random_choice, rejected_as_mismatch.
destruct p_0; [|discriminate]. destruct p_1; [|discriminate].
destruct (_ || _); discriminate.
Qed.

Lemma not_rejected_parse (s : string) (acc : Z) :
  ~ rejected_as_mismatch (parse_binary_digits s acc).
Proof.
revert acc. induction s as [|ch s IH]; intros acc; cbn [parse_binary_digits].
- apply not_rejected_ok.
- destruct (Ascii.eqb ch "0"); [apply IH|].
  destruct (Ascii.eqb ch "1"); [apply IH|]. discriminate.
Qed.

Lemma not_rejected_int_base2 (s : string) : ~ rejected_as_mismatch (int_base2 s).
Proof.
unfold int_base2. destruct s as [|ch s]; [discriminate|].
destruct (Ascii.eqb ch "-").
- destruct s; [discriminate|].
  apply not_rejected_bind; [apply not_rejected_parse|]. intros v. apply not_rejected_ok.
- apply not_rejected_parse.
Qed.

(** The product of two arrays of the same dimension, and of two arrays of
    different dimensions. *)
Lemma np_matmul_same (A B : Shaped.ndarray) :
  Shaped.dimension A = Shaped.dimension B ->
  Shaped.np_matmul A B
  = Ok {| Shaped.dimension := Shaped.dimension A;
          Shaped.entries := matmul (Shaped.dimension A) (Shaped.entries A)
                                   (Shaped.entries B) |}.
Proof.
intros E. unfold Shaped.np_matmul. rewrite (proj2 (Nat.eqb_eq _ _) E). reflexivity.
Qed.

Lemma np_matmul_mismatch (A B : Shaped.ndarray) :
  Shaped.dimension A <> Shaped.dimension B ->
  Shaped.np_matmul A B = Raise ValueError.
Proof.
intros E. unfold Shaped.np_matmul. rewrite (proj2 (Nat.eqb_neq _ _) E). reflexivity.
Qed.

Lemma np_matvec_mismatch (A : Shaped.ndarray) (v : Shaped.ndvector) :
  Shaped.dimension A <> Shaped.len v ->
  Shaped.np_matvec A v = Raise ValueError.
Proof.
intros E. unfold Shaped.np_matvec. rewrite (proj2 (Nat.eqb_neq _ _) E). reflexivity.
Qed.

Lemma not_rejected_np_matmul (A B : Shaped.ndarray) :
  ~ rejected_as_mismatch (Shaped.np_matmul A B).
Proof.
unfold Shaped.np_matmul. destruct (_ =? _)%nat;
  [apply not_rejected_ok|apply not_rejected_raise; discriminate].
Qed.

Lemma not_rejected_np_matvec (A : Shaped.ndarray) (v : Shaped.ndvector) :
  ~ rejected_as_mismatch (Shaped.np_matvec A v).
Proof.
unfold Shaped.np_matvec. destruct (_ =? _)%nat;
  [apply not_rejected_ok|apply not_rejected_raise; discriminate].
Qed.

Lemma not_rejected_shaped_measure (u : R) (rho : Shaped.ndarray) (q n : nat) :
  ~ rejected_as_mismatch (Shaped.measure_qubit u rho q n).
Proof.
unfold Shaped.measure_qubit.
apply not_rejected_bind; [apply not_rejected_projector|]. intros P_0.
apply not_rejected_bind; [apply not_rejected_projector|]. intros P_1.
apply not_rejected_bind; [apply not_rejected_np_matmul|]. intros a0.
apply not_rejected_bind; [apply not_rejected_np_matmul|]. intros m0.
apply not_rejected_bind; [apply not_rejected_np_matmul|]. intros a1.
apply not_rejected_bind; [apply not_rejected_np_matmul|]. intros m1.
apply not_rejected_bind; [apply not_rejected_choice|]. intros o.
apply not_rejected_ok.
Qed.

(** The measurement of a quantum component whose dimension is not
    [2 ** n_qubits] stops at the first product. *)
Lemma shaped_measure_mismatch (u : R) (rho : Shaped.ndarray) :
  Shaped.dimension rho <> DIM_HILBERT ->
  Shaped.measure_qubit u rho 0 N_QUBITS = Raise ValueError.
Proof.
intros Hd. unfold Shaped.measure_qubit. change N_QUBITS with 3%nat.
destruct (projector_single_qubit_value 0 ltac:(lia)) as (P0 & -> & _).
destruct (projector_single_qubit_value 1 ltac:(lia)) as (P1 & -> & _).
cbn [mbind result_bind].
rewrite (np_matmul_mismatch (Shaped.operator 3 P0) rho); [reflexivity|].
cbn [Shaped.dimension Shaped.operator]. intros E. apply Hd. symmetry. exact E.
Qed.

Section DimensionChecks.
Context `{LinAlg} `{Shaped.LinAlgAt} `{Rng}.

Lemma not_rejected_bits_to_points (bits : list Z) (n_points : nat) :
  ~ rejected_as_mismatch (bits_to_points bits n_points).
Proof.
unfold bits_to_points.
apply not_rejected_bind; [apply not_rejected_int_base2|]. intros v. apply not_rejected_ok.
Qed.

Lemma not_rejected_dominant (q : Shaped.ndarray) :
  ~ rejected_as_mismatch (Shaped.dominant_eigenvector q).
Proof.
unfold Shaped.dominant_eigenvector. destruct (Shaped.eigh_at _ _) as [w V].
apply not_rejected_bind; [|intros k; apply not_rejected_ok].
unfold Shaped.np_argmax. destruct (_ =? 0)%nat;
  [apply not_rejected_raise; discriminate|apply not_rejected_ok].
Qed.

Lemma not_rejected_shaped_morphism_2 (u : R) (state : Shaped.State) :
  ~ rejected_as_mismatch (Shaped.morphism_2_syndrome_encoding u state).
Proof.
unfold Shaped.morphism_2_syndrome_encoding.
apply not_rejected_bind.
- apply not_rejected_fold. intros c [i syn].
  apply not_rejected_bind; [apply not_rejected_get_item|]. intros x.
  apply not_rejected_set_item.
- intros C_2. apply not_rejected_bind; [apply not_rejected_shaped_measure|].
  intros [outcome Q_2].
  apply not_rejected_bind; [apply not_rejected_set_item|]. intros c.
  apply not_rejected_ok.
Qed.

Lemma not_rejected_shaped_evolution (rho : Shaped.ndarray) (n : nat) (J h tau : R)
      (k : nat) :
  ~ rejected_as_mismatch (Shaped.kicked_ising_evolution rho n J h tau k).
Proof.
unfold Shaped.kicked_ising_evolution.
apply not_rejected_bind; [apply not_rejected_np_matmul|]. intros x.
apply not_rejected_np_matmul.
Qed.

Lemma not_rejected_shaped_morphism_3 (state : Shaped.State) :
  ~ rejected_as_mismatch (Shaped.morphism_3_arnold_cat state).
Proof.
unfold Shaped.morphism_3_arnold_cat.
apply not_rejected_bind; [apply not_rejected_shaped_evolution|].
intros q. apply not_rejected_ok.
Qed.

Lemma not_rejected_shaped_f_dyn_inv (state : Shaped.State) :
  ~ rejected_as_mismatch (Shaped.f_dyn_inv state).
Proof.
unfold Shaped.f_dyn_inv.
apply not_rejected_bind; [apply not_rejected_np_matmul|]. intros x.
apply not_rejected_bind; [apply not_rejected_np_matmul|]. intros q.
apply not_rejected_ok.
Qed.

Lemma not_rejected_shaped_f_info_inv (state : Shaped.State) :
  ~ rejected_as_mismatch (Shaped.f_info_inv state).
Proof.
unfold Shaped.f_info_inv.
apply not_rejected_bind.
- apply not_rejected_fold. intros c [i syn].
  apply not_rejected_bind; [apply not_rejected_get_item|]. intros x.
  apply not_rejected_set_item.
- intros C_inv. apply not_rejected_bind; [apply not_rejected_set_item|]. intros c.
  apply not_rejected_bind; [apply not_rejected_dominant|]. intros v.
  apply not_rejected_ok.
Qed.

Lemma not_rejected_shaped_f_alg_inv (state : Shaped.State) :
  ~ rejected_as_mismatch (Shaped.f_alg_inv state).
Proof.
unfold Shaped.f_alg_inv.
apply not_rejected_bind.
- apply not_rejected_fold. intros v target.
  apply not_rejected_bind; [apply not_rejected_cnot_gate|]. intros CNOT.
  apply not_rejected_bind; [apply not_rejected_dominant|]. intros psi.
  apply not_rejected_np_matvec.
- intros psi. apply not_rejected_bind; [apply not_rejected_np_matvec|].
  intros psi'. apply not_rejected_ok.
Qed.

Lemma not_rejected_shaped_phi (state : Shaped.State) :
  ~ rejected_as_mismatch (Shaped.phi_closing_isomorphism state).
Proof.
unfold Shaped.phi_closing_isomorphism.
apply not_rejected_bind; [apply not_rejected_ok|]. intros s3.
apply not_rejected_bind; [apply not_rejected_shaped_f_dyn_inv|]. intros s2.
apply not_rejected_bind; [apply not_rejected_shaped_f_info_inv|]. intros s1.
apply not_rejected_shaped_f_alg_inv.
Qed.

Lemma shaped_morphism_1_value (state : Shaped.State) :
  Shaped.morphism_1_circuit_compilation state
  = Ok (Shaped.new_state prg_output (Shaped.operator N_QUBITS prepared_state)
                         (Shaped.morphisms_applied state ∪ {["f_alg"%string]})).
Proof.
unfold Shaped.morphism_1_circuit_compilation.
rewrite prg_expand_seed. change N_QUBITS with 3%nat. rewrite prepare_ghz_state_3.
reflexivity.
Qed.

(** With fewer than 7 classical entries the loops of f_info and of its
    inverse, which write the entries 0, 2, 4 and 6, fail before the quantum
    component is read. *)
Lemma shaped_short_classical (u : R) (state : Shaped.State) :
  (length (Shaped.C state) < 7)%nat ->
  Shaped.morphism_2_syndrome_encoding u state = Raise IndexError /\
  Shaped.f_info_inv state = Raise IndexError.
Proof.
intros Hlen. destruct state as [c q tags pts]. cbn [Shaped.C] in Hlen.
unfold Shaped.morphism_2_syndrome_encoding, Shaped.f_info_inv.
cbn [Shaped.C Shaped.Q Shaped.morphisms_applied].
do 7 (destruct c as [|? c];
      [split; cbn -[Shaped.measure_qubit Shaped.dominant_eigenvector
                    Z.add Z.sub Z.modulo];
       reflexivity|]).
cbn [length] in Hlen. lia.
Qed.

(** With at least 7 classical entries those loops succeed. *)
Lemma classical_loop_long (op : Z -> Z -> Z) (c : list Z) :
  (7 <= length c)%nat ->
  exists c',
    fold_result (fun C_2 '(i, syn) =>
                   x ← get_item C_2 (2 * i);
                   set_item C_2 (2 * i) (op x syn))
                (enumerate (syndromes_of c)) c = Ok c' /\
    length c' = length c.
Proof.
intros Hlen. do 7 (destruct c as [|? c]; [cbn in Hlen; lia|]).
unfold syndromes_of, enumerate.
cbn [N_BITS Nat.div Nat.divmod fst seq map length zip zip_with fold_result].
cbn [get_item lookup list_lookup Nat.mul Nat.add mbind result_bind].
unfold set_item. cbn [length Nat.ltb Nat.leb mbind result_bind insert list_insert].
eexists. split; [reflexivity|]. cbn [length]. reflexivity.
Qed.

Lemma shaped_morphism_2_mismatch (u : R) (state : Shaped.State) :
  (7 <= length (Shaped.C state))%nat ->
  Shaped.dimension (Shaped.Q state) <> DIM_HILBERT ->
  Shaped.morphism_2_syndrome_encoding u state = Raise ValueError.
Proof.
intros Hlen Hd. unfold Shaped.morphism_2_syndrome_encoding.
destruct (classical_loop_long (fun x syn => ((x + syn) mod 2)%Z) _ Hlen) as (c' & -> & _).
cbn [mbind result_bind]. rewrite shaped_measure_mismatch by exact Hd. reflexivity.
Qed.

Lemma shaped_evolution_mismatch (rho : Shaped.ndarray) (J h tau : R) (k : nat) :
  Shaped.dimension rho <> DIM_HILBERT ->
  Shaped.kicked_ising_evolution rho N_QUBITS J h tau k = Raise ValueError.
Proof.
intros Hd. unfold Shaped.kicked_ising_evolution.
rewrite np_matmul_mismatch; [reflexivity|].
cbn [Shaped.dimension Shaped.operator]. intros E. apply Hd. symmetry. exact E.
Qed.

Lemma shaped_f_dyn_inv_mismatch (state : Shaped.State) :
  Shaped.dimension (Shaped.Q state) <> DIM_HILBERT ->
  Shaped.f_dyn_inv state = Raise ValueError.
Proof.
intros Hd. unfold Shaped.f_dyn_inv.
rewrite np_matmul_mismatch; [reflexivity|].
cbn [Shaped.dimension Shaped.operator]. intros E. apply Hd. symmetry. exact E.
Qed.

Lemma shaped_f_alg_inv_mismatch (state : Shaped.State) :
  Shaped.dimension (Shaped.Q state) <> DIM_HILBERT ->
  Shaped.f_alg_inv state = Raise ValueError.
Proof.
intros Hd. unfold Shaped.f_alg_inv. change N_QUBITS with 3%nat.
cbn [rev seq Nat.sub app fold_result]. rewrite cnot_gate_0_2.
cbn [mbind result_bind]. unfold Shaped.dominant_eigenvector.
destruct (Shaped.eigh_at _ _) as [w V]. unfold Shaped.np_argmax.
destruct (Shaped.dimension (Shaped.Q state) =? 0)%nat eqn:E0; [reflexivity|].
cbn [mbind result_bind].
rewrite np_matvec_mismatch; [reflexivity|].
cbn [Shaped.dimension Shaped.operator Shaped.len]. intros E. apply Hd. symmetry. exact E.
Qed.

(** The inverse of f_info takes a quantum component of any dimension but 0
    and returns one of the same dimension. *)
Lemma shaped_f_info_inv_any_dimension (state : Shaped.State) :
  (7 <= length (Shaped.C state))%nat ->
  (1 <= Shaped.dimension (Shaped.Q state))%nat ->
  exists s', Shaped.f_info_inv state = Ok s' /\
             Shaped.dimension (Shaped.Q s') = Shaped.dimension (Shaped.Q state).
Proof.
intros Hlen Hd. unfold Shaped.f_info_inv.
destruct (classical_loop_long (fun x syn => ((x - syn) mod 2)%Z) _ Hlen)
  as (c' & -> & Hc').
cbn [mbind result_bind]. unfold set_item.
assert (Hlt : (0 <? length c')%nat = true) by (apply Nat.ltb_lt; lia).
rewrite Hlt. cbn [mbind result_bind]. unfold Shaped.dominant_eigenvector.
destruct (Shaped.eigh_at _ _) as [w V]. unfold Shaped.np_argmax.
destruct (Nat.eqb_spec (Shaped.dimension (Shaped.Q state)) 0) as [E|_]; [lia|].
cbn [mbind result_bind]. eexists. split; [reflexivity|]. reflexivity.
Qed.

Lemma shaped_circuit_depth_proxy_ok (rho : Shaped.ndarray) (n : nat) :
  exists x, Shaped.circuit_depth_proxy rho n = Ok x.
Proof.
unfold Shaped.circuit_depth_proxy. rewrite np_matmul_same by reflexivity.
cbn [mbind result_bind]. eexists. reflexivity.
Qed.

(** C8, as the code has it.  No morphism and no pillar function checks a
    dimension, and the error DimensionMismatch is raised nowhere: on every
    composite state, whatever the length of its classical component and
    whatever the dimension of its (square) quantum component, none of the
    nine morphisms and none of the four pillar functions is rejected with it.
    What happens instead:
    - a classical component of fewer than 7 entries makes f_info and the
      inverse of f_info raise IndexError;
    - a quantum component of a dimension other than 8 makes f_dyn, the
      inverse of f_dyn and the closing isomorphism raise numpy's ValueError
      at the product with an 8 by 8 array, and f_info as well once its
      classical loop has passed; the inverse of f_alg raises ValueError at
      its product with the gate; the inverse of f_info accepts the state and
      returns a quantum component of that dimension;
    - f_alg and the inverse of f_geom return a result for every state, the
      pillars C_alg, C_info and C_dyn for every dimension of the quantum
      component.
    Where the eigenvalue routines of the library are called on an array of
    dimension 0, nothing is stated. *)
Theorem no_dimension_check (u : R) (n_points : nat) (a : R) (state : Shaped.State) :
  Forall (fun f : Shaped.State -> result Shaped.State =>
            ~ rejected_as_mismatch (f state))
         [ Shaped.morphism_1_circuit_compilation;
           Shaped.morphism_2_syndrome_encoding u;
           Shaped.morphism_3_arnold_cat;
           (fun s => Shaped.morphism_4_disk_to_annulus s n_points);
           Shaped.phi_closing_isomorphism;
           Shaped.f_geom_inv; Shaped.f_dyn_inv; Shaped.f_info_inv;
           Shaped.f_alg_inv ] /\
  Forall (fun g : Shaped.State -> result float =>
            ~ rejected_as_mismatch (g state))
         [ Shaped.compute_C_alg; Shaped.compute_C_info; Shaped.compute_C_dyn;
           (fun s => Shaped.compute_C_geom s a) ] /\
  (if (length (Shaped.C state) <? 7)%nat
   then Shaped.morphism_2_syndrome_encoding u state = Raise IndexError /\
        Shaped.f_info_inv state = Raise IndexError
   else True) /\
  (if (Shaped.dimension (Shaped.Q state) =? DIM_HILBERT)%nat
   then True
   else Shaped.morphism_3_arnold_cat state = Raise ValueError /\
        Shaped.f_dyn_inv state = Raise ValueError /\
        Shaped.phi_closing_isomorphism state = Raise ValueError /\
        (if (length (Shaped.C state) <? 7)%nat
         then True
         else Shaped.morphism_2_syndrome_encoding u state = Raise ValueError) /\
        (if (Shaped.dimension (Shaped.Q state) =? 0)%nat
         then True
         else Shaped.f_alg_inv state = Raise ValueError /\
              (if (length (Shaped.C state) <? 7)%nat
               then True
               else exists s',
                      Shaped.f_info_inv state = Ok s' /\
                      Shaped.dimension (Shaped.Q s')
                      = Shaped.dimension (Shaped.Q state)))) /\
  Forall (fun f : Shaped.State -> result Shaped.State => exists s', f state = Ok s')
         [ Shaped.morphism_1_circuit_compilation; Shaped.f_geom_inv ] /\
  (if (Shaped.dimension (Shaped.Q state) =? 0)%nat
   then True
   else Forall (fun g : Shaped.State -> result float => exists x, g state = Ok x)
               [ Shaped.compute_C_alg; Shaped.compute_C_info; Shaped.compute_C_dyn ]).
Proof.
split; [|split; [|split; [|split; [|split]]]].
- repeat first [apply List.Forall_cons | apply List.Forall_nil].
  + rewrite shaped_morphism_1_value. apply not_rejected_ok.
  + apply not_rejected_shaped_morphism_2.
  + apply not_rejected_shaped_morphism_3.
  + unfold Shaped.morphism_4_disk_to_annulus.
    apply not_rejected_bind; [apply not_rejected_bits_to_points|].
    intros pts. apply not_rejected_ok.
  + apply not_rejected_shaped_phi.
  + apply not_rejected_ok.
  + apply not_rejected_shaped_f_dyn_inv.
  + apply not_rejected_shaped_f_info_inv.
  + apply not_rejected_shaped_f_alg_inv.
- repeat first [apply List.Forall_cons | apply List.Forall_nil].
  + unfold Shaped.compute_C_alg.
    destruct (shaped_circuit_depth_proxy_ok (Shaped.Q state) N_QUBITS) as [x ->].
    apply not_rejected_ok.
  + unfold Shaped.compute_C_info. rewrite np_matmul_same by reflexivity.
    apply not_rejected_ok.
  + apply not_rejected_ok.
  + unfold Shaped.compute_C_geom. apply not_rejected_bind.
    * destruct (Shaped._points state);
        [apply not_rejected_ok|apply not_rejected_bits_to_points].
    * intros pts. apply not_rejected_ok.
- destruct (Nat.ltb_spec (length (Shaped.C state)) 7) as [Hlt|_]; [|exact I].
  apply shaped_short_classical. exact Hlt.
- destruct (Nat.eqb_spec (Shaped.dimension (Shaped.Q state)) DIM_HILBERT) as [_|Hd];
    [exact I|].
  split; [|split; [|split; [|split]]].
  + unfold Shaped.morphism_3_arnold_cat.
    rewrite shaped_evolution_mismatch by exact Hd. reflexivity.
  + apply shaped_f_dyn_inv_mismatch. exact Hd.
  + unfold Shaped.phi_closing_isomorphism, Shaped.f_geom_inv.
    cbn [mbind result_bind].
    rewrite shaped_f_dyn_inv_mismatch by exact Hd. reflexivity.
  + destruct (Nat.ltb_spec (length (Shaped.C state)) 7) as [_|Hlen]; [exact I|].
    apply shaped_morphism_2_mismatch; assumption.
  + destruct (Nat.eqb_spec (Shaped.dimension (Shaped.Q state)) 0) as [_|Hd0]; [exact I|].
    split; [apply shaped_f_alg_inv_mismatch; exact Hd|].
    destruct (Nat.ltb_spec (length (Shaped.C state)) 7) as [_|Hlen]; [exact I|].
    apply shaped_f_info_inv_any_dimension; lia.
- repeat first [apply List.Forall_cons | apply List.Forall_nil].
  + eexists. apply shaped_morphism_1_value.
  + eexists. reflexivity.
- destruct (Nat.eqb_spec (Shaped.dimension (Shaped.Q state)) 0) as [_|Hd0]; [exact I|].
  repeat first [apply List.Forall_cons | apply List.Forall_nil].
  + unfold Shaped.compute_C_alg.
    destruct (shaped_circuit_depth_proxy_ok (Shaped.Q state) N_QUBITS) as [x ->].
    eexists. reflexivity.
  + unfold Shaped.compute_C_info. rewrite np_matmul_same by reflexivity.
    eexists. reflexivity.
  + eexists. reflexivity.
Qed.
End DimensionChecks.

(** C8, as stated, fails on both kinds of misfit.  [short_classical_state]
    has a classical component of length 2: on it f_alg returns its result,
    C_info returns a number and f_info fails with IndexError.
    [one_qubit_state] has a quantum component of dimension 2: on it f_dyn
    fails with ValueError, C_info returns a number and the inverse of f_info
    returns a state whose quantum component has dimension 2.  None of them is
    rejected with DimensionMismatch. *)
Lemma dimension_check_counterexample :
  (length (Shaped.C short_classical_state) <> N_BITS /\
   (exists s', Shaped.morphism_1_circuit_compilation short_classical_state = Ok s') /\
   (exists x, Shaped.compute_C_info (H0 := sample_linalg_at) short_classical_state
              = Ok (Some x)) /\
   Shaped.morphism_2_syndrome_encoding 0 short_classical_state = Raise IndexError /\
   ~ rejected_as_mismatch (Shaped.morphism_1_circuit_compilation short_classical_state) /\
   ~ rejected_as_mismatch
       (Shaped.compute_C_info (H0 := sample_linalg_at) short_classical_state) /\
   ~ rejected_as_mismatch (Shaped.morphism_2_syndrome_encoding 0 short_classical_state)) /\
  (Shaped.dimension (Shaped.Q one_qubit_state) <> DIM_HILBERT /\
   Shaped.morphism_3_arnold_cat (H := sample_linalg) one_qubit_state = Raise ValueError /\
   (exists x, Shaped.compute_C_info (H0 := sample_linalg_at) one_qubit_state
              = Ok (Some x)) /\
   (exists s', Shaped.f_info_inv (H0 := sample_linalg_at) one_qubit_state = Ok s' /\
               Shaped.dimension (Shaped.Q s') = 2%nat) /\
   ~ rejected_as_mismatch
       (Shaped.morphism_3_arnold_cat (H := sample_linalg) one_qubit_state) /\
   ~ rejected_as_mismatch
       (Shaped.compute_C_info (H0 := sample_linalg_at) one_qubit_state) /\
   ~ rejected_as_mismatch (Shaped.f_info_inv (H0 := sample_linalg_at) one_qubit_state)).
Proof.
assert (Einfo : forall state,
           exists x, Shaped.compute_C_info (H0 := sample_linalg_at) state = Ok (Some x)).
{ intros state. unfold Shaped.compute_C_info. rewrite np_matmul_same by reflexivity.
  eexists. reflexivity. }
split.
- assert (E2 : Shaped.morphism_2_syndrome_encoding 0 short_classical_state
               = Raise IndexError).
  { apply (shaped_short_classical (H0 := sample_linalg_at) 0 short_classical_state).
    cbn. lia. }
  split; [cbn; discriminate|].
  split; [eexists; apply shaped_morphism_1_value|].
  split; [apply Einfo|].
  split; [exact E2|].
  split; [rewrite shaped_morphism_1_value; apply not_rejected_ok|].
  split.
  + destruct (Einfo short_classical_state) as [x ->]. apply not_rejected_ok.
  + rewrite E2. apply not_rejected_raise. discriminate.
- assert (Hd : Shaped.dimension (Shaped.Q one_qubit_state) <> DIM_HILBERT)
    by (cbn; discriminate).
  assert (E3 : Shaped.morphism_3_arnold_cat (H := sample_linalg) one_qubit_state
               = Raise ValueError).
  { unfold Shaped.morphism_3_arnold_cat.
    rewrite shaped_evolution_mismatch by exact Hd. reflexivity. }
  destruct (shaped_f_info_inv_any_dimension (H0 := sample_linalg_at) one_qubit_state)
    as (s' & Es' & Hs'); [cbn; lia|cbn; lia|].
  split; [exact Hd|].
  split; [exact E3|].
  split; [apply Einfo|].
  split; [exists s'; split; [exact Es'|exact Hs']|].
  split; [rewrite E3; apply not_rejected_raise; discriminate|].
  split.
  + destruct (Einfo one_qubit_state) as [x ->]. apply not_rejected_ok.
  + rewrite Es'. apply not_rejected_ok.
Qed.

(* ===================================================================== *)
(** * The functions that carry dimensions agree with the others *)
(* ===================================================================== *)

Lemma shaped_measure_agrees (u : R) (rho : Matrix) (q n : nat) :
  Shaped.measure_qubit u {| Shaped.dimension := 2 ^ n; Shaped.entries := rho |} q n
  = result_map (fun '(outcome, rho') =>
                  (outcome, {| Shaped.dimension := 2 ^ n; Shaped.entries := rho' |}))
               (measure_qubit u rho q n).
Proof.
unfold Shaped.measure_qubit, measure_qubit.
destruct (projector_single_qubit n q 0) as [P0|e]; [|reflexivity].
destruct (projector_single_qubit n q 1) as [P1|e]; [|reflexivity].
cbn [mbind result_bind].
rewrite (np_matmul_same (Shaped.operator n P0)) by reflexivity. cbn [mbind result_bind].
rewrite (np_matmul_same _ (Shaped.operator n P0)) by reflexivity. cbn [mbind result_bind].
rewrite (np_matmul_same (Shaped.operator n P1)) by reflexivity. cbn [mbind result_bind].
rewrite (np_matmul_same _ (Shaped.operator n P1)) by reflexivity. cbn [mbind result_bind].
cbn [Shaped.dimension Shaped.entries Shaped.operator].
destruct (np_random_choice u _ _) as [o|e]; reflexivity.
Qed.

Section Agreement.
Context `{LinAlg} `{Shaped.LinAlgAt} `{Rng}.

Lemma shaped_dominant_agrees (q : Matrix) :
  routines_agree ->
  Shaped.dominant_eigenvector {| Shaped.dimension := DIM_HILBERT; Shaped.entries := q |}
  = Ok {| Shaped.len := DIM_HILBERT; Shaped.items := dominant_eigenvector q |}.
Proof.
intros [Heigh _]. unfold Shaped.dominant_eigenvector, dominant_eigenvector.
cbn [Shaped.dimension Shaped.entries]. rewrite Heigh.
destruct (eigh q) as [w V]. reflexivity.
Qed.

Lemma shaped_morphism_2_agrees (u : R) (s : SystemState) :
  Shaped.morphism_2_syndrome_encoding u (shaped s)
  = result_map shaped (morphism_2_syndrome_encoding u s).
Proof.
unfold Shaped.morphism_2_syndrome_encoding, morphism_2_syndrome_encoding.
cbn [Shaped.C Shaped.Q Shaped.morphisms_applied shaped].
destruct (fold_result _ _ _) as [c2|e]; [|reflexivity].
cbn [mbind result_bind].
change DIM_HILBERT with (2 ^ N_QUBITS)%nat. rewrite shaped_measure_agrees.
destruct (measure_qubit u (Q s) 0 N_QUBITS) as [[o rho']|e]; [|reflexivity].
cbn [result_map mbind result_bind].
destruct (set_item c2 0 o) as [c3|e]; reflexivity.
Qed.

Lemma shaped_morphism_3_agrees (s : SystemState) :
  Shaped.morphism_3_arnold_cat (shaped s) = result_map shaped (morphism_3_arnold_cat s).
Proof.
unfold Shaped.morphism_3_arnold_cat, morphism_3_arnold_cat,
  Shaped.kicked_ising_evolution.
cbn [Shaped.C Shaped.Q Shaped.morphisms_applied shaped].
rewrite np_matmul_same by reflexivity. cbn [mbind result_bind].
rewrite np_matmul_same by reflexivity. reflexivity.
Qed.

Lemma shaped_f_dyn_inv_agrees (s : SystemState) :
  Shaped.f_dyn_inv (shaped s) = result_map shaped (f_dyn_inv s).
Proof.
unfold Shaped.f_dyn_inv, f_dyn_inv.
cbn [Shaped.C Shaped.Q Shaped.morphisms_applied shaped].
rewrite np_matmul_same by reflexivity. cbn [mbind result_bind].
rewrite np_matmul_same by reflexivity. reflexivity.
Qed.

Lemma shaped_f_info_inv_agrees (s : SystemState) :
  routines_agree ->
  Shaped.f_info_inv (shaped s) = result_map shaped (f_info_inv s).
Proof.
intros Hagree. unfold Shaped.f_info_inv, f_info_inv.
cbn [Shaped.C Shaped.Q Shaped.morphisms_applied shaped].
destruct (fold_result _ _ _) as [c2|e]; [|reflexivity].
cbn [mbind result_bind].
destruct (set_item c2 0 0%Z) as [c3|e]; [|reflexivity].
cbn [mbind result_bind]. rewrite (shaped_dominant_agrees (Q s) Hagree). reflexivity.
Qed.

Lemma shaped_f_alg_inv_agrees (s : SystemState) :
  routines_agree ->
  Shaped.f_alg_inv (shaped s) = result_map shaped (f_alg_inv s).
Proof.
intros Hagree. rewrite f_alg_inv_value. unfold Shaped.f_alg_inv.
change N_QUBITS with 3%nat.
cbn [rev seq Nat.sub app fold_result Shaped.Q shaped].
rewrite cnot_gate_0_2, cnot_gate_0_1. cbn [mbind result_bind].
rewrite (shaped_dominant_agrees (Q s) Hagree). cbn [mbind result_bind].
unfold Shaped.np_matvec.
cbn [Shaped.dimension Shaped.operator Shaped.len Shaped.items].
change (2 ^ 3 =? DIM_HILBERT)%nat with true. cbv iota. cbn [mbind result_bind].
cbn [Shaped.dimension Shaped.operator Shaped.len Shaped.items].
change (2 ^ 3 =? 2 ^ 3)%nat with true. cbv iota. reflexivity.
Qed.

(** On every state with an 8 by 8 quantum component, each morphism and each
    pillar function of [Shaped] returns what the function of the same name
    above returns, provided the eigenvalue routines are the same at the
    dimension 8. *)
Lemma shaped_agrees (u : R) (n_points : nat) (a : R) (s : SystemState) :
  routines_agree ->
  Shaped.morphism_1_circuit_compilation (shaped s)
  = result_map shaped (morphism_1_circuit_compilation s) /\
  Shaped.morphism_2_syndrome_encoding u (shaped s)
  = result_map shaped (morphism_2_syndrome_encoding u s) /\
  Shaped.morphism_3_arnold_cat (shaped s)
  = result_map shaped (morphism_3_arnold_cat s) /\
  Shaped.morphism_4_disk_to_annulus (shaped s) n_points
  = result_map shaped (morphism_4_disk_to_annulus s n_points) /\
  Shaped.f_geom_inv (shaped s) = result_map shaped (f_geom_inv s) /\
  Shaped.f_dyn_inv (shaped s) = result_map shaped (f_dyn_inv s) /\
  Shaped.f_info_inv (shaped s) = result_map shaped (f_info_inv s) /\
  Shaped.f_alg_inv (shaped s) = result_map shaped (f_alg_inv s) /\
  Shaped.phi_closing_isomorphism (shaped s)
  = result_map shaped (phi_closing_isomorphism s) /\
  Shaped.compute_C_alg (shaped s) = compute_C_alg s /\
  Shaped.compute_C_info (shaped s) = compute_C_info s /\
  Shaped.compute_C_dyn (shaped s) = compute_C_dyn s /\
  Shaped.compute_C_geom (shaped s) a = compute_C_geom s a.
Proof.
intros Hagree.
split; [rewrite morphism_1_value, shaped_morphism_1_value; reflexivity|].
split; [apply shaped_morphism_2_agrees|].
split; [apply shaped_morphism_3_agrees|].
split.
{ unfold Shaped.morphism_4_disk_to_annulus, morphism_4_disk_to_annulus.
  cbn [Shaped.C shaped]. destruct (bits_to_points (C s) n_points); reflexivity. }
split; [reflexivity|].
split; [apply shaped_f_dyn_inv_agrees|].
split; [apply shaped_f_info_inv_agrees; exact Hagree|].
split; [apply shaped_f_alg_inv_agrees; exact Hagree|].
split.
{ unfold Shaped.phi_closing_isomorphism, phi_closing_isomorphism.
  change (Shaped.f_geom_inv (shaped s)) with (result_map shaped (f_geom_inv s)).
  destruct (f_geom_inv s) as [s3|e]; [|reflexivity]. cbn [result_map mbind result_bind].
  rewrite shaped_f_dyn_inv_agrees.
  destruct (f_dyn_inv s3) as [s2|e]; [|reflexivity]. cbn [result_map mbind result_bind].
  rewrite (shaped_f_info_inv_agrees s2 Hagree).
  destruct (f_info_inv s2) as [s1|e]; [|reflexivity]. cbn [result_map mbind result_bind].
  apply shaped_f_alg_inv_agrees. exact Hagree. }
destruct Hagree as [_ Hvals].
split.
{ unfold Shaped.compute_C_alg, Shaped.circuit_depth_proxy, compute_C_alg,
    circuit_depth_proxy.
  rewrite np_matmul_same by reflexivity. cbn [mbind result_bind].
  cbn [Shaped.C Shaped.Q Shaped.dimension Shaped.entries shaped].
  rewrite Hvals. reflexivity. }
split.
{ unfold Shaped.compute_C_info, compute_C_info.
  rewrite np_matmul_same by reflexivity. cbn [mbind result_bind].
  cbn [Shaped.C Shaped.Q Shaped.dimension Shaped.entries shaped].
  rewrite Hvals. reflexivity. }
split.
{ unfold Shaped.compute_C_dyn, compute_C_dyn.
  cbn [Shaped.C Shaped.Q Shaped.dimension Shaped.entries shaped].
  rewrite Hvals. reflexivity. }
reflexivity.
Qed.
End Agreement.

Lemma sample_routines_agree :
  @routines_agree sample_linalg sample_linalg_at.
Proof. split; intros M; reflexivity. Qed.

(* ===================================================================== *)
(** * The shift register *)
(* ===================================================================== *)

Lemma lxor_cancel_l (x y : Z) : Z.lxor x (Z.lxor y x) = y.
Proof. rewrite (Z.lxor_comm y x), <- Z.lxor_assoc, Z.lxor_nilpotent. apply Z.lxor_0_l. Qed.

Lemma lxor_cancel_r (x y : Z) : Z.lxor (Z.lxor y x) y = x.
Proof. rewrite (Z.lxor_comm y x), Z.lxor_assoc, Z.lxor_nilpotent. apply Z.lxor_0_r. Qed.

Lemma prg_loop_cycle (n : nat) (x y : Z) (output : list Z) :
  prg_loop n [x; y; Z.lxor y x; x] output
  = Ok (output ++ periodic3 x y (Z.lxor y x) n).
Proof.
revert x y output. induction n as [|n IH]; intros x y output.
- cbn. rewrite app_nil_r. reflexivity.
- cbn [prg_loop prg_step get_item set_item roll_left lookup list_lookup mbind
       result_bind app length Nat.sub Nat.ltb Nat.leb insert list_insert periodic3].
  rewrite lxor_cancel_l.
  pose proof (IH y (Z.lxor y x) (output ++ [x])) as E.
  rewrite lxor_cancel_r in E. rewrite E, <- app_assoc. reflexivity.
Qed.

Lemma prg_step_long (state : list Z) :
  (4 <= length state)%nat ->
  exists out state', prg_step state = Ok (out, state') /\ length state' = length state.
Proof.
intros Hlen. do 4 (destruct state as [|? state]; [cbn in Hlen; lia|]).
unfold prg_step. cbn [get_item lookup list_lookup mbind result_bind roll_left].
unfold set_item.
assert (Hl : (length ((z0 :: z1 :: z2 :: state) ++ [z]) - 1
              < length ((z0 :: z1 :: z2 :: state) ++ [z]))%nat).
{ rewrite length_app. cbn. lia. }
apply Nat.ltb_lt in Hl. rewrite Hl. cbn [mbind result_bind].
eexists. eexists. split; [reflexivity|].
rewrite length_insert, length_app. cbn. lia.
Qed.

Lemma prg_loop_long (n : nat) (state output : list Z) :
  (4 <= length state)%nat ->
  exists out, prg_loop n state output = Ok out /\ length out = (length output + n)%nat.
Proof.
revert state output. induction n as [|n IH]; intros state output Hlen.
- exists output. split; [reflexivity|lia].
- destruct (prg_step_long state Hlen) as (o & st' & E & Hl).
  cbn [prg_loop]. rewrite E. cbn [mbind result_bind].
  destruct (IH st' (output ++ [o]) ltac:(lia)) as (out & E' & Hout).
  exists out. split; [exact E'|]. rewrite Hout, length_app. cbn. lia.
Qed.

(** X1. For a four-entry seed the output of [prg_expand] is the first two
    seed entries followed by the sequence of period three
    seed[2], seed[3], seed[3] xor seed[2], whatever the seed and the length. *)
Theorem prg_expand_period_three (s0 s1 s2 s3 : Z) (n : nat) :
  prg_expand [s0; s1; s2; s3] n
  = Ok (take n (s0 :: s1 :: periodic3 s2 s3 (Z.lxor s3 s2) (n - 2))).
Proof.
unfold prg_expand. destruct n as [|[|n]]; [reflexivity|reflexivity|].
replace (S (S n) - 2)%nat with n by lia.
cbn [prg_loop prg_step get_item set_item roll_left lookup list_lookup mbind
     result_bind app length Nat.sub Nat.ltb Nat.leb insert list_insert].
rewrite lxor_cancel_r. rewrite prg_loop_cycle.
cbn [app take].
f_equal. f_equal. f_equal.
assert (Hlen : forall a b c, length (periodic3 a b c n) = n).
{ clear. induction n as [|n IH]; intros a b c; cbn; [reflexivity|]. rewrite IH. reflexivity. }
rewrite take_ge; [reflexivity|]. rewrite Hlen. lia.
Qed.

(** X2. With a seed of at least four entries [prg_expand] returns exactly
    [target_length] entries. *)
Theorem prg_expand_length (seed : list Z) (target_length : nat) :
  (4 <= length seed)%nat ->
  exists out, prg_expand seed target_length = Ok out /\ length out = target_length.
Proof.
intros Hlen. destruct (prg_loop_long target_length seed [] Hlen) as (out & E & Hout).
exists out. split; [exact E|]. exact Hout.
Qed.

Lemma prg_expand_length_witness :
  exists out, prg_expand [1; 0; 0; 1; 1]%Z 6 = Ok out /\ length out = 6%nat.
Proof. apply (prg_expand_length [1; 0; 0; 1; 1]%Z 6). cbn. lia. Defined.

(** X3. A seed of fewer than four entries makes [prg_expand] raise
    [IndexError] as soon as one output entry is asked for. *)
Theorem prg_expand_short_seed (seed : list Z) (target_length : nat) :
  (length seed < 4)%nat -> (0 < target_length)%nat ->
  prg_expand seed target_length = Raise IndexError.
Proof.
intros Hlen Hn. destruct target_length as [|n]; [lia|].
unfold prg_expand. cbn [prg_loop].
do 4 (destruct seed as [|? seed]; [reflexivity|]). cbn in Hlen. lia.
Qed.

Lemma prg_expand_short_seed_witness : prg_expand [0; 1; 1]%Z 8 = Raise IndexError.
Proof. apply (prg_expand_short_seed [0; 1; 1]%Z 8); cbn; lia. Defined.

(* ===================================================================== *)
(** * What the morphisms do to the classical component *)
(* ===================================================================== *)

Lemma add_parity_bit (x y : Z) :
  is_bit x -> is_bit y -> ((x + (x + (y + 0)) mod 2) mod 2 = y)%Z.
Proof. intros [-> | ->] [-> | ->]; reflexivity. Qed.

Lemma sub_parity_bit (x y : Z) :
  is_bit x -> is_bit y -> ((x - (x + (y + 0)) mod 2) mod 2 = y)%Z.
Proof. intros [-> | ->] [-> | ->]; reflexivity. Qed.

Ltac eight_entries c Hlen :=
  do 8 (destruct c as [|? c]; [discriminate Hlen|]);
  destruct c; [|discriminate Hlen].

Ltac eight_bits Hbits :=
  repeat match goal with
         | Hb : Forall is_bit (_ :: _) |- _ =>
             let b := fresh "Hb" in
             let t := fresh "Ht" in
             apply List.Forall_cons_iff in Hb; destruct Hb as [b t]
         end.

Section ClassicalActions.
Context `{LinAlg}.

(** X4. On a valid state [morphism_2_syndrome_encoding] stores the
    measurement outcome at position 0, copies each odd-position bit onto the
    even position before it (positions 2, 4, 6) and leaves the odd positions
    as they were. *)
Theorem morphism_2_classical_action (u : R) (state : SystemState) :
  length (C state) = N_BITS -> Forall is_bit (C state) ->
  density_matrix 8 (Q state) ->
  exists s' outcome,
    morphism_2_syndrome_encoding u state = Ok s' /\ is_bit outcome /\
    C s' = [outcome; item (C state) 1; item (C state) 3; item (C state) 3;
            item (C state) 5; item (C state) 5; item (C state) 7; item (C state) 7] /\
    morphisms_applied s' = morphisms_applied state ∪ {["f_info"%string]}.
Proof.
intros Hlen Hbits Hq. destruct state as [c q tags pts]. cbn [C Q morphisms_applied] in *.
destruct (measure_qubit_density u q Hq) as (o & rho' & E & Ho & _).
eight_entries c Hlen. eight_bits Hbits.
unfold morphism_2_syndrome_encoding. change N_QUBITS with 3%nat.
cbn -[measure_qubit Z.add Z.modulo]. rewrite E. cbn -[Z.add Z.modulo].
eexists. exists o. split; [reflexivity|]. split; [exact Ho|].
cbn [C morphisms_applied new_state]. split; [|reflexivity].
unfold parity, slice2. cbn [drop take np_sum_Z fold_right].
rewrite !add_parity_bit by assumption. reflexivity.
Qed.

(** X5. [f_info_inv] writes 0 at position 0, copies each odd-position bit
    onto the even position before it (positions 2, 4, 6) and leaves the odd
    positions as they were: on the even positions it repeats what the
    encoding did instead of undoing it. *)
Theorem f_info_inv_classical_action (state : SystemState) :
  length (C state) = N_BITS -> Forall is_bit (C state) ->
  exists s',
    f_info_inv state = Ok s' /\
    C s' = [0%Z; item (C state) 1; item (C state) 3; item (C state) 3;
            item (C state) 5; item (C state) 5; item (C state) 7; item (C state) 7] /\
    morphisms_applied s' = morphisms_applied state ∖ {["f_info"%string]}.
Proof.
intros Hlen Hbits. destruct state as [c q tags pts]. cbn [C Q morphisms_applied] in *.
eight_entries c Hlen. eight_bits Hbits.
unfold f_info_inv. cbn -[Z.sub Z.add Z.modulo dominant_eigenvector].
eexists. split; [reflexivity|].
cbn [C morphisms_applied new_state]. split; [|reflexivity].
unfold parity, slice2. cbn [drop take np_sum_Z fold_right].
rewrite !sub_parity_bit by assumption. reflexivity.
Qed.

(** X6. The classical half of [f_dyn_inv] on eight entries: the parities of
    the cyclic neighbourhoods are scattered to the positions
    0, 2, 5, 7, 2, 4, 7, 1, so positions 3 and 6 of the result are always 0
    and the parities of the neighbourhoods 1 and 3 are overwritten. *)
Theorem f_dyn_inv_classical_action (state : SystemState) :
  length (C state) = N_BITS ->
  exists s',
    f_dyn_inv state = Ok s' /\
    C s' = [neighbour_parity (C state) 0; neighbour_parity (C state) 7;
            neighbour_parity (C state) 4; 0%Z;
            neighbour_parity (C state) 5; neighbour_parity (C state) 2;
            0%Z; neighbour_parity (C state) 6].
Proof.
intros Hlen. destruct state as [c q tags pts]. cbn [C Q morphisms_applied] in *.
eight_entries c Hlen.
eexists. split; [reflexivity|]. cbn [C new_state].
cbn -[Z.add Z.modulo]. reflexivity.
Qed.

End ClassicalActions.

Lemma morphism_2_classical_action_witness :
  exists s' outcome,
    morphism_2_syndrome_encoding (5 / 10) initial_state = Ok s' /\
    is_bit outcome /\
    C s' = [outcome; 0; 0; 0; 0; 0; 0; 0]%Z /\
    morphisms_applied s' = morphisms_applied initial_state ∪ {["f_info"%string]}.
Proof.
apply (morphism_2_classical_action (5 / 10) initial_state).
- reflexivity.
- repeat first [apply List.Forall_cons | apply List.Forall_nil]; left; reflexivity.
- apply initial_state_density.
Defined.

Lemma f_info_inv_classical_action_witness :
  exists s',
    f_info_inv (H := sample_linalg) (new_state [1; 1; 0; 1; 0; 0; 1; 0]%Z eye ∅) = Ok s' /\
    C s' = [0; 1; 1; 1; 0; 0; 0; 0]%Z /\
    morphisms_applied s' = (∅ : gset string) ∖ {["f_info"%string]}.
Proof.
apply (f_info_inv_classical_action (H := sample_linalg)
         (new_state [1; 1; 0; 1; 0; 0; 1; 0]%Z eye ∅)).
- reflexivity.
- repeat first [apply List.Forall_cons | apply List.Forall_nil];
    first [left; reflexivity | right; reflexivity].
Defined.

Lemma f_dyn_inv_classical_action_witness :
  exists s',
    f_dyn_inv (H := sample_linalg) (new_state [1; 1; 0; 1; 0; 0; 1; 0]%Z eye ∅) = Ok s' /\
    C s' = [0; 0; 1; 0; 1; 0; 0; 1]%Z.
Proof.
apply (f_dyn_inv_classical_action (H := sample_linalg)
         (new_state [1; 1; 0; 1; 0; 0; 1; 0]%Z eye ∅)).
reflexivity.
Defined.

(* ===================================================================== *)
(** * The byte that the bit mixing works on *)
(* ===================================================================== *)

Lemma land_255_range (x : Z) : (0 <= Z.land x 255 < 256)%Z.
Proof.
change 255%Z with (Z.ones 8). rewrite Z.land_ones by lia.
change (2 ^ 8)%Z with 256%Z. apply Z.mod_pos_bound. lia.
Qed.

Lemma byte_land_255 (x : Z) : (0 <= x < 256)%Z -> Z.land x 255 = x.
Proof.
intros Hx. change 255%Z with (Z.ones 8). rewrite Z.land_ones by lia.
apply Z.mod_small. exact Hx.
Qed.

Lemma land_lxor_distr (a b c : Z) :
  Z.land (Z.lxor a b) c = Z.lxor (Z.land a c) (Z.land b c).
Proof.
apply Z.bits_inj'. intros k _.
rewrite Z.land_spec, !Z.lxor_spec, !Z.land_spec.
destruct (Z.testbit a k), (Z.testbit b k), (Z.testbit c k); reflexivity.
Qed.

Lemma lxor_byte (x y : Z) :
  (0 <= x < 256)%Z -> (0 <= y < 256)%Z -> (0 <= Z.lxor x y < 256)%Z.
Proof.
intros Hx Hy. rewrite <- (byte_land_255 x Hx), <- (byte_land_255 y Hy).
rewrite <- land_lxor_distr. apply land_255_range.
Qed.

Lemma arnold_round_byte (original bit_int round : Z) :
  (0 <= arnold_round original bit_int round < 256)%Z.
Proof. unfold arnold_round. repeat apply lxor_byte; apply land_255_range. Qed.

Lemma arnold_cat_int_byte (original : Z) : (0 <= arnold_cat_int original < 256)%Z.
Proof.
unfold arnold_cat_int. cbn [fold_left].
apply lxor_byte; [apply arnold_round_byte|lia].
Qed.

(** X7. [arnold_cat_map_bits] works on one byte: whatever the length of its
    argument, every entry of the result from position 8 on is 0. *)
Theorem arnold_cat_map_bits_high_entries (bits : list Z) (i : nat) :
  (8 <= i < length bits)%nat ->
  arnold_cat_map_bits bits !! i = Some 0%Z.
Proof.
intros [Hi Hlen]. unfold arnold_cat_map_bits, int_to_bits.
rewrite list_lookup_fmap, lookup_seq_lt by exact Hlen. cbn [fmap option_fmap option_map Nat.add].
f_equal. pose proof (arnold_cat_int_byte (bits_to_int 0 bits 0)) as Hb.
rewrite Z.shiftr_div_pow2 by lia.
rewrite Z.div_small; [reflexivity|].
split; [lia|]. apply Z.lt_le_trans with (m := (2 ^ 8)%Z); [change (2 ^ 8)%Z with 256%Z; lia|].
apply Z.pow_le_mono_r; lia.
Qed.

Lemma arnold_cat_map_bits_high_entries_witness :
  arnold_cat_map_bits (replicate 10 1%Z) !! 9%nat = Some 0%Z.
Proof. apply (arnold_cat_map_bits_high_entries (replicate 10 1%Z) 9). cbn. lia. Defined.

(* ===================================================================== *)
(** * Packing bits into an integer *)
(* ===================================================================== *)

Lemma bits_to_int_shift (bits : list Z) (i acc : Z) :
  (0 <= i)%Z ->
  bits_to_int i bits acc = Z.lor acc (Z.shiftl (bits_to_int 0 bits 0) i).
Proof.
revert i acc. induction bits as [|b tl IH]; intros i acc Hi.
- cbn [bits_to_int]. rewrite Z.shiftl_0_l, Z.lor_0_r. reflexivity.
- cbn [bits_to_int]. rewrite (IH (i + 1)%Z) by lia.
  rewrite (IH (0 + 1)%Z) by lia.
  rewrite Z.shiftl_0_r, Z.lor_0_l, Z.shiftl_lor.
  rewrite Z.shiftl_shiftl by lia. rewrite Z.lor_assoc.
  replace (0 + 1 + i)%Z with (i + 1)%Z by lia. reflexivity.
Qed.

Lemma bits_to_int_cons (b : Z) (tl : list Z) :
  bits_to_int 0 (b :: tl) 0 = Z.lor b (Z.shiftl (bits_to_int 0 tl 0) 1).
Proof.
cbn [bits_to_int]. rewrite (bits_to_int_shift tl (0 + 1)%Z) by lia.
rewrite Z.shiftl_0_r, Z.lor_0_l. reflexivity.
Qed.

Lemma bits_to_int_nonneg (bits : list Z) :
  Forall is_bit bits -> (0 <= bits_to_int 0 bits 0)%Z.
Proof.
induction 1 as [|b tl Hb _ IH]; [cbn; lia|].
rewrite bits_to_int_cons. apply Z.lor_nonneg. split.
- destruct Hb as [-> | ->]; lia.
- apply Z.shiftl_nonneg. exact IH.
Qed.

Lemma packed_low_bit (b x : Z) :
  is_bit b -> Z.land (Z.lor b (Z.shiftl x 1)) 1 = b.
Proof.
intros Hb. rewrite Z.land_lor_distr_l.
assert (E1 : Z.land (Z.shiftl x 1) 1 = 0%Z).
{ change 1%Z with (Z.ones 1) at 2. rewrite Z.land_ones by lia.
  rewrite Z.shiftl_mul_pow2 by lia. apply Z.mod_mul. lia. }
rewrite E1, Z.lor_0_r. destruct Hb as [-> | ->]; reflexivity.
Qed.

Lemma packed_high_bits (b x : Z) :
  is_bit b -> Z.shiftr (Z.lor b (Z.shiftl x 1)) 1 = x.
Proof.
intros Hb. rewrite Z.shiftr_lor. rewrite Z.shiftr_shiftl_l by lia.
replace (1 - 1)%Z with 0%Z by lia. rewrite Z.shiftl_0_r.
destruct Hb as [-> | ->]; reflexivity.
Qed.

(** X8. The packing of bits into an integer at the start of
    [arnold_cat_map_bits] and the unpacking at its end are inverse to each
    other: bit [i] of the integer is [bits[i]], so unpacking what was packed
    returns the array, and the integer is not negative. *)
Theorem bit_packing_round_trip (bits : list Z) :
  Forall is_bit bits ->
  int_to_bits (length bits) (bits_to_int 0 bits 0) = bits /\
  (0 <= bits_to_int 0 bits 0)%Z.
Proof.
intros Hbits. split; [|apply bits_to_int_nonneg; exact Hbits].
induction Hbits as [|b tl Hb Htl IH]; [reflexivity|].
rewrite bits_to_int_cons. unfold int_to_bits in *.
cbn [length seq map]. rewrite Z.shiftr_0_r, packed_low_bit by exact Hb.
f_equal. rewrite <- seq_shift, map_map.
rewrite <- IH at 2. apply map_ext. intros i.
replace (Z.of_nat (S i)) with (1 + Z.of_nat i)%Z by lia.
rewrite <- Z.shiftr_shiftr by lia. rewrite packed_high_bits by exact Hb.
reflexivity.
Qed.

Lemma bit_packing_round_trip_witness :
  int_to_bits (length [1; 0; 1; 1]%Z) (bits_to_int 0 [1; 0; 1; 1]%Z 0) = [1; 0; 1; 1]%Z /\
  (0 <= bits_to_int 0 [1; 0; 1; 1]%Z 0)%Z.
Proof.
apply (bit_packing_round_trip [1; 0; 1; 1]%Z).
repeat first [apply List.Forall_cons | apply List.Forall_nil];
  first [left; reflexivity | right; reflexivity].
Defined.

(* ===================================================================== *)
(** * The gates as permutations and projections *)
(* ===================================================================== *)

Lemma permutation_matrix_involution (n : nat) (p : nat -> nat) :
  (forall r, (r < n)%nat -> (p r < n)%nat /\ p (p r) = r) ->
  matmul n (permutation_matrix p) (permutation_matrix p) =[n]= eye /\
  adjoint (permutation_matrix p) =[n]= permutation_matrix p.
Proof.
intros Hp. split.
- apply mat_eq_intro. intros i j Hi Hj. unfold matmul, permutation_matrix.
  destruct (Hp i Hi) as [Hpi Hppi].
  rewrite (Csum_eye_l (p i) (fun k => eye (p k) j) n Hpi). rewrite Hppi. reflexivity.
- apply mat_eq_intro. intros i j Hi Hj. unfold adjoint, permutation_matrix, eye.
  destruct (Hp i Hi) as [Hpi Hppi]. destruct (Hp j Hj) as [Hpj Hppj].
  destruct (Nat.eqb_spec (p j) i) as [E|E]; destruct (Nat.eqb_spec (p i) j) as [E'|E'];
    try rewrite Cconj_RtoC; try reflexivity; exfalso.
  + apply E'. rewrite <- E. exact Hppj.
  + apply E. rewrite <- E'. exact Hppi.
Qed.

Lemma permutation_matrix_unitary (n : nat) (p : nat -> nat) :
  (forall r, (r < n)%nat -> (p r < n)%nat /\ p (p r) = r) ->
  unitary n (permutation_matrix p).
Proof.
intros Hp. destruct (permutation_matrix_involution n p Hp) as [Hsq Hadj].
unfold unitary. rewrite Hadj. split; exact Hsq.
Qed.

Lemma cnot_index_involution (control target r : nat) :
  (control < 3)%nat -> (target < 3)%nat -> control <> target -> (r < 8)%nat ->
  (cnot_index control target r < 8)%nat /\
  cnot_index control target (cnot_index control target r) = r.
Proof.
intros Hc Ht Hne Hr.
destruct control as [|[|[|c]]]; [| | |lia];
  (destruct target as [|[|[|t]]]; [| | |lia]); try congruence;
  (do 8 (destruct r as [|r]; [cbn; split; [lia|reflexivity]|]); lia).
Qed.

Lemma cnot_gate_value (control target : nat) :
  (control < 3)%nat -> (target < 3)%nat -> control <> target ->
  exists U, cnot_gate 3 control target = Ok U /\
            U =[8]= permutation_matrix (cnot_index control target).
Proof.
intros Hc Ht Hne.
destruct control as [|[|[|c]]]; [| | |lia];
  (destruct target as [|[|[|t]]]; [| | |lia]); try congruence;
  (eexists; split; [cbn; reflexivity|];
   apply mat_eq_intro; intros i j Hi Hj;
   each_index i ltac:(each_index j ltac:(reflexivity))).
Qed.

(** X9. For two different qubits of three, [cnot_gate] returns the
    permutation array that flips bit [target] of the basis index when bit
    [control] is set; the array is unitary and its own inverse. *)
Theorem cnot_gate_is_permutation (control target : nat) :
  (control < 3)%nat -> (target < 3)%nat -> control <> target ->
  exists U, cnot_gate 3 control target = Ok U /\
            U =[8]= permutation_matrix (cnot_index control target) /\
            unitary 8 U /\ matmul 8 U U =[8]= eye.
Proof.
intros Hc Ht Hne. destruct (cnot_gate_value control target Hc Ht Hne) as (U & E & HU).
exists U. split; [exact E|]. split; [exact HU|].
assert (Hp : forall r, (r < 8)%nat ->
                       (cnot_index control target r < 8)%nat /\
                       cnot_index control target (cnot_index control target r) = r).
{ intros r Hr. apply cnot_index_involution; assumption. }
split.
- unfold unitary. rewrite HU. apply permutation_matrix_unitary. exact Hp.
- rewrite HU. apply permutation_matrix_involution. exact Hp.
Qed.

Lemma cnot_gate_is_permutation_witness :
  exists U, cnot_gate 3 1 2 = Ok U /\
            U =[8]= permutation_matrix (cnot_index 1 2) /\
            unitary 8 U /\ matmul 8 U U =[8]= eye.
Proof. apply (cnot_gate_is_permutation 1 2); lia. Defined.

Lemma bits_of_length (n i : nat) : length (bits_of n i) = n.
Proof. unfold bits_of. rewrite length_map, length_seq. reflexivity. Qed.

Lemma seq_pow2_head (n : nat) : exists tl, seq 0 (2 ^ n) = 0%nat :: tl.
Proof.
pose proof (Nat.pow_nonzero 2 n ltac:(lia)) as Hne.
destruct (2 ^ n)%nat as [|m]; [lia|]. eexists. reflexivity.
Qed.

Lemma get_item_out_of_range {A} (l : list A) (i : nat) :
  (length l <= i)%nat -> get_item l i = Raise IndexError.
Proof. intros Hi. unfold get_item. rewrite lookup_ge_None_2 by exact Hi. reflexivity. Qed.

(** X10. A qubit index that is not below [n_qubits] makes the gate builders
    raise [IndexError]: [cnot_gate] for its control, [projector_single_qubit]
    and [measure_qubit] for the measured qubit. *)
Theorem qubit_index_out_of_range (n_qubits q : nat) :
  (n_qubits <= q)%nat ->
  (forall target, cnot_gate n_qubits q target = Raise IndexError) /\
  (forall outcome, projector_single_qubit n_qubits q outcome = Raise IndexError) /\
  (forall u rho, measure_qubit u rho q n_qubits = Raise IndexError).
Proof.
intros Hq. destruct (seq_pow2_head n_qubits) as [tl Etl].
assert (Hitem : get_item (bits_of n_qubits 0) q = Raise IndexError).
{ apply get_item_out_of_range. rewrite bits_of_length. exact Hq. }
assert (Hproj : forall outcome, projector_single_qubit n_qubits q outcome = Raise IndexError).
{ intros outcome. unfold projector_single_qubit. rewrite Etl. cbn [fold_result].
  assert (E : projector_step n_qubits q outcome zeros 0 = Raise IndexError)
    by (unfold projector_step; rewrite Hitem; reflexivity).
  rewrite E. reflexivity. }
split; [|split].
- intros target. unfold cnot_gate. rewrite Etl. cbn [fold_result].
  assert (E : cnot_step n_qubits q target eye 0 = Raise IndexError)
    by (unfold cnot_step; rewrite Hitem; reflexivity).
  rewrite E. reflexivity.
- exact Hproj.
- intros u rho. unfold measure_qubit. rewrite (Hproj 0%nat). reflexivity.
Qed.

Lemma qubit_index_out_of_range_witness :
  (forall target, cnot_gate 3 3 target = Raise IndexError) /\
  (forall outcome, projector_single_qubit 3 3 outcome = Raise IndexError) /\
  (forall u rho, measure_qubit u rho 3 3 = Raise IndexError).
Proof. apply (qubit_index_out_of_range 3 3). lia. Defined.

Lemma diag_indicator_entry (f : nat -> bool) (i j : nat) :
  diag_indicator f i j = Cmul (if f i then RtoC 1 else RtoC 0) (eye i j).
Proof.
unfold diag_indicator, eye. destruct (i =? j)%nat; destruct (f i); cbn [andb]; lca.
Qed.

Lemma matmul_diag_indicator (n : nat) (f g : nat -> bool) :
  matmul n (diag_indicator f) (diag_indicator g)
  =[n]= diag_indicator (fun i => f i && g i).
Proof.
apply mat_eq_intro. intros i j Hi Hj. unfold matmul.
rewrite (Csum_ext _ (fun k => Cmul (if f i then RtoC 1 else RtoC 0)
                                   (Cmul (eye i k) (diag_indicator g k j)))).
- rewrite Csum_scale_l. rewrite (Csum_eye_l i (fun k => diag_indicator g k j) n Hi).
  unfold diag_indicator. destruct (i =? j)%nat; destruct (f i); destruct (g i);
    cbn [andb]; lca.
- intros k _. rewrite diag_indicator_entry. ring.
Qed.

Lemma hermitian_diag_indicator (n : nat) (f : nat -> bool) :
  Hermitian n (diag_indicator f).
Proof.
unfold Hermitian. apply mat_eq_intro. intros i j _ _.
unfold adjoint, diag_indicator. destruct (Nat.eqb_spec j i) as [->|Hne].
- rewrite Nat.eqb_refl. destruct (f i); cbn [andb]; apply Cconj_RtoC.
- destruct (Nat.eqb_spec i j) as [E|_]; [congruence|]. cbn [andb]. apply Cconj_RtoC.
Qed.

Lemma projector_single_qubit_diag (q o : nat) :
  (q < 3)%nat -> (o < 2)%nat ->
  exists P, projector_single_qubit 3 q o = Ok P /\ P =[8]= diag_indicator (qubit_is q o).
Proof.
intros Hq Ho.
destruct q as [|[|[|q]]]; [| | |lia];
  (destruct o as [|[|o]]; [| |lia]);
  (eexists; split; [cbn; reflexivity|];
   apply mat_eq_intro; intros i j Hi Hj;
   each_index i ltac:(each_index j ltac:(reflexivity))).
Qed.

(** X11. For each of the three qubits the two arrays that
    [projector_single_qubit] returns for the outcomes 0 and 1 are
    complementary orthogonal projectors: each is Hermitian and idempotent,
    their product vanishes and their sum is the identity. *)
Theorem projector_single_qubit_complementary (qubit_index : nat) :
  (qubit_index < 3)%nat ->
  exists P_0 P_1,
    projector_single_qubit 3 qubit_index 0 = Ok P_0 /\
    projector_single_qubit 3 qubit_index 1 = Ok P_1 /\
    Hermitian 8 P_0 /\ Hermitian 8 P_1 /\
    matmul 8 P_0 P_0 =[8]= P_0 /\ matmul 8 P_1 P_1 =[8]= P_1 /\
    matmul 8 P_0 P_1 =[8]= zeros /\ madd P_0 P_1 =[8]= eye.
Proof.
intros Hq.
destruct (projector_single_qubit_diag qubit_index 0 Hq ltac:(lia)) as (P0 & E0 & H0).
destruct (projector_single_qubit_diag qubit_index 1 Hq ltac:(lia)) as (P1 & E1 & H1).
exists P0, P1. split; [exact E0|]. split; [exact E1|].
split; [rewrite H0; apply hermitian_diag_indicator|].
split; [rewrite H1; apply hermitian_diag_indicator|].
split; [|split; [|split]].
- rewrite H0, matmul_diag_indicator. apply mat_eq_intro. intros i j _ _.
  unfold diag_indicator. destruct (qubit_is qubit_index 0 i); reflexivity.
- rewrite H1, matmul_diag_indicator. apply mat_eq_intro. intros i j _ _.
  unfold diag_indicator. destruct (qubit_is qubit_index 1 i); reflexivity.
- rewrite H0, H1, matmul_diag_indicator. apply mat_eq_intro. intros i j _ _.
  unfold diag_indicator, zeros, qubit_is.
  destruct (Nat.eqb_spec ((i / 2 ^ qubit_index) mod 2) 0) as [E|_];
    [rewrite E|]; cbn [andb Nat.eqb]; rewrite ?andb_false_r; reflexivity.
- rewrite H0, H1. apply mat_eq_intro. intros i j _ _.
  unfold madd, diag_indicator, eye, qubit_is.
  pose proof (Nat.mod_upper_bound (i / 2 ^ qubit_index) 2 ltac:(lia)) as Hb.
  destruct ((i / 2 ^ qubit_index) mod 2)%nat as [|[|m]]; [| |lia];
    destruct (i =? j)%nat; cbn [andb Nat.eqb]; lca.
Qed.

Lemma projector_single_qubit_complementary_witness :
  exists P_0 P_1,
    projector_single_qubit 3 2 0 = Ok P_0 /\
    projector_single_qubit 3 2 1 = Ok P_1 /\
    Hermitian 8 P_0 /\ Hermitian 8 P_1 /\
    matmul 8 P_0 P_0 =[8]= P_0 /\ matmul 8 P_1 P_1 =[8]= P_1 /\
    matmul 8 P_0 P_1 =[8]= zeros /\ madd P_0 P_1 =[8]= eye.
Proof. apply (projector_single_qubit_complementary 2). lia. Defined.

(* ===================================================================== *)
(** * The measurement as a channel *)
(* ===================================================================== *)

Lemma even_weight_trace (rho : Matrix) :
  Cre (trace 8 (matmul 8 (matmul 8 (qubit0_projector 0) rho) (qubit0_projector 0)))
  = even_weight rho.
Proof.
unfold trace. cbn [Csum]. rewrite !projector_sandwich by lia.
unfold bit0_indicator, even_weight. cbn [Nat.modulo Nat.divmod Nat.eqb fst snd Nat.sub].
cx_unfold. lra.
Qed.

(** The outcome and the state that [measure_qubit] returns for qubit 0 of a
    density matrix; the state is the same for every number drawn. *)
Lemma measure_qubit_value (rho : Matrix) :
  density_matrix 8 rho ->
  exists rho',
    (forall u, measure_qubit u rho 0 3
               = Ok (if bool_decide (even_weight rho <= u)%R then 1%Z else 0%Z, rho')) /\
    rho' =[8]= measured rho.
Proof.
intros (HH & HT & HP).
destruct (projector_single_qubit_value 0 ltac:(lia)) as (P0 & E0 & HP0).
destruct (projector_single_qubit_value 1 ltac:(lia)) as (P1 & E1 & HP1).
unfold measure_qubit. rewrite E0, E1. cbn [mbind result_bind].
change (2 ^ 3)%nat with 8%nat.
assert (Hp0 : (0 <= Cre (trace 8 (matmul 8 (matmul 8 P0 rho) P0)))%R).
{ rewrite HP0, projector_sandwich_conjugation. apply psd_trace_nonneg.
  apply psd_conjugation. exact HP. }
assert (Hp1 : (0 <= Cre (trace 8 (matmul 8 (matmul 8 P1 rho) P1)))%R).
{ rewrite HP1, projector_sandwich_conjugation. apply psd_trace_nonneg.
  apply psd_conjugation. exact HP. }
assert (Htot : (Cre (trace 8 (matmul 8 (matmul 8 P0 rho) P0))
                + Cre (trace 8 (matmul 8 (matmul 8 P1 rho) P1)) = 1)%R).
{ rewrite HP0, HP1.
  change (Cre (Cadd (trace 8 (matmul 8 (matmul 8 (qubit0_projector 0) rho)
                                       (qubit0_projector 0)))
                    (trace 8 (matmul 8 (matmul 8 (qubit0_projector 1) rho)
                                       (qubit0_projector 1)))) = 1%R).
  rewrite projector_trace_sum, HT. reflexivity. }
assert (Hw : Cre (trace 8 (matmul 8 (matmul 8 P0 rho) P0)) = even_weight rho).
{ rewrite HP0. apply even_weight_trace. }
revert Hp0 Hp1 Htot Hw.
generalize (Cre (trace 8 (matmul 8 (matmul 8 P0 rho) P0))).
generalize (Cre (trace 8 (matmul 8 (matmul 8 P1 rho) P1))).
intros p1 p0 Hp0 Hp1 Htot Hw. rewrite Htot.
rewrite !np_div_nonzero by lra. unfold np_random_choice.
rewrite (bool_decide_eq_false_2 (p0 / 1 < 0)%R) by lra.
rewrite (bool_decide_eq_false_2 (p1 / 1 < 0)%R) by lra.
cbn [orb mbind result_bind].
replace (p0 / 1)%R with (even_weight rho) by (rewrite <- Hw; lra).
eexists. split; [intros u; reflexivity|].
unfold measured. rewrite HP0, HP1. reflexivity.
Qed.

(** X12. Measuring qubit 0 of a three-qubit density matrix follows the Born
    rule: with [u] the number drawn, the outcome is 0 when [u] is below the
    total weight of the even basis indices and 1 otherwise.  The returned
    state does not depend on the outcome: coherences between indices of
    different parity are removed, the rest is scaled by 0.9 and 1/80 is
    added to the diagonal. *)
Theorem measure_qubit_born_rule (u : R) (rho : Matrix) :
  density_matrix 8 rho ->
  exists rho',
    measure_qubit u rho 0 3
    = Ok (if bool_decide (even_weight rho <= u)%R then 1%Z else 0%Z, rho') /\
    forall i j, (i < 8)%nat -> (j < 8)%nat ->
      rho' i j
      = Cadd (Cmul (RtoC (9 / 10))
                   (Cmul (if (i mod 2 =? j mod 2)%nat then RtoC 1 else RtoC 0) (rho i j)))
             (Cmul (RtoC (1 / 80)) (eye i j)).
Proof.
intros Hrho. destruct (measure_qubit_value rho Hrho) as (rho' & E & Hrho').
exists rho'. split; [apply E|].
intros i j Hi Hj. rewrite <- measured_entry by assumption.
apply (mat_eq_entry 8); assumption.
Qed.

Lemma measure_qubit_born_rule_witness :
  exists rho',
    measure_qubit (5 / 10) (Q initial_state) 0 3
    = Ok (if bool_decide (even_weight (Q initial_state) <= 5 / 10)%R then 1%Z else 0%Z,
          rho') /\
    forall i j, (i < 8)%nat -> (j < 8)%nat ->
      rho' i j
      = Cadd (Cmul (RtoC (9 / 10))
                   (Cmul (if (i mod 2 =? j mod 2)%nat then RtoC 1 else RtoC 0)
                         (Q initial_state i j)))
             (Cmul (RtoC (1 / 80)) (eye i j)).
Proof.
apply (measure_qubit_born_rule (5 / 10) (Q initial_state)).
apply initial_state_density.
Defined.

(** X13. An array whose trace has real part 0 cannot be measured: the two
    probabilities are 0/0 and [measure_qubit] raises [ValueError]. *)
Theorem measure_qubit_traceless (u : R) (rho : Matrix) :
  Cre (trace 8 rho) = 0%R ->
  measure_qubit u rho 0 3 = Raise ValueError.
Proof.
intros Htr.
destruct (projector_single_qubit_value 0 ltac:(lia)) as (P0 & E0 & HP0).
destruct (projector_single_qubit_value 1 ltac:(lia)) as (P1 & E1 & HP1).
unfold measure_qubit. rewrite E0, E1. cbn [mbind result_bind].
change (2 ^ 3)%nat with 8%nat.
assert (Htot : (Cre (trace 8 (matmul 8 (matmul 8 P0 rho) P0))
                + Cre (trace 8 (matmul 8 (matmul 8 P1 rho) P1)) = 0)%R).
{ rewrite HP0, HP1.
  change (Cre (Cadd (trace 8 (matmul 8 (matmul 8 (qubit0_projector 0) rho)
                                       (qubit0_projector 0)))
                    (trace 8 (matmul 8 (matmul 8 (qubit0_projector 1) rho)
                                       (qubit0_projector 1)))) = 0%R).
  rewrite projector_trace_sum. exact Htr. }
rewrite Htot. rewrite !np_div_zero. reflexivity.
Qed.

Lemma measure_qubit_traceless_witness :
  measure_qubit (5 / 10) zeros 0 3 = Raise ValueError.
Proof.
apply (measure_qubit_traceless (5 / 10) zeros).
cbv [trace Csum zeros Cre Cadd RtoC fst]. lra.
Defined.

(* ===================================================================== *)
(** * The two Hamiltonians, entry by entry *)
(* ===================================================================== *)

Ltac hamiltonian_entry :=
  cbv beta;
  match goal with
  | |- _ = (if ?b then _ else _) =>
      let v := eval vm_compute in b in change b with v
  end;
  cbv [ising_hamiltonian kick_hamiltonian fold_left seq Nat.sub Nat.eqb Nat.add orb
       kron_term_or kron_term_with add_scaled_term madd mscale kron zeros eye
       pauli_Z pauli_X Nat.div Nat.modulo Nat.divmod fst snd Nat.mul
       ising_energy spin Nat.testbit Nat.odd Nat.even negb Nat.div2];
  lca.

(** X14. For three qubits [ising_hamiltonian] is the diagonal array of the
    energies J (s2 s1 + s1 s0) of the basis states, and [kick_hamiltonian]
    has the entry h exactly where the two basis indices differ in one bit;
    both are Hermitian, for every coupling and every field. *)
Theorem hamiltonians_entries (J h : R) :
  ising_hamiltonian 3 J
  =[8]= (fun i j => if (i =? j)%nat then RtoC (ising_energy J i) else RtoC 0) /\
  kick_hamiltonian 3 h
  =[8]= (fun i j => if single_flip i j then RtoC h else RtoC 0) /\
  Hermitian 8 (ising_hamiltonian 3 J) /\ Hermitian 8 (kick_hamiltonian 3 h).
Proof.
split; [|split; [|split]].
- apply mat_eq_intro. intros i j Hi Hj.
  each_index i ltac:(each_index j ltac:(hamiltonian_entry)).
- apply mat_eq_intro. intros i j Hi Hj.
  each_index i ltac:(each_index j ltac:(hamiltonian_entry)).
- apply hermitian_ising_hamiltonian.
- apply hermitian_kick_hamiltonian.
Qed.

(* ===================================================================== *)
(** * The evolution keeps the purity *)
(* ===================================================================== *)

Lemma purity_conjugation (n : nat) (U A : Matrix) :
  unitary n U ->
  trace n (matmul n (matmul n (matmul n U A) (adjoint U))
                    (matmul n (matmul n U A) (adjoint U)))
  = trace n (matmul n A A).
Proof.
intros [HU1 HU2].
assert (E : matmul n (matmul n (matmul n U A) (adjoint U))
                     (matmul n (matmul n U A) (adjoint U))
            =[n]= matmul n (matmul n U (matmul n A A)) (adjoint U)).
{ rewrite !matmul_assoc_eq.
  rewrite <- (matmul_assoc_eq n (adjoint U) U). rewrite HU1, matmul_eye_l.
  reflexivity. }
rewrite E. apply trace_conjugation. exact HU1.
Qed.

Section EvolutionPurity.
Context `{LinAlg}.

(** X15. When the matrix exponential of an anti-Hermitian generator is
    unitary, the kicked-Ising evolution of three qubits keeps the trace and
    the purity Tr(rho^2) of every array, for every coupling, field, period
    and number of kicks. *)
Theorem kicked_ising_evolution_keeps_purity
        (rho : Matrix) (J h tau : R) (n_kicks : nat) :
  expm_unitary_law ->
  trace 8 (kicked_ising_evolution rho 3 J h tau n_kicks) = trace 8 rho /\
  trace 8 (matmul 8 (kicked_ising_evolution rho 3 J h tau n_kicks)
                    (kicked_ising_evolution rho 3 J h tau n_kicks))
  = trace 8 (matmul 8 rho rho).
Proof.
intros Hlaw. unfold kicked_ising_evolution. change (2 ^ 3)%nat with 8%nat.
assert (HU : unitary 8
               (matrix_power 8
                  (matmul 8 (expm (scaled_generator (Copp Ci) (ising_hamiltonian 3 J) tau))
                            (expm (scaled_generator (Copp Ci) (kick_hamiltonian 3 h) tau)))
                  n_kicks)).
{ apply unitary_power. apply unitary_matmul.
  - exact (proj1 (Hlaw _ tau (hermitian_ising_hamiltonian J))).
  - exact (proj1 (Hlaw _ tau (hermitian_kick_hamiltonian h))). }
split.
- apply trace_conjugation. exact (proj1 HU).
- apply purity_conjugation. exact HU.
Qed.
End EvolutionPurity.

Lemma kicked_ising_evolution_keeps_purity_witness :
  trace 8 (kicked_ising_evolution (H := sample_linalg) (Q initial_state) 3
                                  J_ISING H_KICK TAU N_KICKS)
  = trace 8 (Q initial_state) /\
  trace 8 (matmul 8 (kicked_ising_evolution (H := sample_linalg) (Q initial_state) 3
                                            J_ISING H_KICK TAU N_KICKS)
                    (kicked_ising_evolution (H := sample_linalg) (Q initial_state) 3
                                            J_ISING H_KICK TAU N_KICKS))
  = trace 8 (matmul 8 (Q initial_state) (Q initial_state)).
Proof.
apply (kicked_ising_evolution_keeps_purity (H := sample_linalg)).
exact sample_expm_unitary_law.
Defined.

(* ===================================================================== *)
(** * The disk, the annulus and the way back *)
(* ===================================================================== *)

Lemma radius_polar (r theta : R) :
  (0 <= r)%R -> radius (r * cos theta, r * sin theta)%R = r.
Proof.
intros Hr. unfold radius. cbn [fst snd].
replace ((r * cos theta) ^ 2 + (r * sin theta) ^ 2)%R
  with (r ^ 2 * (Rsqr (sin theta) + Rsqr (cos theta)))%R by (unfold Rsqr; ring).
rewrite sin2_cos2, Rmult_1_r. apply sqrt_pow2. exact Hr.
Qed.

Lemma radius_nonneg (p : R * R) : (0 <= radius p)%R.
Proof. apply sqrt_pos. Qed.

Lemma radius_sq (p : R * R) : (radius p ^ 2 = fst p ^ 2 + snd p ^ 2)%R.
Proof.
unfold radius. apply pow2_sqrt.
pose proof (pow2_ge_0 (fst p)). pose proof (pow2_ge_0 (snd p)). lra.
Qed.

(** The radius that [T_a] gives to a point at distance [r] of the origin. *)
Lemma T_a_radius (a : R) (p : R * R) :
  (0 <= a <= 1)%R ->
  forall q, T_a [p] a = [q] ->
  radius q = sqrt (a ^ 2 + (1 - a ^ 2) * radius p ^ 2).
Proof.
intros Ha q E. destruct p as [x y]. cbn in E. injection E as <-.
change (sqrt (x * (x * 1) + y * (y * 1))) with (radius (x, y)).
apply radius_polar. apply sqrt_pos.
Qed.

Lemma annulus_radius_bounds (a r : R) :
  (0 <= a <= 1)%R -> (0 <= r)%R ->
  (a <= sqrt (a ^ 2 + (1 - a ^ 2) * r ^ 2))%R /\
  (r <= 1 -> sqrt (a ^ 2 + (1 - a ^ 2) * r ^ 2) <= 1)%R.
Proof.
intros Ha Hr.
assert (Ha2 : (0 <= 1 - a ^ 2)%R) by nra.
assert (Hr2 : (0 <= r ^ 2)%R) by apply pow2_ge_0.
pose proof (Rmult_le_pos _ _ Ha2 Hr2) as Hprod.
split.
- rewrite <- (sqrt_pow2 a) at 1 by lra. apply sqrt_le_1_alt. lra.
- intros Hr1. rewrite <- sqrt_1 at 2. apply sqrt_le_1_alt.
  assert (Hr3 : (r ^ 2 <= 1)%R) by nra.
  pose proof (Rmult_le_compat_l _ _ _ Ha2 Hr3). lra.
Qed.

Lemma T_a_in (a : R) (points : list (R * R)) (q : R * R) :
  In q (T_a points a) ->
  exists p, In p points /\ T_a [p] a = [q].
Proof.
unfold T_a. intros Hq. apply in_map_iff in Hq. destruct Hq as (p & E & Hp).
exists p. split; [exact Hp|]. cbn [map]. rewrite E. reflexivity.
Qed.

Lemma T_a_radii_at_least (points : list (R * R)) (a : R) :
  (0 <= a <= 1)%R -> Forall (fun q => a <= radius q)%R (T_a points a).
Proof.
intros Ha. apply List.Forall_forall. intros q Hq.
destruct (T_a_in a points q Hq) as (p & _ & E).
rewrite (T_a_radius a p Ha q E).
apply annulus_radius_bounds; [exact Ha|apply radius_nonneg].
Qed.

Lemma radius_in_disk (x y : R) : (x ^ 2 + y ^ 2 <= 1)%R -> (radius (x, y) <= 1)%R.
Proof.
intros Hxy. unfold radius. cbn [fst snd].
pose proof (sqrt_le_1_alt _ _ Hxy) as E. rewrite sqrt_1 in E. exact E.
Qed.

(** X16. At the repository's parameter a = 0.68, [T_a] keeps the number of
    points and sends every point of the unit disk into the annulus between
    the radii 0.68 and 1. *)
Theorem T_a_into_annulus (points : list (R * R)) :
  Forall (fun p => radius p <= 1)%R points ->
  length (T_a points A_PARAM) = length points /\
  Forall (fun q => A_PARAM <= radius q <= 1)%R (T_a points A_PARAM).
Proof.
intros Hdisk. assert (Ha : (0 <= A_PARAM <= 1)%R) by (unfold A_PARAM; lra).
split; [unfold T_a; apply length_map|].
apply List.Forall_forall. intros q Hq.
destruct (T_a_in A_PARAM points q Hq) as (p & Hp & E).
rewrite (T_a_radius A_PARAM p Ha q E).
pose proof (proj1 (List.Forall_forall _ _) Hdisk p Hp) as Hp1.
destruct (annulus_radius_bounds A_PARAM (radius p) Ha (radius_nonneg p)) as [Hlo Hhi].
split; [exact Hlo|apply Hhi; exact Hp1].
Qed.

Lemma T_a_into_annulus_witness :
  length (T_a [(0, 0); (1 / 2, 0)]%R A_PARAM) = 2%nat /\
  Forall (fun q => A_PARAM <= radius q <= 1)%R (T_a [(0, 0); (1 / 2, 0)]%R A_PARAM).
Proof.
apply (T_a_into_annulus [(0, 0); (1 / 2, 0)]%R).
repeat first [apply List.Forall_cons | apply List.Forall_nil];
  apply radius_in_disk; cbn [pow]; lra.
Defined.

Lemma filter_none {A} (f : A -> bool) (l : list A) :
  Forall (fun x => f x = false) l -> List.filter f l = [].
Proof.
induction 1 as [|x l Hx _ IH]; cbn [List.filter]; [reflexivity|].
rewrite Hx. exact IH.
Qed.

(** No radius of a cloud that [T_a] produced is inside the central void. *)
Lemma fraction_within_annulus (points : list (R * R)) (a alpha : R) :
  (0 < a <= 1)%R -> (alpha < 1)%R -> points <> [] ->
  fraction_within (map (fun '(x, y) => sqrt (x ^ 2 + y ^ 2)) (T_a points a)) (alpha * a)
  = Some 0%R.
Proof.
intros Ha Halpha Hne. unfold fraction_within.
rewrite filter_none.
- cbn [length INR]. rewrite np_div_nonzero.
  + f_equal. unfold Rdiv. apply Rmult_0_l.
  + rewrite length_map. unfold T_a. rewrite length_map.
    destruct points; [contradiction|]. apply not_0_INR. cbn [length]. lia.
- apply List.Forall_forall. intros r Hr. apply in_map_iff in Hr.
  destruct Hr as (q & <- & Hq).
  pose proof (proj1 (List.Forall_forall _ _) (T_a_radii_at_least points a ltac:(lra))
                    q Hq) as Hq'.
  destruct q as [x y]. unfold radius in Hq'. cbn [fst snd] in Hq'.
  apply bool_decide_eq_false_2. nra.
Qed.

Lemma np_clip_one : np_clip 1 0 1 = 1%R.
Proof.
unfold np_clip, Rmin, Rmax.
destruct (Rle_dec 1 0); [lra|]. destruct (Rle_dec 1 1); lra.
Qed.

(** X17. At the repository's parameters a = 0.68 and alpha = 0.8 the void
    score of a cloud that [T_a] produced is exactly 1, for every non-empty
    cloud: no image point lies within the radius 0.544. *)
Theorem central_void_score_after_T_a (points : list (R * R)) :
  points <> [] ->
  central_void_score (T_a points A_PARAM) A_PARAM (8 / 10) = Some 1%R.
Proof.
intros Hne. unfold central_void_score.
rewrite fraction_within_annulus by (try assumption; unfold A_PARAM; lra).
destruct (decide ((8 / 10 * A_PARAM) ^ 2 = 0)%R) as [Hz|Hnz].
- exfalso. exact (expected_frac_nonzero Hz).
- cbn [mbind option_bind]. f_equal. unfold A_PARAM.
  replace (((8 / 10 * (68 / 100)) ^ 2 - 0) / (8 / 10 * (68 / 100)) ^ 2)%R with 1%R
    by (field; lra).
  apply np_clip_one.
Qed.

Lemma central_void_score_after_T_a_witness :
  central_void_score (T_a [(0, 0); (1 / 2, 0)]%R A_PARAM) A_PARAM (8 / 10)
  = Some 1%R.
Proof.
apply (central_void_score_after_T_a [(0, 0); (1 / 2, 0)]%R). discriminate.
Defined.

Section GeometricPillar.
Context `{LinAlg} `{Rng}.

Lemma bits_to_points_length (bits : list Z) (n_points : nat) :
  bits <> [] -> Forall is_bit bits ->
  exists pts, bits_to_points bits n_points = Ok pts /\ length pts = n_points.
Proof.
intros Hne Hbits. unfold bits_to_points.
destruct (int_base2_bits bits Hne Hbits) as [v ->]. cbn [mbind result_bind].
eexists. split; [reflexivity|].
rewrite length_zip_with, !length_map, !length_seq. lia.
Qed.

(** X18. After [morphism_4_disk_to_annulus] with at least one point the
    geometric pillar is exactly 1, whatever numbers the generator hands
    out: no point of the annulus lies in the central void. *)
Theorem compute_C_geom_after_morphism_4 (state : SystemState) (n_points : nat) :
  C state <> [] -> Forall is_bit (C state) -> (0 < n_points)%nat ->
  exists X_4,
    morphism_4_disk_to_annulus state n_points = Ok X_4 /\
    compute_C_geom X_4 A_PARAM = Ok (Some 1%R).
Proof.
intros Hne Hbits Hn. unfold morphism_4_disk_to_annulus.
destruct (bits_to_points_length (C state) n_points Hne Hbits) as (pts & -> & Hlen).
cbn [mbind result_bind]. eexists. split; [reflexivity|].
unfold compute_C_geom. cbn [_points with_points mbind result_bind].
assert (Hpts : pts <> []) by (destruct pts; [cbn in Hlen; lia|discriminate]).
rewrite fraction_within_annulus; [|unfold A_PARAM; lra|lra|exact Hpts].
destruct (decide (0 < (8 / 10 * A_PARAM) ^ 2)%R) as [Hpos|Hn0].
- cbn [mbind option_bind]. do 2 f_equal. unfold A_PARAM.
  replace (((8 / 10 * (68 / 100)) ^ 2 - 0) / (8 / 10 * (68 / 100)) ^ 2)%R with 1%R
    by (field; lra).
  apply np_clip_one.
- exfalso. apply Hn0. unfold A_PARAM. lra.
Qed.

End GeometricPillar.

Lemma compute_C_geom_after_morphism_4_witness :
  exists X_4,
    morphism_4_disk_to_annulus (H0 := sample_rng) initial_state 5 = Ok X_4 /\
    compute_C_geom (H0 := sample_rng) X_4 A_PARAM = Ok (Some 1%R).
Proof.
apply (compute_C_geom_after_morphism_4 (H0 := sample_rng) initial_state 5).
- discriminate.
- apply initial_state_bits.
- lia.
Defined.

(* ===================================================================== *)
(** * The way back from the annulus *)
(* ===================================================================== *)

Lemma np_clip_id (x : R) : (0 <= x <= 1)%R -> np_clip x 0 1 = x.
Proof.
intros Hx. unfold np_clip, Rmin, Rmax.
destruct (Rle_dec x 0); destruct (Rle_dec _ 1); lra.
Qed.

Lemma disk_point_of_radius (q : R * R) :
  radius (disk_point_of q) = np_clip ((radius q - A_PARAM) / (1 - A_PARAM)) 0 1.
Proof.
destruct q as [x y]. unfold disk_point_of.
rewrite radius_polar by apply np_clip_range. reflexivity.
Qed.

(** The linear rescale undoes [T_a] at the radii 0 and 1 only: a point
    strictly between comes back strictly closer to the origin. *)
Lemma rescaled_radius (r : R) :
  (0 <= r <= 1)%R ->
  let r' := sqrt (A_PARAM ^ 2 + (1 - A_PARAM ^ 2) * r ^ 2) in
  (0 <= (r' - A_PARAM) / (1 - A_PARAM) <= r)%R /\
  (0 < r < 1 -> (r' - A_PARAM) / (1 - A_PARAM) < r)%R.
Proof.
intros Hr r'.
assert (Ha : (0 <= A_PARAM <= 1)%R) by (unfold A_PARAM; lra).
destruct (annulus_radius_bounds A_PARAM r Ha ltac:(lra)) as [Hlow _].
fold r' in Hlow.
assert (Hy : (0 <= A_PARAM + (1 - A_PARAM) * r)%R) by (unfold A_PARAM; nra).
assert (Hup : (r' <= A_PARAM + (1 - A_PARAM) * r)%R).
{ rewrite <- (sqrt_pow2 (A_PARAM + (1 - A_PARAM) * r)) by exact Hy.
  apply sqrt_le_1_alt. unfold A_PARAM. nra. }
assert (H1a : (0 < 1 - A_PARAM)%R) by (unfold A_PARAM; lra).
split; [split|].
- apply Rmult_le_pos; [lra|]. apply Rlt_le, Rinv_0_lt_compat. exact H1a.
- apply (Rmult_le_reg_r (1 - A_PARAM)); [exact H1a|].
  unfold Rdiv. rewrite Rmult_assoc, Rinv_l by lra. lra.
- intros Hr'.
  assert (Hlt : (r' < A_PARAM + (1 - A_PARAM) * r)%R).
  { rewrite <- (sqrt_pow2 (A_PARAM + (1 - A_PARAM) * r)) by exact Hy.
    apply sqrt_lt_1_alt. split.
    - assert (0 <= (1 - A_PARAM ^ 2) * r ^ 2)%R by (unfold A_PARAM; nra).
      unfold A_PARAM in *. nra.
    - unfold A_PARAM. nra. }
  apply (Rmult_lt_reg_r (1 - A_PARAM)); [exact H1a|].
  unfold Rdiv. rewrite Rmult_assoc, Rinv_l by lra. lra.
Qed.

Lemma disk_point_of_T_a (p q : R * R) :
  (radius p <= 1)%R -> T_a [p] A_PARAM = [q] ->
  (radius (disk_point_of q) <= radius p)%R /\
  (0 < radius p < 1 -> radius (disk_point_of q) < radius p)%R.
Proof.
intros Hp E.
assert (Ha : (0 <= A_PARAM <= 1)%R) by (unfold A_PARAM; lra).
rewrite disk_point_of_radius, (T_a_radius A_PARAM p Ha q E).
pose proof (radius_nonneg p) as Hp0.
destruct (rescaled_radius (radius p) ltac:(lra)) as [[Hlo Hhi] Hstrict].
rewrite np_clip_id by lra. split; [exact Hhi|exact Hstrict].
Qed.

(** X19. [f_geom_inv] is not the inverse of [T_a]: applied to the image of
    a cloud of the unit disk it returns as many points, none farther from
    the origin than the point it came from, and every point that started
    strictly between the origin and the unit circle strictly closer. *)
Theorem f_geom_inv_contracts (state : SystemState) (points : list (R * R)) :
  _points state = Some (T_a points A_PARAM) ->
  Forall (fun p => radius p <= 1)%R points ->
  exists X_3_back points',
    f_geom_inv state = Ok X_3_back /\
    _points X_3_back = Some points' /\
    C X_3_back = C state /\
    Forall2 (fun p p' => (radius p' <= radius p)%R /\
                         (0 < radius p < 1 -> radius p' < radius p)%R)
            points points'.
Proof.
intros Hpts Hdisk. unfold f_geom_inv. rewrite Hpts.
eexists. eexists. split; [reflexivity|]. cbn [_points C].
split; [reflexivity|]. split; [reflexivity|].
change (Forall2 (fun p p' => (radius p' <= radius p)%R /\
                             (0 < radius p < 1 -> radius p' < radius p)%R)
                points (map disk_point_of (T_a points A_PARAM))).
clear Hpts. induction Hdisk as [|p tl Hp _ IH]; [constructor|].
change (T_a (p :: tl) A_PARAM) with (T_a [p] A_PARAM ++ T_a tl A_PARAM).
destruct (T_a [p] A_PARAM) as [|q [|? ?]] eqn:E; try discriminate E.
cbn [app map]. constructor; [|exact IH].
apply disk_point_of_T_a; assumption.
Qed.

Lemma f_geom_inv_contracts_witness :
  exists X_3_back points',
    f_geom_inv (with_points initial_state (T_a [(1 / 2, 0)]%R A_PARAM)) = Ok X_3_back /\
    _points X_3_back = Some points' /\
    C X_3_back = C (with_points initial_state (T_a [(1 / 2, 0)]%R A_PARAM)) /\
    Forall2 (fun p p' => (radius p' <= radius p)%R /\
                         (0 < radius p < 1 -> radius p' < radius p)%R)
            [(1 / 2, 0)]%R points'.
Proof.
apply (f_geom_inv_contracts (with_points initial_state (T_a [(1 / 2, 0)]%R A_PARAM))
                            [(1 / 2, 0)]%R).
- reflexivity.
- constructor; [|constructor]. unfold radius. cbn [fst snd].
  pose proof (sqrt_le_1_alt ((1 / 2) ^ 2 + 0 ^ 2) 1 ltac:(cbn [pow]; lra)) as E.
  rewrite sqrt_1 in E. exact E.
Defined.

(* ===================================================================== *)
(** * Sampling the disk *)
(* ===================================================================== *)


Section Sampling.
Context `{Rng}.



End Sampling.



(* ===================================================================== *)
(** * Ranges and edge cases of the pillars *)
(* ===================================================================== *)


Lemma compute_bit_mixing_score_short (bits : list Z) :
  (length bits <= 1)%nat -> compute_bit_mixing_score bits = None.
Proof.
intros Hlen. destruct bits as [|b [|b' tl]]; [| |cbn in Hlen; lia].
- unfold compute_bit_mixing_score. cbn [length].
  rewrite (np_div_nonzero _ (IZR (Z.of_nat 0 - 1))) by (apply not_0_IZR; lia).
  cbn [mbind option_bind INR]. rewrite !np_div_zero. reflexivity.
- unfold compute_bit_mixing_score. cbn [length Z.of_nat Pos.of_succ_nat Z.sub Z.add
                                         Z.opp Z.pos_sub].
  rewrite np_div_zero. reflexivity.
Qed.

Section PillarRanges.
Context `{LinAlg} `{Rng}.


(** X22. At the repository's parameter a = 0.68, [compute_C_geom] returns a
    number between 0 and 1 when the state carries a non-empty point cloud,
    and also when it carries none and the cloud is sampled from a non-empty
    array of bits. *)
Theorem compute_C_geom_range (state : SystemState) :
  (exists points, _points state = Some points /\ points <> []) \/
  (_points state = None /\ C state <> [] /\ Forall is_bit (C state)) ->
  exists x, compute_C_geom state A_PARAM = Ok (Some x) /\ (0 <= x <= 1)%R.
Proof.
intros Hcloud.
assert (Hpts : exists points,
           match _points state with
           | Some points => Ok points
           | None => bits_to_points (C state) 1000
           end = Ok points /\ points <> []).
{ destruct Hcloud as [(points & -> & Hne) | (-> & Hne & Hbits)].
  - exists points. split; [reflexivity|exact Hne].
  - destruct (bits_to_points_length (C state) 1000 Hne Hbits) as (points & E & Hlen).
    exists points. split; [exact E|]. destruct points; [discriminate Hlen|discriminate]. }
destruct Hpts as (points & E & Hne).
unfold compute_C_geom. rewrite E. cbn [mbind result_bind].
destruct (decide (0 < (8 / 10 * A_PARAM) ^ 2)%R) as [Hpos|Hn0].
- unfold fraction_within. rewrite np_div_nonzero.
  + cbn [mbind option_bind]. eexists. split; [reflexivity|]. apply np_clip_range.
  + rewrite length_map. apply not_0_INR. destruct points; [contradiction|]. cbn. lia.
- exfalso. apply Hn0. unfold A_PARAM. lra.
Qed.

(** X23. Short classical components turn pillars into NaN:
    [compute_C_dyn] on a component of at most one entry, and [compute_C_alg]
    on an empty one (its Hamming weight is 0/0). *)
Theorem pillars_nan_on_short_input (state : SystemState) :
  (length (C state) <= 1)%nat ->
  compute_C_dyn state = Ok None /\
  (C state = [] -> compute_C_alg state = Ok None).
Proof.
intros Hlen. split.
- unfold compute_C_dyn.
  rewrite compute_bit_mixing_score_short by exact Hlen. reflexivity.
- intros E. unfold compute_C_alg. rewrite E. cbn [length INR].
  rewrite np_div_zero. reflexivity.
Qed.

(** X24. An empty classical component cannot seed the point cloud:
    [bits_to_points], [morphism_4_disk_to_annulus] and, for a state without
    a cloud, [compute_C_geom] raise [ValueError]. *)
Theorem empty_bits_value_error (state : SystemState) (n_points : nat) (a : R) :
  C state = [] ->
  bits_to_points (C state) n_points = Raise ValueError /\
  morphism_4_disk_to_annulus state n_points = Raise ValueError /\
  (_points state = None -> compute_C_geom state a = Raise ValueError).
Proof.
intros E. split; [|split].
- rewrite E. reflexivity.
- unfold morphism_4_disk_to_annulus. rewrite E. reflexivity.
- intros Hp. unfold compute_C_geom. rewrite Hp, E. reflexivity.
Qed.

(** X25. The closing isomorphism resets the classical side whatever it is
    given: for every state with eight classical entries, any quantum
    component and any (or no) point cloud it returns eight zeros, no
    provenance label and no point cloud; the wrapper
    [morphism_5_closing_isomorphism] does the same, and without an argument
    it returns the origin state. *)
Theorem phi_closing_isomorphism_resets (state : SystemState) :
  length (C state) = N_BITS ->
  exists X_0',
    phi_closing_isomorphism state = Ok X_0' /\
    morphism_5_closing_isomorphism (Some state) = Ok X_0' /\
    C X_0' = replicate N_BITS 0%Z /\
    morphisms_applied X_0' = ∅ /\
    _points X_0' = None /\
    morphism_5_closing_isomorphism None = Ok initial_state.
Proof.
intros Hlen. unfold morphism_5_closing_isomorphism, phi_closing_isomorphism.
destruct (f_geom_inv_value state) as (s3 & -> & HC3 & _).
cbn [mbind result_bind].
assert (E2 : exists s2, f_dyn_inv s3 = Ok s2 /\ length (C s2) = N_BITS).
{ eexists. split; [reflexivity|]. cbn [C new_state].
  rewrite fold_insert_length, length_replicate. congruence. }
destruct E2 as (s2 & -> & Hlen2). cbn [mbind result_bind].
destruct (f_info_inv_value s2 Hlen2) as (c1 & ->). cbn [mbind result_bind].
rewrite f_alg_inv_value.
eexists. split; [reflexivity|]. split; [reflexivity|].
cbn [C morphisms_applied _points new_state]. auto.
Qed.

End PillarRanges.


Lemma compute_C_geom_range_witness :
  exists x, compute_C_geom (H0 := sample_rng)
                           (with_points initial_state [(0, 0); (1, 0)]%R) A_PARAM
            = Ok (Some x) /\
            (0 <= x <= 1)%R.
Proof.
apply (compute_C_geom_range (H0 := sample_rng)
         (with_points initial_state [(0, 0); (1, 0)]%R)).
left. exists [(0, 0); (1, 0)]%R. split; [reflexivity|discriminate].
Defined.

Lemma pillars_nan_on_short_input_witness :
  compute_C_dyn (H := sample_linalg) (new_state [] eye ∅) = Ok None /\
  (C (new_state [] eye ∅) = [] ->
   compute_C_alg (H := sample_linalg) (new_state [] eye ∅) = Ok None).
Proof.
apply (pillars_nan_on_short_input (H := sample_linalg) (new_state [] eye ∅)).
cbn. lia.
Defined.

Lemma empty_bits_value_error_witness :
  bits_to_points (H := sample_rng) (C (new_state [] eye ∅)) 10 = Raise ValueError /\
  morphism_4_disk_to_annulus (H0 := sample_rng) (new_state [] eye ∅) 10
  = Raise ValueError /\
  (_points (new_state [] eye ∅) = None ->
   compute_C_geom (H0 := sample_rng) (new_state [] eye ∅) A_PARAM = Raise ValueError).
Proof.
apply (empty_bits_value_error (H0 := sample_rng) (new_state [] eye ∅) 10 A_PARAM).
reflexivity.
Defined.

Lemma phi_closing_isomorphism_resets_witness :
  exists X_0',
    phi_closing_isomorphism (H := sample_linalg) initial_state = Ok X_0' /\
    morphism_5_closing_isomorphism (H := sample_linalg) (Some initial_state) = Ok X_0' /\
    C X_0' = replicate N_BITS 0%Z /\
    morphisms_applied X_0' = ∅ /\
    _points X_0' = None /\
    morphism_5_closing_isomorphism (H := sample_linalg) None = Ok initial_state.
Proof.
apply (phi_closing_isomorphism_resets (H := sample_linalg) initial_state).
reflexivity.
Defined.

(* ===================================================================== *)
(** * The purity of a density matrix *)
(* ===================================================================== *)

Lemma Rsum_ext (f g : nat -> R) (n : nat) :
  (forall k, (k < n)%nat -> f k = g k) -> Rsum f n = Rsum g n.
Proof.
induction n as [|n IH]; intros Hfg; simpl; [reflexivity|].
rewrite IH by (intros; apply Hfg; lia). rewrite Hfg by lia. reflexivity.
Qed.

Lemma Rsum_le (f g : nat -> R) (n : nat) :
  (forall k, (k < n)%nat -> f k <= g k)%R -> (Rsum f n <= Rsum g n)%R.
Proof.
induction n as [|n IH]; intros Hfg; simpl; [lra|].
specialize (IH (fun k Hk => Hfg k (Nat.lt_lt_succ_r _ _ Hk))).
specialize (Hfg n (Nat.lt_succ_diag_r n)). lra.
Qed.

Lemma Rsum_scale_l (c : R) (f : nat -> R) (n : nat) :
  Rsum (fun k => c * f k)%R n = (c * Rsum f n)%R.
Proof. induction n as [|n IH]; simpl; [ring|]. rewrite IH. ring. Qed.

Lemma hermitian_entry (n : nat) (A : Matrix) (i k : nat) :
  Hermitian n A -> (i < n)%nat -> (k < n)%nat -> A k i = Cconj (A i k).
Proof.
intros HA Hi Hk. symmetry. exact (mat_eq_entry n _ _ k i HA Hk Hi).
Qed.

Lemma hermitian_diagonal_real (n : nat) (A : Matrix) (i : nat) :
  Hermitian n A -> (i < n)%nat -> Cim (A i i) = 0%R.
Proof.
intros HA Hi. pose proof (hermitian_entry n A i i HA Hi Hi) as E.
destruct (A i i) as [a b]. unfold Cconj in E. cbn [fst snd] in E.
injection E as E. unfold Cim. cbn [snd]. lra.
Qed.

(** The quadratic form of [A] at a vector supported on the indices [i] and
    [k]. *)
Lemma quadratic_form_two (n : nat) (A : Matrix) (i k : nat) (x y : complex) :
  (i < n)%nat -> (k < n)%nat -> i <> k ->
  vdot n (fun j => Cadd (Cmul x (eye j i)) (Cmul y (eye j k)))
         (matvec n A (fun j => Cadd (Cmul x (eye j i)) (Cmul y (eye j k))))
  = Cadd (Cmul (Cconj x) (Cadd (Cmul x (A i i)) (Cmul y (A i k))))
         (Cmul (Cconj y) (Cadd (Cmul x (A k i)) (Cmul y (A k k)))).
Proof.
intros Hi Hk Hne.
assert (Hw : forall r,
           matvec n A (fun j => Cadd (Cmul x (eye j i)) (Cmul y (eye j k))) r
           = Cadd (Cmul x (A r i)) (Cmul y (A r k))).
{ intros r. unfold matvec.
  rewrite (Csum_ext _ (fun j => Cadd (Cmul (Cmul x (A r j)) (eye j i))
                                     (Cmul (Cmul y (A r j)) (eye j k))))
    by (intros j _; ring).
  rewrite Csum_add.
  rewrite (Csum_eye_r i (fun j => Cmul x (A r j)) n Hi).
  rewrite (Csum_eye_r k (fun j => Cmul y (A r j)) n Hk). reflexivity. }
unfold vdot.
rewrite (Csum_ext _ (fun r =>
           Cadd (Cmul (eye i r) (Cmul (Cconj x) (Cadd (Cmul x (A r i)) (Cmul y (A r k)))))
                (Cmul (eye k r) (Cmul (Cconj y) (Cadd (Cmul x (A r i)) (Cmul y (A r k))))))).
- rewrite Csum_add.
  rewrite (Csum_eye_l i (fun r => Cmul (Cconj x) (Cadd (Cmul x (A r i)) (Cmul y (A r k)))) n Hi).
  rewrite (Csum_eye_l k (fun r => Cmul (Cconj y) (Cadd (Cmul x (A r i)) (Cmul y (A r k)))) n Hk).
  reflexivity.
- intros r _. rewrite Hw. unfold eye.
  rewrite (Nat.eqb_sym r i), (Nat.eqb_sym r k).
  destruct (i =? r)%nat; destruct (k =? r)%nat; apply complex_eq; cx_unfold; ring.
Qed.

Lemma discriminant_bound (B a c : R) :
  (0 <= B)%R -> (0 <= a)%R ->
  (forall t, 0 <= t * t * B * a - 2 * t * B + c)%R ->
  (B <= a * c)%R.
Proof.
intros HB Ha Hq. destruct (Rle_lt_or_eq_dec 0 a Ha) as [Hpos | <-].
- pose proof (Hq (/ a)%R) as Hs.
  pose proof (Rinv_0_lt_compat a Hpos) as Hinv.
  assert (E : (/ a * a = 1)%R) by (apply Rinv_l; lra).
  replace (/ a * / a * B * a)%R with (/ a * B * (/ a * a))%R in Hs by ring.
  rewrite E in Hs.
  assert (Hc : (/ a * B <= c)%R) by lra.
  pose proof (Rmult_le_compat_l a _ _ Ha Hc) as Hm.
  replace (a * (/ a * B))%R with ((/ a * a) * B)%R in Hm by ring.
  rewrite E in Hm. lra.
- destruct (Rle_lt_or_eq_dec 0 B HB) as [HBpos | <-]; [|lra].
  exfalso. pose proof (Hq ((c + 1) / (2 * B))%R) as Hs.
  replace ((c + 1) / (2 * B) * ((c + 1) / (2 * B)) * B * 0
           - 2 * ((c + 1) / (2 * B)) * B + c)%R with (-1)%R in Hs by (field; lra).
  lra.
Qed.

(** The 2 by 2 minors of a positive semi-definite Hermitian array are not
    negative. *)
Lemma psd_minor (n : nat) (A : Matrix) (i k : nat) :
  Hermitian n A -> positive_semidefinite n A -> (i < n)%nat -> (k < n)%nat ->
  (Cnorm2 (A i k) <= Cre (A i i) * Cre (A k k))%R.
Proof.
intros HA HP Hi Hk.
pose proof (hermitian_diagonal_real n A i HA Hi) as Him.
destruct (Nat.eq_dec i k) as [<-|Hne].
- destruct (A i i) as [a b]. unfold Cim, Cre, Cnorm2 in *. cbn [fst snd] in *.
  subst b. lra.
- apply discriminant_bound.
  + apply Cnorm2_nonneg.
  + apply (psd_diagonal_nonneg n); assumption.
  + intros t.
    pose proof (HP (fun j => Cadd (Cmul (Cmul (RtoC (- t)) (A i k)) (eye j i))
                                  (Cmul (RtoC 1) (eye j k)))) as Hq.
    rewrite (quadratic_form_two n A i k _ _ Hi Hk Hne) in Hq.
    rewrite (hermitian_entry n A i k HA Hi Hk) in Hq.
    destruct (A i i) as [a ai]. destruct (A i k) as [b1 b2]. destruct (A k k) as [c ci].
    unfold Cim in Him. cbn [snd] in Him. subst ai.
    revert Hq. cx_unfold. unfold Cnorm2. cbn [fst snd]. intros Hq.
    match goal with
    | Hq : (0 <= ?l)%R |- (0 <= ?r)%R => replace r with l by ring; exact Hq
    end.
Qed.

Lemma purity_as_sum (n : nat) (A : Matrix) :
  Hermitian n A ->
  Cre (trace n (matmul n A A))
  = Rsum (fun i => Rsum (fun k => Cnorm2 (A i k)) n) n.
Proof.
intros HA. unfold trace. rewrite Cre_Csum. apply Rsum_ext. intros i Hi.
unfold matmul. rewrite Cre_Csum. apply Rsum_ext. intros k Hk.
rewrite (hermitian_entry n A i k HA Hi Hk).
destruct (A i k) as [b1 b2]. cx_unfold. unfold Cnorm2. cbn [fst snd]. ring.
Qed.

(** The purity Tr(rho^2) of a density matrix lies between 0 and 1. *)
Lemma purity_range (n : nat) (rho : Matrix) :
  density_matrix n rho ->
  (0 <= Cre (trace n (matmul n rho rho)) <= 1)%R.
Proof.
intros (HH & HT & HP). rewrite (purity_as_sum n rho HH). split.
- apply Rsum_nonneg. intros i _. apply Rsum_nonneg. intros k _. apply Cnorm2_nonneg.
- assert (Htr : Rsum (fun k => Cre (rho k k)) n = 1%R).
  { rewrite <- Cre_Csum. fold (trace n rho). rewrite HT. reflexivity. }
  apply Rle_trans
    with (Rsum (fun i => Rsum (fun k => Cre (rho i i) * Cre (rho k k)) n) n)%R.
  + apply Rsum_le. intros i Hi. apply Rsum_le. intros k Hk.
    apply (psd_minor n); assumption.
  + rewrite (Rsum_ext _ (fun i => Cre (rho i i) * 1)%R).
    * rewrite (Rsum_ext _ (fun i => Cre (rho i i))) by (intros; ring).
      rewrite Htr. lra.
    * intros i _. rewrite Rsum_scale_l, Htr. reflexivity.
Qed.

(* ===================================================================== *)
(** * The range of C_info *)
(* ===================================================================== *)

Lemma np_sum_unit_interval (l : list R) :
  Forall (fun x => 0 <= x <= 1)%R l -> (0 <= np_sum l <= INR (length l))%R.
Proof.
induction 1 as [|x l Hx _ IH]; [cbn; lra|].
change (np_sum (x :: l)) with (x + np_sum l)%R.
change (length (x :: l)) with (S (length l)). rewrite S_INR. lra.
Qed.

Lemma np_mean_unit_interval (l : list R) :
  l <> [] -> Forall (fun x => 0 <= x <= 1)%R l -> (0 <= np_mean l <= 1)%R.
Proof.
intros Hne Hl. pose proof (np_sum_unit_interval l Hl) as Hs.
assert (Hn : (0 < INR (length l))%R).
{ apply lt_0_INR. destruct l; [contradiction|]. cbn. lia. }
unfold np_mean. split.
- apply Rmult_le_pos; [lra|]. apply Rlt_le, Rinv_0_lt_compat. exact Hn.
- apply (Rmult_le_reg_r (INR (length l))); [exact Hn|].
  unfold Rdiv. rewrite Rmult_assoc, Rinv_l by lra. lra.
Qed.

Lemma filter_all_false {A} (f : A -> bool) (l : list A) :
  List.filter f l = [] -> Forall (fun x => f x = false) l.
Proof.
induction l as [|x l IH]; intros E; [constructor|].
cbn [List.filter] in E. destruct (f x) eqn:Ex; [discriminate E|].
constructor; [exact Ex|apply IH; exact E].
Qed.

Lemma eps10_small : (0 < eps10 < 1 / 8)%R.
Proof.
unfold eps10. split.
- apply Rinv_0_lt_compat. apply pow_lt. lra.
- apply (Rmult_lt_reg_r (10 ^ 10)); [apply pow_lt; lra|].
  rewrite Rinv_l by (apply pow_nonzero; lra). cbn [pow]. lra.
Qed.

Section InfoRange.
Context `{LinAlg}.

Lemma rank_range (q : Matrix) :
  Rsum (eigvalsh q) 8 = 1%R ->
  (1 <= length (List.filter (fun x => bool_decide (eps10 < x)%R)
                            (map (eigvalsh q) (seq 0 DIM_HILBERT))) <= 8)%nat.
Proof.
intros Hsum. split.
- destruct (List.filter _ _) eqn:E; [|cbn; lia]. exfalso.
  apply filter_all_false in E.
  assert (Hall : forall k, (k < 8)%nat -> (eigvalsh q k <= eps10)%R).
  { intros k Hk.
    pose proof (proj1 (List.Forall_forall _ _) E (eigvalsh q k)) as Hk'.
    assert (Hin : In (eigvalsh q k) (map (eigvalsh q) (seq 0 DIM_HILBERT))).
    { apply in_map. apply in_seq. change DIM_HILBERT with 8%nat. lia. }
    specialize (Hk' Hin). apply bool_decide_eq_false_1 in Hk'. lra. }
  pose proof (Rsum_le (eigvalsh q) (fun _ => eps10) 8 Hall) as Hle.
  rewrite Hsum in Hle. cbn [Rsum] in Hle. pose proof eps10_small. lra.
- etransitivity; [apply List.filter_length_le|].
  rewrite length_map, length_seq. reflexivity.
Qed.

(** X26. On every state whose quantum component is a density matrix, with
    [eigvalsh] returning eigenvalues that sum to the trace, [compute_C_info]
    returns a number between 0 and 1, whatever the classical component. *)
Theorem compute_C_info_range (state : SystemState) :
  density_matrix 8 (Q state) -> eigvalsh_trace_law ->
  exists x, compute_C_info state = Ok (Some x) /\ (0 <= x <= 1)%R.
Proof.
intros Hq Hlaw. unfold compute_C_info. eexists. split; [reflexivity|].
pose proof (purity_range 8 (Q state) Hq) as Hpur. change DIM_HILBERT with 8%nat.
pose proof (rank_range (Q state) (Hlaw _ Hq)) as Hrank.
change DIM_HILBERT with 8%nat in Hrank.
set (rank := length (List.filter _ _)) in *. clearbody rank.
rewrite length_map, length_seq. change (1 <? 8)%nat with true. cbv iota.
replace (INR 8) with 8%R by (simpl; lra).
assert (Hrn : (0 <= (INR rank - 1) / (8 - 1) <= 1)%R).
{ assert (Hr : (1 <= INR rank <= 8)%R).
  { pose proof (le_INR 1 rank ltac:(lia)) as H1.
    pose proof (le_INR rank 8 ltac:(lia)) as H8.
    simpl in H1, H8. lra. }
  split.
  - apply Rmult_le_pos; lra.
  - apply (Rmult_le_reg_r (8 - 1)); [lra|].
    unfold Rdiv. rewrite Rmult_assoc, Rinv_l by lra. lra. }
match goal with
| |- (0 <= 3 / 10 * ?s + _ + _ <= 1)%R => assert (Hs : (0 <= s <= 1)%R)
end.
{ destruct (0 <? length (C state) / 2)%nat eqn:Hb; [|lra].
  apply Nat.ltb_lt in Hb.
  match goal with
  | |- context [np_mean ?l] => assert (Hm : (0 <= np_mean l <= 1)%R)
  end.
  { apply np_mean_unit_interval.
    - destruct (length (C state) / 2)%nat; [lia|]. discriminate.
    - apply List.Forall_forall. intros x Hx. apply in_map_iff in Hx.
      destruct Hx as (i & <- & _).
      pose proof (Z.mod_pos_bound (np_sum_Z (slice2 (C state) (2 * i))) 2 ltac:(lia)) as Hb2.
      split; [apply IZR_le; lia|]. apply (IZR_le _ 1). lia. }
  unfold Rabs. destruct (Rcase_abs _); lra. }
lra.
Qed.

End InfoRange.

Lemma sample_eigvalsh_trace_law : @eigvalsh_trace_law sample_linalg.
Proof. intros q _. cbn. lra. Qed.

Lemma compute_C_info_range_witness :
  exists x, compute_C_info (H := sample_linalg) initial_state = Ok (Some x) /\
            (0 <= x <= 1)%R.
Proof.
apply (compute_C_info_range (H := sample_linalg) initial_state).
- apply initial_state_density.
- exact sample_eigvalsh_trace_law.
Defined.

(* ===================================================================== *)
(** * The entropy of the spectrum *)
(* ===================================================================== *)

Lemma log2_dim_hilbert : log2 (INR DIM_HILBERT) = 3%R.
Proof.
unfold log2. replace (INR DIM_HILBERT) with (2 ^ 3)%R by (simpl; ring).
rewrite ln_pow by lra. pose proof ln_lt_2 as Hln.
change (INR 3) with (1 + 1 + 1)%R. field. lra.
Qed.

Section SpectralEntropy.
Context `{LinAlg}.

(** X27. The entropy term of [circuit_depth_proxy] for three qubits is
    [von_neumann_entropy]: the proxy is half the linear entropy 1 - Tr(rho^2)
    plus half the normalised von Neumann entropy of the same array, for every
    array and whatever [eigvalsh] returns. *)
Theorem circuit_depth_proxy_von_neumann (rho : Matrix) :
  circuit_depth_proxy rho 3
  = (5 / 10 * (1 - Cre (trace DIM_HILBERT (matmul DIM_HILBERT rho rho)))
     + 5 / 10 * von_neumann_entropy rho)%R.
Proof.
unfold circuit_depth_proxy, von_neumann_entropy. rewrite log2_dim_hilbert.
destruct (decide (0 < 3)%R) as [_|Hn]; [|lra].
change (INR 3) with (1 + 1 + 1)%R.
replace (1 + 1 + 1)%R with 3%R by ring. reflexivity.
Qed.

End SpectralEntropy.

(* ===================================================================== *)
(** * The coherence proxy *)
(* ===================================================================== *)

Lemma Rsum_zero (f : nat -> R) (n : nat) :
  (forall k, (k < n)%nat -> f k = 0%R) -> Rsum f n = 0%R.
Proof.
induction n as [|n IH]; intros Hf; simpl; [reflexivity|].
rewrite IH by (intros; apply Hf; lia). rewrite Hf by lia. ring.
Qed.

(** X28. [otoc_proxy_quantum] reports the maximal value 1 for every array
    without off-diagonal entries, whatever its diagonal. *)
Theorem otoc_proxy_quantum_diagonal (rho : Matrix) :
  (forall i j, (i < 8)%nat -> (j < 8)%nat -> i <> j -> rho i j = RtoC 0) ->
  otoc_proxy_quantum rho = 1%R.
Proof.
intros Hdiag. unfold otoc_proxy_quantum, frobenius_norm.
change DIM_HILBERT with 8%nat.
rewrite (Rsum_zero _ 8).
- rewrite sqrt_0. unfold Rdiv. rewrite Rmult_0_l, Rminus_0_r.
  unfold np_clip, Rmin, Rmax.
  destruct (Rle_dec 1 0); [lra|]. destruct (Rle_dec 1 1); lra.
- intros i Hi. apply Rsum_zero. intros j Hj.
  destruct (Nat.eqb_spec i j) as [->|Hne].
  + unfold Cnorm2. cx_unfold. ring.
  + rewrite (Hdiag i j Hi Hj Hne). unfold Cnorm2. cx_unfold. ring.
Qed.

Lemma otoc_proxy_quantum_diagonal_witness :
  otoc_proxy_quantum (Q initial_state) = 1%R.
Proof.
apply (otoc_proxy_quantum_diagonal (Q initial_state)).
intros i j Hi Hj Hne. cbn [Q initial_state new_state].
destruct i as [|i]; destruct j as [|j]; try reflexivity. congruence.
Defined.

(* ===================================================================== *)
(** * The Lempel-Ziv count *)
(* ===================================================================== *)

Lemma string_nonempty_length (s : string) : s <> ""%string -> (1 <= String.length s)%nat.
Proof. destruct s; [congruence|]. cbn. lia. Qed.

(** Once the fuel covers the characters that are left, more fuel changes
    nothing: the loop has stopped by itself. *)
Lemma lz_loop_enough (f1 f2 : nat) (s : string) (n i complexity : nat)
      (dictionary : gset string) :
  (n - i <= f1)%nat -> (n - i <= f2)%nat ->
  lz_loop f1 s n i complexity dictionary = lz_loop f2 s n i complexity dictionary.
Proof.
revert f2 i complexity dictionary.
induction f1 as [|f1 IH]; intros f2 i complexity dictionary H1 H2.
- destruct f2 as [|f2]; [reflexivity|]. cbn [lz_loop].
  destruct (Nat.ltb_spec i n); [lia|reflexivity].
- destruct f2 as [|f2].
  + cbn [lz_loop]. destruct (Nat.ltb_spec i n); [lia|reflexivity].
  + cbn [lz_loop]. destruct (Nat.ltb_spec i n) as [Hin|_]; [|reflexivity].
    cbv zeta.
    match goal with
    | |- context [bool_decide (?p <> ""%string)] =>
        generalize p; intros new_pattern
    end.
    destruct (bool_decide_reflect (new_pattern <> ""%string)) as [Hne|_].
    * pose proof (string_nonempty_length new_pattern Hne). apply IH; lia.
    * apply IH; lia.
Qed.

Lemma lz_loop_bounds (fuel : nat) (s : string) (n i complexity : nat)
      (dictionary : gset string) :
  (complexity <= lz_loop fuel s n i complexity dictionary <= complexity + (n - i))%nat.
Proof.
revert i complexity dictionary.
induction fuel as [|fuel IH]; intros i complexity dictionary; [cbn; lia|].
cbn [lz_loop]. destruct (Nat.ltb_spec i n) as [Hin|_]; [|lia].
cbv zeta.
match goal with
| |- context [bool_decide (?p <> ""%string)] =>
    generalize p; intros new_pattern
end.
destruct (bool_decide_reflect (new_pattern <> ""%string)) as [Hne|_].
- pose proof (string_nonempty_length new_pattern Hne).
  pose proof (IH (i + String.length new_pattern)%nat (complexity + 1)%nat
                 ({[new_pattern]} ∪ dictionary)). lia.
- pose proof (IH (i + 1)%nat complexity dictionary). lia.
Qed.

Lemma bit_string_length (bits : list Z) :
  Forall is_bit bits ->
  String.length (String.concat "" (map str_of_int bits)) = length bits.
Proof.
induction 1 as [|b tl Hb Htl IH]; [reflexivity|].
destruct tl as [|b' tl'].
- destruct Hb as [-> | ->]; reflexivity.
- change (String.concat "" (map str_of_int (b :: b' :: tl')))
    with (str_of_int b ++ "" ++ String.concat "" (map str_of_int (b' :: tl')))%string.
  set (rest := String.concat "" (map str_of_int (b' :: tl'))) in *.
  destruct Hb as [-> | ->];
    [change (str_of_int 0 ++ "" ++ rest)%string with (String "0" rest)
    |change (str_of_int 1 ++ "" ++ rest)%string with (String "1" rest)];
    cbn [String.length]; rewrite IH; reflexivity.
Qed.

(** X29. For every array of bits [lempel_ziv_complexity] returns a count
    between 1 and the number of bits (1 for the empty array), and the number
    of passes of its loop never exceeds the number of bits: giving the loop
    more passes than that changes nothing. *)
Theorem lempel_ziv_complexity_bounds (bits : list Z) :
  Forall is_bit bits ->
  (1 <= lempel_ziv_complexity bits <= Nat.max 1 (length bits))%nat /\
  forall fuel, (length bits <= fuel)%nat ->
    lempel_ziv_complexity bits
    = Nat.max 1 (lz_loop fuel (String.concat "" (map str_of_int bits))
                         (length bits) 0 0 ∅).
Proof.
intros Hbits. unfold lempel_ziv_complexity. cbv zeta.
rewrite (bit_string_length bits Hbits). split.
- pose proof (lz_loop_bounds (length bits) (String.concat "" (map str_of_int bits))
                             (length bits) 0 0 ∅). lia.
- intros fuel Hfuel. f_equal. apply lz_loop_enough; lia.
Qed.

Lemma lempel_ziv_complexity_bounds_witness :
  (1 <= lempel_ziv_complexity [0; 1; 1; 0]%Z <= Nat.max 1 (length [0; 1; 1; 0]%Z))%nat /\
  forall fuel, (length [0; 1; 1; 0]%Z <= fuel)%nat ->
    lempel_ziv_complexity [0; 1; 1; 0]%Z
    = Nat.max 1 (lz_loop fuel (String.concat "" (map str_of_int [0; 1; 1; 0]%Z))
                         (length [0; 1; 1; 0]%Z) 0 0 ∅).
Proof.
apply (lempel_ziv_complexity_bounds [0; 1; 1; 0]%Z).
repeat first [apply List.Forall_cons | apply List.Forall_nil];
  first [left; reflexivity | right; reflexivity].
Defined.

(* ===================================================================== *)
(** * The robustness sweep *)
(* ===================================================================== *)



Section Sweep.
Context `{LinAlg} `{Rng}.



End Sweep.

